(** * Barnard's exact test (scipy/stats/_hypotests.py): a shallow embedding

    The development follows [barnard_exact],
    [_binomial_maximisation_of_p_value_with_nuisance_param] and
    [_compute_log_combinations] line by line.

    It also follows the contingency-table statistics of the same file
    ([_Aij], [_Dij], [_P], [_Q], [_a_ij_Aij_Dij2], [_tau_b], [_somers_d],
    [somersd]) and the Cramer-von Mises test ([_cdf_cvm],
    [cramervonmises]).  Library functions ([gammaln], [norm.sf],
    [crosstab], the callable [cdf]) and the two Bessel series
    [_cdf_cvm_inf] and [_psi1_mod] are parameters of the sections that use
    them.

    Numbers.  Integer arrays hold int64 values: they are [Z] with the
    wrap-around of every addition and subtraction written out ([wrap64]).
    Floating-point arrays hold values of [xreal]: the IEEE-754 value set
    (finite numbers, the two infinities and not-a-number) with the IEEE rules
    for the special values and EXACT real arithmetic on the finite part.
    Rounding of float64 operations is therefore not modelled; every theorem
    below about numeric values is a theorem of this exact arithmetic.  There
    is one zero, which behaves as +0 (the code never divides by -0).

    Arrays.  A one-dimensional array is a list, a two-dimensional array a
    list of rows.  Broadcasting of a column vector against a row vector is
    [outer]; an operation on two arrays of the same shape is [zip2].  The
    third axis of the arrays of the maximiser (the 100 candidate values of
    the nuisance parameter) is [List.map] over [nuisance_arr]: the slice
    [[:, :, k]] of each three-dimensional array is computed by the function
    applied to the k-th candidate. *)

From Stdlib Require Import ZArith String List Bool Lia Reals Lra Permutation.
Import ListNotations.

Set Implicit Arguments.

(* ================================================================== *)
(** ** int64 arithmetic *)

Module Int64.

Definition wrap64 (z : Z) : Z := ((z + 2 ^ 63) mod 2 ^ 64 - 2 ^ 63)%Z.

Definition add (a b : Z) : Z := wrap64 (a + b).
Definition sub (a b : Z) : Z := wrap64 (a - b).

Definition in_range (z : Z) : Prop := (- 2 ^ 63 <= z < 2 ^ 63)%Z.

(** Does the Python integer [z] fit an int64? *)
Definition in_rangeb (z : Z) : bool := ((- 2 ^ 63 <=? z) && (z <? 2 ^ 63))%Z.

End Int64.

(* ================================================================== *)
(** ** Exact arithmetic on the IEEE-754 value set *)

Module XReal.

Inductive xreal : Type :=
| Fin (r : R)
| PInf
| NInf
| NaN.

Definition Rleb (x y : R) : bool := if Rle_dec x y then true else false.
Definition Rltb (x y : R) : bool := if Rlt_dec x y then true else false.
Definition Reqb (x y : R) : bool := if Req_dec_T x y then true else false.

(** The infinity that carries the sign of [r]; not-a-number for zero. *)
Definition inf_of_sign (r : R) : xreal :=
  if Rlt_dec 0 r then PInf else if Rlt_dec r 0 then NInf else NaN.

Definition of_int (z : Z) : xreal := Fin (IZR z).

Definition xneg (x : xreal) : xreal :=
  match x with
  | Fin a => Fin (- a)
  | PInf => NInf
  | NInf => PInf
  | NaN => NaN
  end.

Definition xabs (x : xreal) : xreal :=
  match x with
  | Fin a => Fin (Rabs a)
  | PInf | NInf => PInf
  | NaN => NaN
  end.

Definition xadd (x y : xreal) : xreal :=
  match x, y with
  | NaN, _ | _, NaN => NaN
  | Fin a, Fin b => Fin (a + b)
  | PInf, NInf | NInf, PInf => NaN
  | PInf, _ | _, PInf => PInf
  | NInf, _ | _, NInf => NInf
  end.

Definition xsub (x y : xreal) : xreal := xadd x (xneg y).

Definition xmul (x y : xreal) : xreal :=
  match x, y with
  | NaN, _ | _, NaN => NaN
  | Fin a, Fin b => Fin (a * b)
  | Fin a, PInf | PInf, Fin a => inf_of_sign a
  | Fin a, NInf | NInf, Fin a => inf_of_sign (- a)
  | PInf, PInf | NInf, NInf => PInf
  | PInf, NInf | NInf, PInf => NInf
  end.

Definition xdiv (x y : xreal) : xreal :=
  match x, y with
  | NaN, _ | _, NaN => NaN
  | Fin a, Fin b => if Req_dec_T b 0 then inf_of_sign a else Fin (a / b)
  | Fin _, (PInf | NInf) => Fin 0
  | PInf, Fin b => if Rlt_dec b 0 then NInf else PInf
  | NInf, Fin b => if Rlt_dec b 0 then PInf else NInf
  | (PInf | NInf), (PInf | NInf) => NaN
  end.

Definition xsqrt (x : xreal) : xreal :=
  match x with
  | Fin a => if Rlt_dec a 0 then NaN else Fin (sqrt a)
  | PInf => PInf
  | NInf | NaN => NaN
  end.

Definition xlog (x : xreal) : xreal :=
  match x with
  | Fin a =>
      if Rlt_dec a 0 then NaN
      else if Req_dec_T a 0 then NInf else Fin (ln a)
  | PInf => PInf
  | NInf | NaN => NaN
  end.

Definition xexp (x : xreal) : xreal :=
  match x with
  | Fin a => Fin (exp a)
  | PInf => PInf
  | NInf => Fin 0
  | NaN => NaN
  end.

(** Comparisons: every comparison with not-a-number is false. *)
Definition xle (x y : xreal) : bool :=
  match x, y with
  | NaN, _ | _, NaN => false
  | Fin a, Fin b => Rleb a b
  | NInf, _ | _, PInf => true
  | _, _ => false
  end.

Definition xlt (x y : xreal) : bool :=
  match x, y with
  | NaN, _ | _, NaN => false
  | Fin a, Fin b => Rltb a b
  | PInf, _ | _, NInf => false
  | _, _ => true
  end.

Definition xeq (x y : xreal) : bool :=
  match x, y with
  | Fin a, Fin b => Reqb a b
  | PInf, PInf | NInf, NInf => true
  | _, _ => false
  end.

Definition xge (x y : xreal) : bool := xle y x.
Definition xgt (x y : xreal) : bool := xlt y x.

Definition is_nan (x : xreal) : bool :=
  match x with NaN => true | _ => false end.

Definition xsum (l : list xreal) : xreal := fold_right xadd (Fin 0) l.

End XReal.

(* ================================================================== *)
(** ** Arrays *)

Module NDArray.

(** [np.arange(n)]: the integers 0 .. n-1, empty when [n <= 0]. *)
Definition arange (n : Z) : list Z := map Z.of_nat (seq 0 (Z.to_nat n)).

(** Broadcasting of a column vector (shape (r,1)) against a row vector
    (shape (1,c)) under a binary operation. *)
Definition outer {A B C : Type} (f : A -> B -> C)
    (col : list A) (row : list B) : list (list C) :=
  map (fun a => map (f a) row) col.

(** Element-wise binary operation on two arrays of the same shape. *)
Fixpoint zip {A B C : Type} (f : A -> B -> C)
    (l1 : list A) (l2 : list B) : list C :=
  match l1, l2 with
  | a :: l1', b :: l2' => f a b :: zip f l1' l2'
  | _, _ => []
  end.

Definition zip2 {A B C : Type} (f : A -> B -> C)
    (X : list (list A)) (Y : list (list B)) : list (list C) :=
  zip (zip f) X Y.

Definition map2d {A B : Type} (f : A -> B) (X : list (list A)) :
    list (list B) :=
  map (map f) X.

(** Python indexing of a sequence by an integer: negative indices count
    from the end, anything else out of range is an IndexError ([None]). *)
Definition py_index {A : Type} (l : list A) (i : Z) : option A :=
  let len := Z.of_nat (length l) in
  if ((0 <=? i) && (i <? len))%Z then nth_error l (Z.to_nat i)
  else if ((- len <=? i) && (i <? 0))%Z then nth_error l (Z.to_nat (len + i))
  else None.

Definition py_index2 {A : Type} (X : list (list A)) (i j : Z) : option A :=
  match py_index X i with
  | Some row => py_index row j
  | None => None
  end.

(** [a[mask] = v] for a boolean mask of the shape of [a]. *)
Definition set_where {A : Type} (mask : list (list bool)) (v : A)
    (X : list (list A)) : list (list A) :=
  zip2 (fun (m : bool) x => if m then v else x) mask X.

(** The elements of [X] selected by the boolean mask [idx], in row-major
    order: [X[idx]]. *)
Definition select {A : Type} (idx : list (list bool)) (X : list (list A)) :
    list A :=
  concat (zip (fun mrow xrow =>
                 concat (zip (fun (m : bool) x => if m then [x] else [])
                             mrow xrow))
              idx X).

(** Is [X] a two-dimensional array of shape (r, c)? *)
Definition has_shape {A : Type} (r c : nat) (X : list (list A)) : bool :=
  (length X =? r)%nat && forallb (fun row => (length row =? c)%nat) X.

End NDArray.

(* ================================================================== *)
(** ** The program *)

Module Hypotests.

Import XReal NDArray.

(** The ValueError messages of [barnard_exact]; [InhomogeneousShape] is the
    ValueError of [np.asarray] on rows of different lengths. *)
Inductive message : Type :=
| NIterNotPositive
| TableShape
| TableNegative
| AlternativeUnknown
| InhomogeneousShape.

Inductive exn : Type :=
| ValueError (m : message)
| OverflowError
| IndexError
| UnboundLocalError.

Inductive outcome (A : Type) : Type :=
| Raised (e : exn)
| Returned (a : A).

Arguments Raised {A} e.
Arguments Returned {A} a.

Definition bind {A B : Type} (x : outcome A) (f : A -> outcome B) :
    outcome B :=
  match x with
  | Raised e => Raised e
  | Returned a => f a
  end.

Notation "x <- c ;; k" := (bind c (fun x => k))
  (at level 61, c at next level, right associativity).

Definition of_option {A : Type} (e : exn) (o : option A) : outcome A :=
  match o with
  | Some a => Returned a
  | None => Raised e
  end.

(** The components of the test, in the order of the data flow; a run of
    [barnard_exact] records the components it has entered. *)
Inductive stage : Type :=
| WaldStatisticField
| RejectionRegion
| NuisanceMaximizer.

Record BarnardExactResult : Type :=
  { statistic : xreal; pvalue : xreal }.

(** [np.linspace(start, stop, num)] (endpoint included), as numpy computes
    it: [arange(0, num) * step + start] with
    [step = (stop - start) / (num - 1)], and the last sample set to [stop].
    (numpy's separate branch for a step equal to zero computes
    [arange(0, num) / (num - 1) * (stop - start) + start], which is the same
    array in exact arithmetic.) *)
Definition linspace (start stop : xreal) (num : Z) : list xreal :=
  let step := xdiv (xsub stop start) (of_int (num - 1)) in
  let y := map (fun i => xadd (xmul (of_int i) step) start) (arange num) in
  if (1 <? num)%Z then removelast y ++ [stop] else y.

(** [a.argmax()] of a non-empty one-dimensional float array: the first
    index of the maximum; a not-a-number entry counts as the maximum and
    stops the scan.  (The array of candidate p-values is never empty.) *)
Fixpoint argmax_scan (mp : xreal) (max_ind i : Z) (l : list xreal) : Z :=
  match l with
  | [] => max_ind
  | x :: l' =>
      if negb (xle x mp)
      then if is_nan x then i else argmax_scan x i (i + 1) l'
      else argmax_scan mp max_ind (i + 1) l'
  end.

Definition argmax (l : list xreal) : Z :=
  match l with
  | [] => 0
  | x :: l' => if is_nan x then 0 else argmax_scan x 0 1 l'
  end.

Section WithGammaln.

(** [scipy.special.gammaln] on the int64 arguments the code passes to it
    (positive integers, where the function is finite). *)
Variable gammaln : Z -> R.

(** Lines 668-671. *)
Definition _compute_log_combinations (n : Z) : list xreal :=
  let gammaln_arr :=
    map (fun k => Fin (gammaln (Int64.add k 1))) (arange (Int64.add n 1)) in
  zip xsub (map (xsub (Fin (gammaln (Int64.add n 1)))) gammaln_arr)
      (rev gammaln_arr).

Definition nuisance_num : Z := 100.

(** Lines 938-962 for one candidate [nuisance] of [nuisance_arr]: the
    slice [[:, :, k]] of each broadcast array. *)
Definition log_nuisance_arr (nuisance : xreal) : xreal :=
  if xge nuisance (Fin 0) then xlog nuisance else Fin 0.

Definition log_1_minus_nuisance_arr (nuisance : xreal) : xreal :=
  if xge (xsub (Fin 1) nuisance) (Fin 0)
  then xlog (xsub (Fin 1) nuisance) else Fin 0.

Definition nuisance_power_x1_x2 (x1_plus_x2 : list (list Z))
    (nuisance : xreal) : list (list xreal) :=
  set_where (map2d (fun s => (s =? 0)%Z) x1_plus_x2) (Fin 0)
    (map2d (fun s => xmul (log_nuisance_arr nuisance) (of_int s))
           x1_plus_x2).

Definition nuisance_power_n_minus_x1_x2 (n : Z)
    (x1_plus_x2 n_minus_x1_x2 : list (list Z)) (nuisance : xreal) :
    list (list xreal) :=
  set_where (map2d (fun s => (s =? n)%Z) x1_plus_x2) (Fin 0)
    (map2d (fun m => xmul (log_1_minus_nuisance_arr nuisance) (of_int m))
           n_minus_x1_x2).

Definition tmp_values (n : Z) (x1_plus_x2 n_minus_x1_x2 : list (list Z))
    (x1_sum_x2_log_comb : list (list xreal)) (nuisance : xreal) :
    list (list xreal) :=
  map2d xexp
    (zip2 xadd
       (zip2 xadd x1_sum_x2_log_comb
             (nuisance_power_x1_x2 x1_plus_x2 nuisance))
       (nuisance_power_n_minus_x1_x2 n x1_plus_x2 n_minus_x1_x2 nuisance)).

(** Line 964: division of the slice by its total mass. *)
Definition normalise (tmp_values_arr : list (list xreal)) :
    list (list xreal) :=
  let total := xsum (concat tmp_values_arr) in
  map2d (fun v => xdiv v total) tmp_values_arr.

(** Line 968: the k-th entry of [p_values_arr]. *)
Definition candidate_p_value (n : Z)
    (x1_plus_x2 n_minus_x1_x2 : list (list Z))
    (x1_sum_x2_log_comb : list (list xreal)) (idx : list (list bool))
    (nuisance : xreal) : xreal :=
  xsum (select idx
          (normalise (tmp_values n x1_plus_x2 n_minus_x1_x2
                        x1_sum_x2_log_comb nuisance))).

(** The variables the loop of lines 931-980 assigns: the bracket, and the
    candidate p-values and the index of their maximum of the round just
    run (unbound before the first round). *)
Record search_state : Type :=
  { inf_bound : xreal;
    sup_bound : xreal;
    last_round : option (list xreal * Z) }.

Definition initial_state : search_state :=
  {| inf_bound := Fin 0; sup_bound := Fin 1; last_round := None |}.

Section Maximiser.

Variables (total_c1 total_c2 : Z) (idx : list (list bool)).

(** The locals [n], [x1] and [x2] of lines 920-922. *)
Definition n_arr : Z := Int64.add total_c1 total_c2.
Definition x1_arr : list Z := arange (Int64.add total_c1 1).
Definition x2_arr : list Z := arange (Int64.add total_c2 1).

Definition x1_sum_x2_log_comb : list (list xreal) :=
  outer xadd
    (map (fun i => nth (Z.to_nat i) (_compute_log_combinations total_c1) NaN)
         x1_arr)
    (map (fun i => nth (Z.to_nat i) (_compute_log_combinations total_c2) NaN)
         x2_arr).

Definition x1_plus_x2 : list (list Z) := outer Int64.add x1_arr x2_arr.

Definition n_minus_x1_x2 : list (list Z) :=
  outer (fun a b => Int64.sub (Int64.sub n_arr a) b) x1_arr x2_arr.

(** One pass through the body of the loop (lines 932-980). *)
Definition grid_round (st : search_state) : outcome search_state :=
  let nuisance_arr := linspace (inf_bound st) (sup_bound st) nuisance_num in
  if negb (has_shape (length x1_arr) (length x2_arr) idx)
  then Raised IndexError
  else
    let p_values_arr :=
      map (candidate_p_value n_arr x1_plus_x2 n_minus_x1_x2
             x1_sum_x2_log_comb idx) nuisance_arr in
    let max_pvalue_index := argmax p_values_arr in
    new_inf <- of_option IndexError
      (if (max_pvalue_index >? 0)%Z
       then py_index nuisance_arr (max_pvalue_index - 1)
       else py_index nuisance_arr 0) ;;
    new_sup <- of_option IndexError
      (if (max_pvalue_index <? nuisance_num - 1)%Z
       then py_index nuisance_arr (max_pvalue_index + 1)
       else py_index nuisance_arr (-1)) ;;
    Returned {| inf_bound := new_inf;
                sup_bound := new_sup;
                last_round := Some (p_values_arr, max_pvalue_index) |}.

(** [for _ in range(k)]. *)
Fixpoint grid_search (k : nat) (st : search_state) : outcome search_state :=
  match k with
  | O => Returned st
  | S k' => st' <- grid_round st ;; grid_search k' st'
  end.

(** Lines 900-988. *)
Definition _binomial_maximisation_of_p_value_with_nuisance_param
    (n_iter : Z) : outcome xreal :=
  st <- grid_search (Z.to_nat n_iter) initial_state ;;
  match last_round st with
  | None => Raised UnboundLocalError
  | Some (p_values_arr, max_pvalue_index) =>
      p_value <- of_option IndexError
        (py_index p_values_arr max_pvalue_index) ;;
      Returned (if xgt p_value (Fin 1) then Fin 1 else p_value)
  end.

End Maximiser.

(** [np.asarray(table, dtype=np.int64)] on a list of rows of Python
    integers: rows of different lengths are a ValueError, and in an array
    that has a shape an integer that does not fit an int64 is an
    OverflowError. *)
Definition asarray (table : list (list Z)) : outcome (list (list Z)) :=
  match table with
  | [] => Returned table
  | r :: rs =>
      if forallb (fun r' => (length r' =? length r)%nat) rs
      then if forallb (forallb Int64.in_rangeb) table
           then Returned table
           else Raised OverflowError
      else Raised (ValueError InhomogeneousShape)
  end.

(** Lines 858-877: the field of Wald statistics over the sample space. *)
Definition wald_statistic_field (pooled : bool)
    (total_col_1 total_col_2 : Z) : list (list xreal) :=
  let x1 := arange (Int64.add total_col_1 1) in
  let x2 := arange (Int64.add total_col_2 1) in
  let p1 := map (fun x => xdiv (of_int x) (of_int total_col_1)) x1 in
  let p2 := map (fun x => xdiv (of_int x) (of_int total_col_2)) x2 in
  let variances :=
    if pooled then
      let p :=
        map2d (fun s => xdiv (of_int s)
                          (of_int (Int64.add total_col_1 total_col_2)))
              (outer Int64.add x1 x2) in
      map2d (fun q => xmul (xmul q (xsub (Fin 1) q))
                        (xadd (xdiv (Fin 1) (of_int total_col_1))
                              (xdiv (Fin 1) (of_int total_col_2)))) p
    else
      outer xadd
        (map (fun q => xdiv (xmul q (xsub (Fin 1) q))
                          (of_int total_col_1)) p1)
        (map (fun q => xdiv (xmul q (xsub (Fin 1) q))
                          (of_int total_col_2)) p2) in
  let wald_statistic :=
    zip2 xdiv (outer xsub p1 p2) (map2d xsqrt variances) in
  set_where (outer xeq p1 p2) (Fin 0) wald_statistic.

(** Lines 881-892: the rejection mask, or the ValueError of an
    unrecognised [alternative]. *)
Definition rejection_region (alternative : string)
    (wald_statistic : list (list xreal)) (wald_stat_obs : xreal) :
    outcome (list (list bool)) :=
  if (alternative =? "two-sided")%string then
    Returned (map2d (fun t => xge (xabs t) (xabs wald_stat_obs))
                    wald_statistic)
  else if (alternative =? "less")%string then
    Returned (map2d (fun t => xle t wald_stat_obs) wald_statistic)
  else if (alternative =? "greater")%string then
    Returned (map2d (fun t => xge t wald_stat_obs) wald_statistic)
  else Raised (ValueError AlternativeUnknown).

(** Lines 679-897.  The first component of the result lists the components
    the call has entered, in order. *)
Definition barnard_exact (table : list (list Z)) (alternative : string)
    (pooled : bool) (n_iter : Z) :
    list stage * outcome BarnardExactResult :=
  if (n_iter <=? 0)%Z then ([], Raised (ValueError NIterNotPositive))
  else
    match asarray table with
    | Raised e => ([], Raised e)
    | Returned table =>
        match table with
        | [[a; b]; [c; d]] =>
            if existsb (existsb (fun v => (v <? 0)%Z)) table
            then ([], Raised (ValueError TableNegative))
            else
              let col_sums := [Int64.add a c; Int64.add b d] in
              if existsb (Z.eqb 0) col_sums
              then ([], Returned {| statistic := NaN; pvalue := Fin 1 |})
              else
                let total_col_1 := Int64.add a c in
                let total_col_2 := Int64.add b d in
                let wald_statistic :=
                  wald_statistic_field pooled total_col_1 total_col_2 in
                match py_index2 wald_statistic a b with
                | None => ([WaldStatisticField], Raised IndexError)
                | Some wald_stat_obs =>
                    match rejection_region alternative wald_statistic
                            wald_stat_obs with
                    | Raised e =>
                        ([WaldStatisticField; RejectionRegion], Raised e)
                    | Returned index_arr =>
                        ([WaldStatisticField; RejectionRegion;
                          NuisanceMaximizer],
                         p_value <-
                           _binomial_maximisation_of_p_value_with_nuisance_param
                             total_col_1 total_col_2 index_arr n_iter ;;
                         Returned {| statistic := wald_stat_obs;
                                     pvalue := p_value |})
                    end
                end
        | _ => ([], Raised (ValueError TableShape))
        end
    end.

End WithGammaln.

(** The log-gamma function on the positive integers: [ln ((m-1)!)]. *)
Definition lgamma_int (m : Z) : R := ln (INR (fact (Z.to_nat (m - 1)))).

(** *** The vocabulary of the specification *)

(** A 2x2 table of non-negative counts whose grand total is an int64 value
    (so that no sum the code forms wraps around). *)
Definition valid_table (a b c d : Z) : Prop :=
  (0 <= a /\ 0 <= b /\ 0 <= c /\ 0 <= d /\ a + b + c + d < 2 ^ 63)%Z.

Definition recognised (alternative : string) : Prop :=
  alternative = "two-sided"%string \/ alternative = "less"%string
  \/ alternative = "greater"%string.

(** The "InvalidArgument" failure of the specification is Python's
    ValueError. *)
Definition InvalidArgument {A : Type} (r : outcome A) : Prop :=
  exists m, r = Raised (ValueError m).

(** Section 4.2 of the specification, in its words: the estimated
    proportions, the variance and the statistic at a sample-space point. *)
Definition spec_p1 (c1 x1 : Z) : xreal := xdiv (of_int x1) (of_int c1).
Definition spec_p2 (c2 x2 : Z) : xreal := xdiv (of_int x2) (of_int c2).

Definition spec_variance (pooled : bool) (c1 c2 x1 x2 : Z) : xreal :=
  let p1 := spec_p1 c1 x1 in
  let p2 := spec_p2 c2 x2 in
  if pooled then
    let p := xdiv (of_int (x1 + x2)) (of_int (c1 + c2)) in
    xmul (xmul p (xsub (Fin 1) p))
         (xadd (xdiv (Fin 1) (of_int c1)) (xdiv (Fin 1) (of_int c2)))
  else
    xadd (xdiv (xmul p1 (xsub (Fin 1) p1)) (of_int c1))
         (xdiv (xmul p2 (xsub (Fin 1) p2)) (of_int c2)).

Definition spec_statistic (pooled : bool) (c1 c2 x1 x2 : Z) : xreal :=
  if xeq (spec_p1 c1 x1) (spec_p2 c2 x2) then Fin 0
  else xdiv (xsub (spec_p1 c1 x1) (spec_p2 c2 x2))
            (xsqrt (spec_variance pooled c1 c2 x1 x2)).

(** Section 4.3 of the specification: membership of the rejection
    region. *)
Definition spec_rejects (alternative : string) (t t0 : xreal) : bool :=
  if (alternative =? "two-sided")%string then xge (xabs t) (xabs t0)
  else if (alternative =? "less")%string then xle t t0
  else xge t t0.

(** *** Pointwise forms of the arrays, used by the proofs *)

Local Open Scope Z_scope.

(** The rejection mask as a broadcast array. *)
Definition mask_of (alternative : string) (pooled : bool) (c1 c2 a b : Z) :
    list (list bool) :=
  outer (fun x1 x2 =>
           spec_rejects alternative (spec_statistic pooled c1 c2 x1 x2)
                        (spec_statistic pooled c1 c2 a b))
        (arange (c1 + 1)) (arange (c2 + 1)).

(** The k-th point of the evenly spaced grid over [a, b]. *)
Definition grid_point (a b : R) (i : Z) : R :=
  (a + IZR i * ((b - a) / 99))%R.

(** The neighbours of the maximising candidate. *)
Definition narrowed_inf (a b : R) (m : Z) : R :=
  if m >? 0 then grid_point a b (m - 1) else a.

Definition narrowed_sup (a b : R) (m : Z) : R :=
  if m <? 99 then grid_point a b (m + 1) else b.

(** Finite values, finite non-negative values, probabilities. *)
Definition finite (x : xreal) : Prop := exists r, x = Fin r.

Definition nonneg (x : xreal) : Prop := exists r, x = Fin r /\ (0 <= r)%R.

Definition positive (x : xreal) : Prop := exists r, x = Fin r /\ (0 < r)%R.

Definition probability (x : xreal) : Prop :=
  exists r, x = Fin r /\ (0 <= r <= 1)%R.

Definition fin_or_ninf (x : xreal) : Prop := finite x \/ x = NInf.

(** The double sum of [h] over a column and a row of indices. *)
Definition dsum {A B : Type} (h : A -> B -> xreal)
    (col : list A) (row : list B) : xreal :=
  xsum (map (fun a => xsum (map (h a) row)) col).

(** The alternative that corresponds to [alternative] when the two columns
    of the table are exchanged. *)
Definition swap_alternative (alternative : string) : string :=
  if (alternative =? "less")%string then "greater"%string
  else if (alternative =? "greater")%string then "less"%string
  else alternative.

(** The entry [k] of [_compute_log_combinations n]. *)
Definition log_comb_at (gammaln : Z -> R) (n k : Z) : xreal :=
  nth (Z.to_nat k) (_compute_log_combinations gammaln n) NaN.

(** The entry of [tmp_values_arr], before normalisation, at the point
    (x1, x2) for the candidate [nuisance]. *)
Definition tmp_value_at (gammaln : Z -> R) (c1 c2 : Z) (nuisance : xreal)
    (x1 x2 : Z) : xreal :=
  xexp
    (xadd
       (xadd (xadd (log_comb_at gammaln c1 x1) (log_comb_at gammaln c2 x2))
             (if x1 + x2 =? 0 then Fin 0
              else xmul (log_nuisance_arr nuisance) (of_int (x1 + x2))))
       (if x1 + x2 =? c1 + c2 then Fin 0
        else xmul (log_1_minus_nuisance_arr nuisance)
                  (of_int (c1 + c2 - x1 - x2)))).

End Hypotests.

(* ================================================================== *)
(** ** Somers' D and Kendall's tau-b (lines 396-490 and 497-666) *)

Module SomersD.

Import XReal NDArray.

(** A two-dimensional int64 array is the list of its rows, all of one
    length.  Its shape is (number of rows, length of a row); for an array
    without rows the second component plays no part in the code below. *)
Definition nrows (A : list (list Z)) : nat := length A.
Definition ncols (A : list (list Z)) : nat := length (hd [] A).

(** [A[i, j]] for indices inside the array. *)
Definition item (A : list (list Z)) (i j : nat) : Z :=
  nth j (nth i A []) 0%Z.

Definition int64_mul (a b : Z) : Z := Int64.wrap64 (a * b).

(** [a.sum()] of a one- and of a two-dimensional int64 array. *)
Definition sum1 (l : list Z) : Z := fold_left Int64.add l 0%Z.
Definition sum2 (A : list (list Z)) : Z := sum1 (concat A).

(** [A.sum(axis=1)] and [A.sum(axis=0)]. *)
Definition row_sums (A : list (list Z)) : list Z := map sum1 A.
Definition col_sums (A : list (list Z)) : list Z :=
  map (fun j => sum1 (map (fun r => nth j r 0%Z) A)) (seq 0 (ncols A)).

(** [(v**2).sum()] of an int64 vector. *)
Definition sum_of_squares (v : list Z) : Z :=
  sum1 (map (fun r => int64_mul r r) v).

(** Lines 396-399: [A[:i, :j].sum() + A[i+1:, j+1:].sum()]. *)
Definition _Aij (A : list (list Z)) (i j : nat) : Z :=
  Int64.add (sum2 (map (firstn j) (firstn i A)))
            (sum2 (map (skipn (S j)) (skipn (S i) A))).

(** Lines 402-405: [A[i+1:, :j].sum() + A[:i, j+1:].sum()]. *)
Definition _Dij (A : list (list Z)) (i j : nat) : Z :=
  Int64.add (sum2 (map (firstn j) (skipn (S i) A)))
            (sum2 (map (skipn (S j)) (firstn i A))).

(** The loop shared by lines 408-438:
    [count = 0; for i in range(m): for j in range(n): count += body]. *)
Definition count_loop (m n : nat) (body : nat -> nat -> Z) : Z :=
  fold_left
    (fun count i =>
       fold_left (fun count j => Int64.add count (body i j)) (seq 0 n) count)
    (seq 0 m) 0%Z.

(** Lines 408-416. *)
Definition _P (A : list (list Z)) : Z :=
  count_loop (nrows A) (ncols A)
    (fun i j => int64_mul (item A i j) (_Aij A i j)).

(** Lines 419-427. *)
Definition _Q (A : list (list Z)) : Z :=
  count_loop (nrows A) (ncols A)
    (fun i j => int64_mul (item A i j) (_Dij A i j)).

(** Lines 430-438. *)
Definition _a_ij_Aij_Dij2 (A : list (list Z)) : Z :=
  count_loop (nrows A) (ncols A)
    (fun i j =>
       let diff := Int64.sub (_Aij A i j) (_Dij A i j) in
       int64_mul (item A i j) (int64_mul diff diff)).

(** [x ** 0.5] of a float64. *)
Definition xpow_half (x : xreal) : xreal :=
  match x with
  | Fin a => if Rlt_dec a 0 then NaN else Fin (sqrt a)
  | PInf | NInf => PInf
  | NaN => NaN
  end.

Section WithNormSf.

(** [scipy.stats.norm.sf], the survival function of the standard normal
    distribution. *)
Variable norm_sf : xreal -> xreal.

(** Lines 441-465. *)
Definition _tau_b (A : list (list Z)) : xreal * xreal :=
  if (nrows A =? 1)%nat || (ncols A =? 1)%nat then (NaN, NaN)
  else
    let NA := sum2 A in
    let PA := _P A in
    let QA := _Q A in
    let Sri2 := sum_of_squares (row_sums A) in
    let Scj2 := sum_of_squares (col_sums A) in
    let denominator :=
      int64_mul (Int64.sub (int64_mul NA NA) Sri2)
                (Int64.sub (int64_mul NA NA) Scj2) in
    let tau :=
      xdiv (of_int (Int64.sub PA QA)) (xpow_half (of_int denominator)) in
    let numerator :=
      xmul (Fin 4)
        (xsub (of_int (_a_ij_Aij_Dij2 A))
              (xdiv (of_int (let diff := Int64.sub PA QA in
                             int64_mul diff diff))
                    (of_int NA))) in
    let s02_tau_b := xdiv numerator (of_int denominator) in
    if xeq s02_tau_b (Fin 0) then (tau, Fin 0)
    else
      let Z := xdiv tau (xpow_half s02_tau_b) in
      (tau, xmul (Fin 2) (norm_sf (xabs Z))).

(** Lines 468-490. *)
Definition _somers_d (A : list (list Z)) : xreal * xreal :=
  if (nrows A <=? 1)%nat || (ncols A <=? 1)%nat then (NaN, NaN)
  else
    let NA := sum2 A in
    let NA2 := int64_mul NA NA in
    let PA := _P A in
    let QA := _Q A in
    let Sri2 := sum_of_squares (row_sums A) in
    let d := xdiv (of_int (Int64.sub PA QA)) (of_int (Int64.sub NA2 Sri2)) in
    let S :=
      xsub (of_int (_a_ij_Aij_Dij2 A))
           (xdiv (of_int (let diff := Int64.sub PA QA in
                          int64_mul diff diff))
                 (of_int NA)) in
    if xeq S (Fin 0) then (d, Fin 0)
    else
      let Z := xdiv (of_int (Int64.sub PA QA))
                    (xpow_half (xmul (Fin 4) S)) in
      (d, xmul (Fin 2) (norm_sf (xabs Z))).

(** The arguments of [somersd] after [np.array]: two one-dimensional
    arrays of rankings, a two-dimensional int64 array, or an array of
    another number of dimensions. *)
Inductive somersd_arg : Type :=
| Rankings (x y : list Z)
| Table (x : list (list Z))
| OtherDim (ndim : nat).

Inductive somersd_error : Type :=
| RankingsOfDifferentLength
| TableNegativeElement
| TableFewerThanTwoNonzero
| NeitherOneNorTwoDimensional.

Record SomersDResult : Type :=
  { statistic : xreal; pvalue : xreal; table : list (list Z) }.

(** [scipy.stats.contingency.crosstab(x, y)[1]]. *)
Variable crosstab : list Z -> list Z -> list (list Z).

(** Lines 646-666.  On an int64 array the test
    [np.any(x != x.astype(int))] is never true. *)
Definition somersd (arg : somersd_arg) : somersd_error + SomersDResult :=
  let finish (table : list (list Z)) :=
    let '(d, p) := _somers_d table in
    inr {| statistic := d; pvalue := p; table := table |} in
  match arg with
  | Rankings x y =>
      if negb (length x =? length y)%nat
      then inl RankingsOfDifferentLength
      else finish (crosstab x y)
  | Table x =>
      if existsb (existsb (fun v => (v <? 0)%Z)) x
      then inl TableNegativeElement
      else if (length (filter (fun v => negb (v =? 0)%Z) (concat x)) <? 2)%nat
      then inl TableFewerThanTwoNonzero
      else finish x
  | OtherDim _ => inl NeitherOneNorTwoDimensional
  end.

End WithNormSf.

(** *** The same sums over the integers, without wrap-around *)

Definition Zsum (l : list Z) : Z := fold_right Z.add 0%Z l.

Definition total (A : list (list Z)) : Z := Zsum (map Zsum A).

Definition Aij_Z (A : list (list Z)) (i j : nat) : Z :=
  (total (map (firstn j) (firstn i A))
   + total (map (skipn (S j)) (skipn (S i) A)))%Z.

Definition Dij_Z (A : list (list Z)) (i j : nat) : Z :=
  (total (map (firstn j) (skipn (S i) A))
   + total (map (skipn (S j)) (firstn i A)))%Z.

Definition dsumZ (m n : nat) (f : nat -> nat -> Z) : Z :=
  Zsum (map (fun i => Zsum (map (f i) (seq 0 n))) (seq 0 m)).

Definition P_Z (A : list (list Z)) : Z :=
  dsumZ (nrows A) (ncols A) (fun i j => (item A i j * Aij_Z A i j)%Z).

Definition Q_Z (A : list (list Z)) : Z :=
  dsumZ (nrows A) (ncols A) (fun i j => (item A i j * Dij_Z A i j)%Z).

Definition Sri2_Z (A : list (list Z)) : Z :=
  Zsum (map (fun r => (Zsum r * Zsum r)%Z) A).

Definition col_Z (A : list (list Z)) (j : nat) : Z :=
  Zsum (map (fun r => nth j r 0%Z) A).

Definition Scj2_Z (A : list (list Z)) : Z :=
  Zsum (map (fun j => (col_Z A j * col_Z A j)%Z) (seq 0 (ncols A))).

Definition V_Z (A : list (list Z)) : Z :=
  dsumZ (nrows A) (ncols A)
    (fun i j =>
       (item A i j
        * ((Aij_Z A i j - Dij_Z A i j) * (Aij_Z A i j - Dij_Z A i j)))%Z).

(** A table of [m] rows of [n] non-negative counts. *)
Definition count_table (m n : nat) (A : list (list Z)) : Prop :=
  length A = m
  /\ Forall (fun r => length r = n /\ Forall (fun v => (0 <= v)%Z) r) A.

End SomersD.

(* ================================================================== *)
(** ** The Cramer-von Mises test (lines 233-377) *)

Module CramerVonMises.

Import XReal NDArray.

Local Open Scope Z_scope.

(** [np.asarray(rvs)] for a sample of floats: the shape of the array and
    its elements in row-major order. *)
Record ndarray : Type := { shape : list nat; data : list xreal }.

Definition size (a : ndarray) : nat := fold_right Nat.mul 1%nat (shape a).
Definition ndim (a : ndarray) : nat := length (shape a).

(** The exceptions of [cramervonmises]: the two ValueErrors of its own, the
    AxisError of [np.sort] on a zero-dimensional array, the ValueError of
    numpy for operands that cannot be broadcast together, and the
    ZeroDivisionError of Python. *)
Inductive error : Type :=
| AxisError
| TooFewObservations
| NotOneDimensional
| BroadcastError
| ZeroDivisionError.

(** [np.sort] of a one-dimensional float array: ascending, not-a-number
    last. *)
Definition sort_le (x y : xreal) : bool :=
  match y with
  | NaN => true
  | _ => xle x y
  end.

Fixpoint insert (x : xreal) (l : list xreal) : list xreal :=
  match l with
  | [] => [x]
  | y :: l' => if sort_le x y then x :: l else y :: insert x l'
  end.

Definition np_sort (l : list xreal) : list xreal := fold_right insert [] l.

(** [np.arange(start, stop)]. *)
Definition arange_from (start stop : Z) : list Z :=
  map (fun i => start + i) (arange (stop - start)).

(** [u - c] for two one-dimensional float arrays, with the broadcasting of
    an array of length one. *)
Definition broadcast_sub (u c : list xreal) : error + list xreal :=
  if (length c =? length u)%nat then inr (zip xsub u c)
  else if (length c =? 1)%nat then inr (map (fun x => xsub x (hd NaN c)) u)
  else if (length u =? 1)%nat then inr (map (fun y => xsub (hd NaN u) y) c)
  else inl BroadcastError.

Record CramerVonMisesResult : Type :=
  { statistic : xreal; pvalue : xreal }.

Section WithSeries.

(** The two series of lines 147-230, [_cdf_cvm_inf] and [_psi1_mod], at one
    point: sums of Bessel-function terms that are added until a term is
    small.  They are parameters of the development; nothing is assumed
    about the values they return. *)
Variables _cdf_cvm_inf _psi1_mod : xreal -> xreal.

(** Lines 233-259 at a zero-dimensional [x].  A zero-dimensional mask that
    is false selects nothing: the series are then applied to an empty
    array, their loops do not run and no entry is assigned. *)
Definition _cdf_cvm (x : xreal) (n : option Z) : error + xreal :=
  match n with
  | None => inr (_cdf_cvm_inf x)
  | Some n =>
      if n =? 0 then inl ZeroDivisionError
      else
        let sup :=
          xlt (Fin (1 / IZR (12 * n))) x && xlt x (Fin (IZR n / 3)) in
        let y :=
          if sup
          then xadd (xmul (_cdf_cvm_inf x) (Fin (1 + 1 / IZR (12 * n))))
                    (xdiv (_psi1_mod x) (of_int n))
          else Fin 0 in
        inr (if xge x (Fin (IZR n / 3)) then Fin 1 else y)
  end.

(** The callable [cdf] with the distribution parameters [args] applied, on a
    one-dimensional array. *)
Variable cdf : list xreal -> list xreal.

(** Lines 358-377, for a callable [cdf].  [max(0, v)] of Python returns [v]
    when [v > 0] holds and [0] otherwise. *)
Definition cramervonmises (rvs : ndarray) : error + CramerVonMisesResult :=
  match shape rvs with
  | [] => inl AxisError
  | len :: _ =>
      if (size rvs <=? 1)%nat then inl TooFewObservations
      else if (1 <? ndim rvs)%nat then inl NotOneDimensional
      else
        let vals := np_sort (data rvs) in
        let n := Z.of_nat len in
        let cdfvals := cdf vals in
        let u :=
          map (fun k =>
                 xdiv (of_int (Int64.sub (SomersD.int64_mul 2 k) 1))
                      (of_int (2 * n)))
              (arange_from 1 (n + 1)) in
        match broadcast_sub u cdfvals with
        | inl e => inl e
        | inr d =>
            let w :=
              xadd (Fin (1 / IZR (12 * n)))
                   (xsum (map (fun x => xmul x x) d)) in
            match _cdf_cvm w (Some n) with
            | inl e => inl e
            | inr y =>
                let v := xsub (Fin 1) y in
                inr {| statistic := w;
                       pvalue := if xgt v (Fin 0) then v else Fin 0 |}
            end
        end
  end.

End WithSeries.

End CramerVonMises.

(* ================================================================== *)
(** ** Facts about arrays *)

Module NDArrayFacts.

Import NDArray.

Section Lists.

Context {A B C D : Type}.

Lemma zip_map_same (f : B -> C -> D) (g : A -> B) (h : A -> C)
    (l : list A) :
  zip f (map g l) (map h l) = map (fun x => f (g x) (h x)) l.
Proof.
  induction l as [|x l IH]; simpl; [reflexivity|].
  now rewrite IH.
Qed.

Lemma zip_length (f : A -> B -> C) (l1 : list A) (l2 : list B) :
  length (zip f l1 l2) = Nat.min (length l1) (length l2).
Proof.
  revert l2; induction l1 as [|a l1 IH]; intros [|b l2]; simpl; auto.
Qed.

End Lists.

Lemma arange_length (n : Z) : length (arange n) = Z.to_nat n.
Proof. unfold arange. now rewrite length_map, length_seq. Qed.

Lemma arange_nth_error (n : Z) (i : nat) :
  (i < Z.to_nat n)%nat -> nth_error (arange n) i = Some (Z.of_nat i).
Proof.
  intros Hi. unfold arange.
  rewrite nth_error_map, nth_error_seq.
  destruct (Nat.ltb_spec i (Z.to_nat n)); [reflexivity | lia].
Qed.

Lemma arange_In (n x : Z) : In x (arange n) <-> (0 <= x < n)%Z.
Proof.
  unfold arange. rewrite in_map_iff. split.
  - intros (i & <- & Hi). apply in_seq in Hi. lia.
  - intros H. exists (Z.to_nat x). split; [lia|]. apply in_seq. lia.
Qed.

Lemma py_index_nonneg {A : Type} (l : list A) (i : Z) :
  (0 <= i < Z.of_nat (length l))%Z ->
  py_index l i = nth_error l (Z.to_nat i).
Proof.
  intros H. unfold py_index.
  destruct (Z.leb_spec 0 i); [|lia].
  destruct (Z.ltb_spec i (Z.of_nat (length l))); [reflexivity | lia].
Qed.

Section Outer.

Context {A B C D E : Type}.

Lemma map2d_outer (f : C -> D) (g : A -> B -> C)
    (col : list A) (row : list B) :
  map2d f (outer g col row) = outer (fun a b => f (g a b)) col row.
Proof.
  unfold map2d, outer. rewrite map_map.
  apply map_ext; intros a. now rewrite map_map.
Qed.

Lemma outer_map (f : C -> D -> E) (g : A -> C) (h : B -> D)
    (col : list A) (row : list B) :
  outer f (map g col) (map h row) = outer (fun a b => f (g a) (h b)) col row.
Proof.
  unfold outer. rewrite map_map.
  apply map_ext; intros a. now rewrite map_map.
Qed.

Lemma zip2_outer (f : C -> D -> E) (g : A -> B -> C) (h : A -> B -> D)
    (col : list A) (row : list B) :
  zip2 f (outer g col row) (outer h col row)
  = outer (fun a b => f (g a b) (h a b)) col row.
Proof.
  unfold zip2, outer. rewrite zip_map_same.
  apply map_ext; intros a. apply zip_map_same.
Qed.

Lemma outer_ext (f g : A -> B -> C) (col : list A) (row : list B) :
  (forall a b, In a col -> In b row -> f a b = g a b) ->
  outer f col row = outer g col row.
Proof.
  intros H. unfold outer. apply map_ext_in; intros a Ha.
  apply map_ext_in; intros b Hb. now apply H.
Qed.

Lemma outer_nth_error (f : A -> B -> C) (col : list A) (row : list B)
    (i j : nat) (a : A) (b : B) :
  nth_error col i = Some a -> nth_error row j = Some b ->
  exists r, nth_error (outer f col row) i = Some r
            /\ nth_error r j = Some (f a b).
Proof.
  intros Ha Hb. exists (map (f a) row). unfold outer.
  rewrite !nth_error_map, Ha, Hb. now split.
Qed.

Lemma outer_has_shape (f : A -> B -> C) (col : list A) (row : list B) :
  has_shape (length col) (length row) (outer f col row) = true.
Proof.
  unfold has_shape, outer. rewrite length_map, Nat.eqb_refl. simpl.
  apply forallb_forall. intros r Hr. apply in_map_iff in Hr.
  destruct Hr as (a & <- & _). rewrite length_map. apply Nat.eqb_refl.
Qed.

End Outer.

Lemma set_where_outer {A B C : Type} (m : A -> B -> bool) (v : C)
    (g : A -> B -> C) (col : list A) (row : list B) :
  set_where (outer m col row) v (outer g col row)
  = outer (fun a b => if m a b then v else g a b) col row.
Proof. unfold set_where. apply zip2_outer. Qed.

(** Indexing a broadcast array at a point of the sample space. *)
Lemma py_index2_outer_arange {C : Type} (f : Z -> Z -> C) (n m i j : Z) :
  (0 <= i < n)%Z -> (0 <= j < m)%Z ->
  py_index2 (outer f (arange n) (arange m)) i j = Some (f i j).
Proof.
  intros Hi Hj. unfold py_index2.
  destruct (@outer_nth_error Z Z C f (arange n) (arange m)
              (Z.to_nat i) (Z.to_nat j) i j) as (r & Hr & Hrj).
  - rewrite arange_nth_error by lia. f_equal. lia.
  - rewrite arange_nth_error by lia. f_equal. lia.
  - rewrite py_index_nonneg.
    2:{ unfold outer. rewrite length_map, arange_length. lia. }
    rewrite Hr. rewrite py_index_nonneg; [exact Hrj|].
    assert (Hlen : length r = Z.to_nat m).
    { unfold outer in Hr. rewrite nth_error_map in Hr.
      destruct (nth_error (arange n) (Z.to_nat i)); [|discriminate].
      inversion Hr. now rewrite length_map, arange_length. }
    lia.
Qed.

End NDArrayFacts.

(* ================================================================== *)
(** ** Facts about int64 arithmetic *)

Module Int64Facts.

Import Int64.

Lemma wrap64_small (z : Z) : (- 2 ^ 63 <= z < 2 ^ 63)%Z -> wrap64 z = z.
Proof.
  intros H. unfold wrap64. rewrite Z.mod_small; lia.
Qed.

Lemma add_small (a b : Z) :
  (- 2 ^ 63 <= a + b < 2 ^ 63)%Z -> add a b = (a + b)%Z.
Proof. apply wrap64_small. Qed.

Lemma sub_small (a b : Z) :
  (- 2 ^ 63 <= a - b < 2 ^ 63)%Z -> sub a b = (a - b)%Z.
Proof. apply wrap64_small. Qed.

Lemma in_rangeb_true (z : Z) : Int64.in_range z -> Int64.in_rangeb z = true.
Proof.
  unfold Int64.in_range, Int64.in_rangeb. intros H.
  destruct (Z.leb_spec (- 2 ^ 63) z); [|lia].
  destruct (Z.ltb_spec z (2 ^ 63)); [reflexivity | lia].
Qed.

Lemma in_rangeb_table (table : list (list Z)) :
  Forall (Forall Int64.in_range) table ->
  forallb (forallb Int64.in_rangeb) table = true.
Proof.
  intros H. apply forallb_forall. intros r Hr.
  apply forallb_forall. intros z Hz. apply in_rangeb_true.
  rewrite Forall_forall in H. specialize (H r Hr).
  rewrite Forall_forall in H. now apply H.
Qed.

End Int64Facts.

(* ================================================================== *)
(** ** Validation and the degenerate table *)

Module Validation.

Import XReal NDArray Hypotests Int64Facts.

Section WithGammaln.

Variable gammaln : Z -> R.

(** What a call does once [n_iter] and a 2x2 table of non-negative int64
    entries have passed validation (line 853 onwards). *)
Lemma barnard_exact_validated (a b c d : Z) (alternative : string)
    (pooled : bool) (n_iter : Z) :
  (0 < n_iter)%Z ->
  (0 <= a < 2 ^ 63)%Z -> (0 <= b < 2 ^ 63)%Z ->
  (0 <= c < 2 ^ 63)%Z -> (0 <= d < 2 ^ 63)%Z ->
  barnard_exact gammaln [[a; b]; [c; d]] alternative pooled n_iter
  = if ((0 =? Int64.add a c) || ((0 =? Int64.add b d) || false))%Z
    then ([], Returned {| statistic := NaN; pvalue := Fin 1 |})
    else
      let wald_statistic :=
        wald_statistic_field pooled (Int64.add a c) (Int64.add b d) in
      match py_index2 wald_statistic a b with
      | None => ([WaldStatisticField], Raised IndexError)
      | Some wald_stat_obs =>
          match rejection_region alternative wald_statistic
                  wald_stat_obs with
          | Raised e => ([WaldStatisticField; RejectionRegion], Raised e)
          | Returned index_arr =>
              ([WaldStatisticField; RejectionRegion; NuisanceMaximizer],
               p_value <-
                 _binomial_maximisation_of_p_value_with_nuisance_param
                   gammaln (Int64.add a c) (Int64.add b d) index_arr n_iter ;;
               Returned {| statistic := wald_stat_obs; pvalue := p_value |})
          end
      end.
Proof.
  intros Hn Ha Hb Hc Hd. unfold barnard_exact.
  destruct (Z.leb_spec n_iter 0); [lia|].
  cbn [asarray forallb length Nat.eqb andb].
  rewrite !in_rangeb_true by (unfold Int64.in_range; lia).
  cbn [andb existsb orb].
  destruct (Z.ltb_spec a 0); [lia|].
  destruct (Z.ltb_spec b 0); [lia|].
  destruct (Z.ltb_spec c 0); [lia|].
  destruct (Z.ltb_spec d 0); [lia|].
  reflexivity.
Qed.

(** A call with [n_iter > 0] on a table of int64 values either fails
    validation with a ValueError, having entered no component, or its table
    is 2x2 with non-negative entries. *)
Lemma validation_cases (table : list (list Z)) (alternative : string)
    (pooled : bool) (n_iter : Z) :
  (0 < n_iter)%Z -> Forall (Forall Int64.in_range) table ->
  (exists m, (m = TableShape \/ m = InhomogeneousShape
              \/ (m = TableNegative /\ has_shape 2 2 table = true))
             /\ barnard_exact gammaln table alternative pooled n_iter
                = ([], Raised (ValueError m)))
  \/ (exists a b c d, table = [[a; b]; [c; d]]
        /\ (0 <= a)%Z /\ (0 <= b)%Z /\ (0 <= c)%Z /\ (0 <= d)%Z).
Proof.
  intros Hn Hr. unfold barnard_exact.
  destruct (Z.leb_spec n_iter 0); [lia|].
  unfold asarray. rewrite (in_rangeb_table Hr).
  destruct table as [|r rs]; [left; eauto|].
  destruct (forallb _ rs) eqn:Hrect; [|left; eauto 6].
  destruct r as [|a [|b [|x r]]]; try (left; eauto; fail);
  destruct rs as [|[|c [|d [|y r']]] [|r'' rs]]; try (left; eauto; fail).
  destruct (existsb _ _) eqn:Hneg; [left; eauto 7|].
  right. exists a, b, c, d. cbn in Hneg.
  destruct (Z.ltb_spec a 0), (Z.ltb_spec b 0), (Z.ltb_spec c 0),
    (Z.ltb_spec d 0); cbn in Hneg; try discriminate.
  repeat split; auto.
Qed.

(** The return of lines 853-856. *)
Lemma zero_sum_column_return (a b c d : Z) (alternative : string)
    (pooled : bool) (n_iter : Z) :
  (0 < n_iter)%Z ->
  (0 <= a < 2 ^ 63)%Z -> (0 <= b < 2 ^ 63)%Z ->
  (0 <= c < 2 ^ 63)%Z -> (0 <= d < 2 ^ 63)%Z ->
  (a + c = 0 \/ b + d = 0)%Z ->
  barnard_exact gammaln [[a; b]; [c; d]] alternative pooled n_iter
  = ([], Returned {| statistic := NaN; pvalue := Fin 1 |}).
Proof.
  intros Hn Ha Hb Hc Hd Hz.
  rewrite barnard_exact_validated by assumption.
  destruct Hz as [Hz|Hz].
  - unfold Int64.add at 1. rewrite Hz. reflexivity.
  - unfold Int64.add at 2. rewrite Hz. cbn. now rewrite orb_true_r.
Qed.

(** C3: for every 2x2 table of non-negative int64 values in which at least
    one column sums to 0, for every alternative (recognised or not), every
    [pooled] and every [n_iter > 0], [barnard_exact] returns the statistic
    not-a-number and the p-value 1.0, and has entered none of the
    statistic-field, rejection-region and nuisance-maximisation
    components.  (An entry that does not fit an int64 is the OverflowError
    of line 845.) *)
Theorem C3_zero_sum_column (a b c d : Z) (alternative : string)
    (pooled : bool) (n_iter : Z) :
  (0 <= a < 2 ^ 63)%Z -> (0 <= b < 2 ^ 63)%Z ->
  (0 <= c < 2 ^ 63)%Z -> (0 <= d < 2 ^ 63)%Z ->
  (a + c = 0 \/ b + d = 0)%Z ->
  (0 < n_iter)%Z ->
  barnard_exact gammaln [[a; b]; [c; d]] alternative pooled n_iter
  = ([], Returned {| statistic := NaN; pvalue := Fin 1 |}).
Proof.
  intros Ha Hb Hc Hd Hz Hn. now apply zero_sum_column_return.
Qed.

(** C7: a call with [n_iter <= 0], or with a table of int64 values whose
    shape is not (2,2) or that has a negative entry, fails with a
    ValueError (the InvalidArgument of the specification), returns no
    result and has entered none of the statistic-field, rejection-region
    and nuisance-maximisation components. *)
Theorem C7_invalid_arguments (table : list (list Z)) (alternative : string)
    (pooled : bool) (n_iter : Z) :
  (n_iter <= 0)%Z
  \/ (Forall (Forall Int64.in_range) table
      /\ (has_shape 2 2 table = false
          \/ Exists (Exists (fun v => (v < 0)%Z)) table)) ->
  fst (barnard_exact gammaln table alternative pooled n_iter) = []
  /\ InvalidArgument
       (snd (barnard_exact gammaln table alternative pooled n_iter)).
Proof.
  intros H.
  destruct (Z.leb_spec n_iter 0) as [Hn|Hn].
  - unfold barnard_exact. destruct (Z.leb_spec n_iter 0); [|lia].
    split; [reflexivity|]. now exists NIterNotPositive.
  - destruct H as [H|(Hr & H)]; [lia|].
    destruct (@validation_cases table alternative pooled n_iter Hn Hr)
      as [(m & _ & ->)|(a & b & c & d & -> & Ha & Hb & Hc & Hd)].
    + split; [reflexivity|]. now exists m.
    + exfalso. destruct H as [H|H]; [discriminate|].
      repeat match goal with
             | H : Exists _ (_ :: _) |- _ => inversion H; subst; clear H
             | H : Exists _ [] |- _ => inversion H
             end; lia.
Qed.

(** C10: validation is ordered.  [n_iter] is checked first (a call with
    [n_iter <= 0] raises the [n_iter] ValueError whatever the table, also a
    degenerate one, also one with an entry that does not fit an int64);
    then the table is converted (with [n_iter > 0], a 2x2 table with an
    entry outside the int64 range raises OverflowError, also when it has
    a negative entry or a zero-sum column); then the shape (a table of
    int64 values that is not 2x2 raises a shape ValueError whatever its
    entries); then non-negativity (a 2x2 table of int64 values with a
    negative entry raises the non-negativity ValueError, also when a column
    sums to 0); and the zero-sum-column return comes before the alternative
    is examined: with [n_iter > 0] a table of non-negative int64 values
    with a zero-sum column returns (NaN, 1.0) for every string
    [alternative], recognised or not. *)
Theorem C10_validation_order :
  (forall table alternative pooled n_iter,
      (n_iter <= 0)%Z ->
      barnard_exact gammaln table alternative pooled n_iter
      = ([], Raised (ValueError NIterNotPositive)))
  /\ (forall a b c d alternative pooled n_iter,
         (0 < n_iter)%Z ->
         ~ (Int64.in_range a /\ Int64.in_range b
            /\ Int64.in_range c /\ Int64.in_range d) ->
         barnard_exact gammaln [[a; b]; [c; d]] alternative pooled n_iter
         = ([], Raised OverflowError))
  /\ (forall table alternative pooled n_iter,
         (0 < n_iter)%Z -> Forall (Forall Int64.in_range) table ->
         has_shape 2 2 table = false ->
         exists m, (m = TableShape \/ m = InhomogeneousShape)
                   /\ barnard_exact gammaln table alternative pooled n_iter
                      = ([], Raised (ValueError m)))
  /\ (forall a b c d alternative pooled n_iter,
         (0 < n_iter)%Z ->
         Int64.in_range a -> Int64.in_range b ->
         Int64.in_range c -> Int64.in_range d ->
         (a < 0 \/ b < 0 \/ c < 0 \/ d < 0)%Z ->
         barnard_exact gammaln [[a; b]; [c; d]] alternative pooled n_iter
         = ([], Raised (ValueError TableNegative)))
  /\ (forall a b c d alternative pooled n_iter,
         (0 < n_iter)%Z ->
         (0 <= a < 2 ^ 63)%Z -> (0 <= b < 2 ^ 63)%Z ->
         (0 <= c < 2 ^ 63)%Z -> (0 <= d < 2 ^ 63)%Z ->
         (a + c = 0 \/ b + d = 0)%Z ->
         barnard_exact gammaln [[a; b]; [c; d]] alternative pooled n_iter
         = ([], Returned {| statistic := NaN; pvalue := Fin 1 |})).
Proof.
  repeat split.
  - intros table alternative pooled n_iter Hn. unfold barnard_exact.
    destruct (Z.leb_spec n_iter 0); [reflexivity | lia].
  - intros a b c d alternative pooled n_iter Hn Hout. unfold barnard_exact.
    destruct (Z.leb_spec n_iter 0); [lia|].
    cbn [asarray forallb length Nat.eqb andb].
    assert (E : (Int64.in_rangeb a && Int64.in_rangeb b
                 && (Int64.in_rangeb c && Int64.in_rangeb d))%bool = false).
    { destruct (Int64.in_rangeb a) eqn:Ea, (Int64.in_rangeb b) eqn:Eb,
        (Int64.in_rangeb c) eqn:Ec, (Int64.in_rangeb d) eqn:Ed;
        try reflexivity.
      exfalso. apply Hout. unfold Int64.in_range, Int64.in_rangeb in *.
      repeat match goal with
             | H : (_ && _)%bool = true |- _ =>
                 apply andb_true_iff in H; destruct H
             end. lia. }
    rewrite !andb_true_r. now rewrite E.
  - intros table alternative pooled n_iter Hn Hr Hshape.
    destruct (@validation_cases table alternative pooled n_iter Hn Hr)
      as [(m & [Hm|[Hm|[_ Hm]]] & E)|(a & b & c & d & -> & _)].
    + exists m; auto.
    + exists m; auto.
    + congruence.
    + discriminate.
  - intros a b c d alternative pooled n_iter Hn Ra Rb Rc Rd Hneg.
    unfold barnard_exact.
    destruct (Z.leb_spec n_iter 0); [lia|].
    cbn [asarray forallb length Nat.eqb andb].
    rewrite !in_rangeb_true by assumption. cbn [andb].
    assert (E : existsb (existsb (fun v => (v <? 0)%Z)) [[a; b]; [c; d]]
                = true).
    { cbn. destruct (Z.ltb_spec a 0), (Z.ltb_spec b 0), (Z.ltb_spec c 0),
        (Z.ltb_spec d 0); cbn; auto; lia. }
    now rewrite E.
  - intros a b c d alternative pooled n_iter Hn Ha Hb Hc Hd Hz.
    now apply zero_sum_column_return.
Qed.

End WithGammaln.

End Validation.

(* ================================================================== *)
(** ** Facts about the exact arithmetic *)

Module XRealFacts.

Import XReal.

Local Open Scope R_scope.

Lemma Rleb_true (x y : R) : Rleb x y = true <-> x <= y.
Proof.
  unfold Rleb. destruct (Rle_dec x y); split; intros; auto; discriminate.
Qed.

Lemma Rleb_false (x y : R) : Rleb x y = false <-> y < x.
Proof.
  unfold Rleb.
  destruct (Rle_dec x y); split; intros; auto; try discriminate; lra.
Qed.

Lemma Rltb_true (x y : R) : Rltb x y = true <-> x < y.
Proof.
  unfold Rltb. destruct (Rlt_dec x y); split; intros; auto; discriminate.
Qed.

Lemma Rltb_false (x y : R) : Rltb x y = false <-> y <= x.
Proof.
  unfold Rltb.
  destruct (Rlt_dec x y); split; intros; auto; try discriminate; lra.
Qed.

Lemma Reqb_true (x y : R) : Reqb x y = true <-> x = y.
Proof.
  unfold Reqb. destruct (Req_dec_T x y); split; intros; auto; discriminate.
Qed.

Lemma Reqb_false (x y : R) : Reqb x y = false <-> x <> y.
Proof.
  unfold Reqb. destruct (Req_dec_T x y); split; intros; auto; try discriminate.
  contradiction.
Qed.

Lemma xadd_comm (x y : xreal) : xadd x y = xadd y x.
Proof. destruct x, y; simpl; auto. f_equal; ring. Qed.

Lemma xadd_assoc (x y z : xreal) : xadd x (xadd y z) = xadd (xadd x y) z.
Proof. destruct x, y, z; simpl; auto. f_equal; ring. Qed.

Lemma xadd_0_l (x : xreal) : xadd (Fin 0) x = x.
Proof. destruct x; simpl; auto. f_equal; ring. Qed.

Lemma xadd_0_r (x : xreal) : xadd x (Fin 0) = x.
Proof. rewrite xadd_comm. apply xadd_0_l. Qed.

Lemma xsum_app (l1 l2 : list xreal) :
  xsum (l1 ++ l2) = xadd (xsum l1) (xsum l2).
Proof.
  unfold xsum. induction l1 as [|x l1 IH]; cbn [app fold_right].
  - now rewrite xadd_0_l.
  - now rewrite IH, xadd_assoc.
Qed.

Lemma xdiv_of_int (x c : Z) :
  c <> 0%Z -> xdiv (of_int x) (of_int c) = Fin (IZR x / IZR c).
Proof.
  intros Hc. unfold of_int, xdiv.
  destruct (Req_dec_T (IZR c) 0) as [E|E]; [|reflexivity].
  apply eq_IZR in E. contradiction.
Qed.

Lemma xdiv_one_of_int (c : Z) :
  c <> 0%Z -> xdiv (Fin 1) (of_int c) = Fin (1 / IZR c).
Proof. intros Hc. exact (xdiv_of_int 1 Hc). Qed.

Lemma ratio_bounds (x c : R) : 0 < c -> 0 <= x <= c -> 0 <= x / c <= 1.
Proof.
  intros Hc [H0 H1]. split.
  - apply Rmult_le_pos; [lra|]. left. now apply Rinv_0_lt_compat.
  - apply Rmult_le_reg_r with c; [lra|].
    unfold Rdiv. rewrite Rmult_assoc, Rinv_l by lra. lra.
Qed.

Lemma inv_pos (c : R) : 0 < c -> 0 < 1 / c.
Proof.
  intros Hc. unfold Rdiv. rewrite Rmult_1_l. now apply Rinv_0_lt_compat.
Qed.

End XRealFacts.

(* ================================================================== *)
(** ** The field of Wald statistics *)

Module StatisticField.

Import XReal NDArray Hypotests NDArrayFacts Int64Facts XRealFacts.

Local Open Scope Z_scope.

(** The array of lines 858-877 is the specification's statistic, point by
    point over the sample space. *)
Lemma wald_statistic_field_outer (pooled : bool) (c1 c2 : Z) :
  0 < c1 -> 0 < c2 -> c1 + c2 < 2 ^ 63 ->
  wald_statistic_field pooled c1 c2
  = outer (spec_statistic pooled c1 c2) (arange (c1 + 1)) (arange (c2 + 1)).
Proof.
  intros H1 H2 Hsum. unfold wald_statistic_field.
  rewrite !(add_small c1 1), !(add_small c2 1), !(add_small c1 c2) by lia.
  destruct pooled.
  - rewrite !map2d_outer, !outer_map, zip2_outer, set_where_outer.
    apply outer_ext. intros x1 x2 Hx1 Hx2.
    apply arange_In in Hx1. apply arange_In in Hx2.
    rewrite add_small by lia. reflexivity.
  - rewrite !outer_map, map2d_outer, zip2_outer, set_where_outer.
    reflexivity.
Qed.

Section Points.

Variables (pooled : bool) (c1 c2 x1 x2 : Z).
Hypotheses (Hc1 : 0 < c1) (Hc2 : 0 < c2).
Hypotheses (Hx1 : 0 <= x1 <= c1) (Hx2 : 0 <= x2 <= c2).

Lemma spec_p1_fin : spec_p1 c1 x1 = Fin (IZR x1 / IZR c1).
Proof. apply xdiv_of_int. lia. Qed.

Lemma spec_p2_fin : spec_p2 c2 x2 = Fin (IZR x2 / IZR c2).
Proof. apply xdiv_of_int. lia. Qed.

Lemma IZR_pos_c1 : (0 < IZR c1)%R.
Proof. now apply IZR_lt. Qed.

Lemma IZR_pos_c2 : (0 < IZR c2)%R.
Proof. now apply IZR_lt. Qed.

Lemma p1_bounds : (0 <= IZR x1 / IZR c1 <= 1)%R.
Proof.
  apply ratio_bounds; [apply IZR_pos_c1|].
  split; apply IZR_le; lia.
Qed.

Lemma p2_bounds : (0 <= IZR x2 / IZR c2 <= 1)%R.
Proof.
  apply ratio_bounds; [apply IZR_pos_c2|].
  split; apply IZR_le; lia.
Qed.

(** The variance is a finite, non-negative number. *)
Lemma spec_variance_nonneg :
  exists v, spec_variance pooled c1 c2 x1 x2 = Fin v /\ (0 <= v)%R.
Proof.
  unfold spec_variance. rewrite spec_p1_fin, spec_p2_fin.
  pose proof IZR_pos_c1 as P1. pose proof IZR_pos_c2 as P2.
  pose proof p1_bounds as B1. pose proof p2_bounds as B2.
  destruct pooled.
  - rewrite xdiv_of_int, !xdiv_one_of_int by lia. cbn [xsub xneg xadd xmul].
    eexists; split; [reflexivity|].
    assert (Bp : (0 <= IZR (x1 + x2) / IZR (c1 + c2) <= 1)%R).
    { apply ratio_bounds; [apply IZR_lt; lia|].
      split; apply IZR_le; lia. }
    pose proof (inv_pos P1). pose proof (inv_pos P2).
    apply Rmult_le_pos; [apply Rmult_le_pos|]; lra.
  - unfold of_int. cbn [xsub xneg xadd xmul xdiv].
    destruct (Req_dec_T (IZR c1) 0); [lra|].
    destruct (Req_dec_T (IZR c2) 0); [lra|].
    cbn [xadd]. eexists; split; [reflexivity|].
    pose proof (inv_pos P1). pose proof (inv_pos P2).
    apply Rplus_le_le_0_compat; unfold Rdiv at 1;
      (apply Rmult_le_pos; [apply Rmult_le_pos|]; lra).
Qed.

(** The statistic is never not-a-number. *)
Lemma spec_statistic_not_nan :
  is_nan (spec_statistic pooled c1 c2 x1 x2) = false.
Proof.
  unfold spec_statistic.
  destruct spec_variance_nonneg as (v & -> & Hv).
  rewrite spec_p1_fin, spec_p2_fin. cbn [xeq xsub xneg xadd xsqrt].
  destruct (Reqb _ _) eqn:E; [reflexivity|].
  apply Reqb_false in E.
  destruct (Rlt_dec v 0); [lra|]. cbn [xdiv].
  destruct (Req_dec_T (sqrt v) 0); [|reflexivity].
  unfold inf_of_sign.
  destruct (Rlt_dec 0 _); [reflexivity|].
  destruct (Rlt_dec _ 0); [reflexivity|]. exfalso. lra.
Qed.

(** Where the proportions differ or the variance is not zero, the
    substitution of line 877 changes nothing: the quotient is the
    statistic. *)
Lemma spec_statistic_quotient :
  xeq (spec_p1 c1 x1) (spec_p2 c2 x2) = false
  \/ xeq (spec_variance pooled c1 c2 x1 x2) (Fin 0) = false ->
  spec_statistic pooled c1 c2 x1 x2
  = xdiv (xsub (spec_p1 c1 x1) (spec_p2 c2 x2))
         (xsqrt (spec_variance pooled c1 c2 x1 x2)).
Proof.
  unfold spec_statistic. intros [E|E]; [now rewrite E|].
  destruct (xeq (spec_p1 c1 x1) (spec_p2 c2 x2)) eqn:Ep; [|reflexivity].
  destruct spec_variance_nonneg as (v & Ev & Hv). rewrite Ev in *.
  rewrite spec_p1_fin, spec_p2_fin in *. cbn [xeq] in *.
  apply Reqb_true in Ep. apply Reqb_false in E.
  cbn [xsub xneg xadd xsqrt]. destruct (Rlt_dec v 0); [lra|]. cbn [xdiv].
  destruct (Req_dec_T (sqrt v) 0) as [Es|Es].
  - apply sqrt_eq_0 in Es; [contradiction | lra].
  - f_equal. rewrite Ep. unfold Rdiv. ring.
Qed.

End Points.

(** C1: for every 2x2 table of non-negative counts with both column sums
    positive, the statistic field holds at every sample-space point
    (x1,x2) the value that is 0 where p1 = p2 and (p1 - p2) / sqrt(variance)
    elsewhere, with p1 = x1/c1, p2 = x2/c2 and the variance
    p(1-p)(1/c1 + 1/c2), p = (x1+x2)/(c1+c2), when [pooled] and
    p1(1-p1)/c1 + p2(1-p2)/c2 otherwise; the quotient itself is the value
    wherever the variance is not 0; and the value is never
    not-a-number. *)
Theorem C1_wald_statistic_field (pooled : bool) (a b c d x1 x2 : Z) :
  valid_table a b c d -> 0 < a + c -> 0 < b + d ->
  0 <= x1 <= a + c -> 0 <= x2 <= b + d ->
  let c1 := a + c in
  let c2 := b + d in
  let p1 := xdiv (of_int x1) (of_int c1) in
  let p2 := xdiv (of_int x2) (of_int c2) in
  let variance :=
    if pooled then
      let p := xdiv (of_int (x1 + x2)) (of_int (c1 + c2)) in
      xmul (xmul p (xsub (Fin 1) p))
           (xadd (xdiv (Fin 1) (of_int c1)) (xdiv (Fin 1) (of_int c2)))
    else
      xadd (xdiv (xmul p1 (xsub (Fin 1) p1)) (of_int c1))
           (xdiv (xmul p2 (xsub (Fin 1) p2)) (of_int c2)) in
  exists T,
    py_index2 (wald_statistic_field pooled (Int64.add a c) (Int64.add b d))
              x1 x2 = Some T
    /\ T = (if xeq p1 p2 then Fin 0 else xdiv (xsub p1 p2) (xsqrt variance))
    /\ (xeq variance (Fin 0) = false ->
        T = xdiv (xsub p1 p2) (xsqrt variance))
    /\ (xeq p1 p2 = true -> T = Fin 0)
    /\ is_nan T = false.
Proof.
  intros (Ha & Hb & Hc & Hd & Htot) H1 H2 Hx1 Hx2 c1 c2 p1 p2 variance.
  exists (spec_statistic pooled c1 c2 x1 x2).
  rewrite !add_small by lia. fold c1 c2.
  rewrite wald_statistic_field_outer by (subst c1 c2; lia).
  rewrite py_index2_outer_arange by lia.
  split; [reflexivity|]. split; [reflexivity|]. split; [|split].
  - intros E. apply spec_statistic_quotient; auto.
  - intros E. unfold spec_statistic. fold p1 p2 in E.
    unfold spec_p1, spec_p2. fold p1 p2. now rewrite E.
  - now apply spec_statistic_not_nan.
Qed.

End StatisticField.

(* ================================================================== *)
(** ** The rejection region *)

Module RejectionMask.

Import XReal NDArray Hypotests NDArrayFacts Int64Facts XRealFacts.
Import Validation StatisticField.

Local Open Scope Z_scope.

Lemma rejection_region_recognised (alternative : string)
    (wald_statistic : list (list xreal)) (t0 : xreal) :
  recognised alternative ->
  rejection_region alternative wald_statistic t0
  = Returned (map2d (fun t => spec_rejects alternative t t0) wald_statistic).
Proof.
  intros [-> | [-> | ->]]; reflexivity.
Qed.

Lemma rejection_region_unrecognised (alternative : string)
    (wald_statistic : list (list xreal)) (t0 : xreal) :
  ~ recognised alternative ->
  rejection_region alternative wald_statistic t0
  = Raised (ValueError AlternativeUnknown).
Proof.
  intros H. unfold rejection_region, recognised in *.
  destruct (String.eqb_spec alternative "two-sided"); [tauto|].
  destruct (String.eqb_spec alternative "less"); [tauto|].
  destruct (String.eqb_spec alternative "greater"); [tauto|].
  reflexivity.
Qed.

Section WithGammaln.

Variable gammaln : Z -> R.

(** A call on a valid table with no zero-sum column, up to the test of
    [alternative]. *)
Lemma barnard_exact_nondegenerate (a b c d : Z) (alternative : string)
    (pooled : bool) (n_iter : Z) :
  valid_table a b c d -> 0 < a + c -> 0 < b + d -> 0 < n_iter ->
  barnard_exact gammaln [[a; b]; [c; d]] alternative pooled n_iter
  = let wald_statistic :=
      outer (spec_statistic pooled (a + c) (b + d))
            (arange (a + c + 1)) (arange (b + d + 1)) in
    let wald_stat_obs := spec_statistic pooled (a + c) (b + d) a b in
    match rejection_region alternative wald_statistic wald_stat_obs with
    | Raised e => ([WaldStatisticField; RejectionRegion], Raised e)
    | Returned index_arr =>
        ([WaldStatisticField; RejectionRegion; NuisanceMaximizer],
         p_value <-
           _binomial_maximisation_of_p_value_with_nuisance_param
             gammaln (a + c) (b + d) index_arr n_iter ;;
         Returned {| statistic := wald_stat_obs; pvalue := p_value |})
    end.
Proof.
  intros (Ha & Hb & Hc & Hd & Htot) H1 H2 Hn.
  rewrite barnard_exact_validated by (assumption || lia).
  rewrite !add_small by lia.
  destruct (Z.eqb_spec 0 (a + c)); [lia|].
  destruct (Z.eqb_spec 0 (b + d)); [lia|].
  cbn [orb]. cbv zeta.
  rewrite wald_statistic_field_outer by lia.
  rewrite py_index2_outer_arange by lia.
  reflexivity.
Qed.

(** The same call with a recognised alternative, up to the nuisance
    maximisation. *)
Lemma barnard_exact_recognised (a b c d : Z) (alternative : string)
    (pooled : bool) (n_iter : Z) :
  valid_table a b c d -> 0 < a + c -> 0 < b + d -> 0 < n_iter ->
  recognised alternative ->
  barnard_exact gammaln [[a; b]; [c; d]] alternative pooled n_iter
  = ([WaldStatisticField; RejectionRegion; NuisanceMaximizer],
     p_value <-
       _binomial_maximisation_of_p_value_with_nuisance_param
         gammaln (a + c) (b + d)
         (mask_of alternative pooled (a + c) (b + d) a b) n_iter ;;
     Returned {| statistic := spec_statistic pooled (a + c) (b + d) a b;
                 pvalue := p_value |}).
Proof.
  intros Hv H1 H2 Hn Halt.
  rewrite barnard_exact_nondegenerate by assumption. cbv zeta.
  rewrite rejection_region_recognised by assumption.
  rewrite map2d_outer. reflexivity.
Qed.

(** C6, amended: on a valid 2x2 table whose column sums are both positive,
    with [n_iter > 0], an unrecognised [alternative] makes [barnard_exact]
    fail with the ValueError of the alternative; the error is raised where
    the rejection region is formed, after the statistic field has been
    computed and before the nuisance maximisation. *)
Theorem C6_unrecognised_alternative (a b c d : Z) (alternative : string)
    (pooled : bool) (n_iter : Z) :
  valid_table a b c d -> 0 < a + c -> 0 < b + d -> 0 < n_iter ->
  ~ recognised alternative ->
  barnard_exact gammaln [[a; b]; [c; d]] alternative pooled n_iter
  = ([WaldStatisticField; RejectionRegion],
     Raised (ValueError AlternativeUnknown)).
Proof.
  intros Hv H1 H2 Hn Halt.
  rewrite barnard_exact_nondegenerate by assumption. cbv zeta.
  now rewrite rejection_region_unrecognised.
Qed.

(** C4: on a valid table with no zero-sum column and a recognised
    alternative, the rejection mask is true at the point (x1,x2) exactly
    when |T(x1,x2)| >= |T0| for "two-sided", T(x1,x2) <= T0 for "less" and
    T(x1,x2) >= T0 for "greater", where T is the statistic field and T0 its
    value at the observed point; the p-value of the call is the result of
    the nuisance maximiser on that mask, and every round of the grid search
    runs on that same mask (the mask is an argument of the round, not part
    of the state the rounds update). *)
Theorem C4_rejection_mask (a b c d : Z) (alternative : string)
    (pooled : bool) (n_iter : Z) :
  valid_table a b c d -> 0 < a + c -> 0 < b + d -> 0 < n_iter ->
  recognised alternative ->
  let field :=
    wald_statistic_field pooled (Int64.add a c) (Int64.add b d) in
  exists (T0 : xreal) (mask : list (list bool)),
    py_index2 field a b = Some T0
    /\ rejection_region alternative field T0 = Returned mask
    /\ (forall x1 x2, 0 <= x1 <= a + c -> 0 <= x2 <= b + d ->
        exists T m,
          py_index2 field x1 x2 = Some T
          /\ py_index2 mask x1 x2 = Some m
          /\ (alternative = "two-sided"%string ->
              m = xge (xabs T) (xabs T0))
          /\ (alternative = "less"%string -> m = xle T T0)
          /\ (alternative = "greater"%string -> m = xge T T0))
    /\ barnard_exact gammaln [[a; b]; [c; d]] alternative pooled n_iter
       = ([WaldStatisticField; RejectionRegion; NuisanceMaximizer],
          p_value <-
            _binomial_maximisation_of_p_value_with_nuisance_param
              gammaln (Int64.add a c) (Int64.add b d) mask n_iter ;;
          Returned {| statistic := T0; pvalue := p_value |})
    /\ (forall (k : nat) (st : search_state),
        grid_search gammaln (Int64.add a c) (Int64.add b d) mask (S k) st
        = (st' <- grid_round gammaln (Int64.add a c) (Int64.add b d)
                    mask st ;;
           grid_search gammaln (Int64.add a c) (Int64.add b d) mask k st')).
Proof.
  intros Hv H1 H2 Hn Halt field.
  pose proof Hv as (Ha & Hb & Hc & Hd & Htot).
  exists (spec_statistic pooled (a + c) (b + d) a b),
         (mask_of alternative pooled (a + c) (b + d) a b).
  assert (Ef : field = outer (spec_statistic pooled (a + c) (b + d))
                         (arange (a + c + 1)) (arange (b + d + 1))).
  { unfold field. rewrite !add_small by lia.
    now rewrite wald_statistic_field_outer by lia. }
  assert (Em : rejection_region alternative field
                 (spec_statistic pooled (a + c) (b + d) a b)
               = Returned (mask_of alternative pooled (a + c) (b + d) a b)).
  { rewrite rejection_region_recognised by assumption.
    rewrite Ef, map2d_outer. reflexivity. }
  split; [|split; [|split; [|split]]].
  - rewrite Ef. now rewrite py_index2_outer_arange by lia.
  - exact Em.
  - intros x1 x2 Hx1 Hx2.
    exists (spec_statistic pooled (a + c) (b + d) x1 x2),
           (spec_rejects alternative
              (spec_statistic pooled (a + c) (b + d) x1 x2)
              (spec_statistic pooled (a + c) (b + d) a b)).
    rewrite Ef. unfold mask_of.
    rewrite !py_index2_outer_arange by lia.
    repeat split; intros ->; reflexivity.
  - rewrite barnard_exact_nondegenerate by assumption. cbv zeta.
    rewrite <- Ef, Em. rewrite !add_small by lia. reflexivity.
  - intros k st. reflexivity.
Qed.

End WithGammaln.

(** C6 fails as stated: with the table [[0, 1], [0, 1]], whose first column
    sums to 0, the unrecognised alternative "foo" is never examined and the
    call returns a result. *)
Lemma C6_counterexample :
  ~ recognised "foo"
  /\ barnard_exact lgamma_int [[0; 1]; [0; 1]] "foo" true 3
     = ([], Returned {| statistic := NaN; pvalue := Fin 1 |})
  /\ ~ InvalidArgument
         (snd (barnard_exact lgamma_int [[0; 1]; [0; 1]] "foo" true 3)).
Proof.
  assert (E : barnard_exact lgamma_int [[0; 1]; [0; 1]] "foo" true 3
              = ([], Returned {| statistic := NaN; pvalue := Fin 1 |})).
  { apply zero_sum_column_return; lia. }
  split; [|split].
  - intros [H|[H|H]]; discriminate.
  - exact E.
  - rewrite E. intros (m & H). discriminate.
Qed.

End RejectionMask.

(* ================================================================== *)
(** ** The grid of candidates and the bracket *)

Module Grid.

Import XReal NDArray Hypotests NDArrayFacts XRealFacts.

Local Open Scope Z_scope.

Lemma arange_succ (n : Z) : 0 <= n -> arange (n + 1) = arange n ++ [n].
Proof.
  intros Hn. unfold arange.
  replace (Z.to_nat (n + 1)) with (S (Z.to_nat n)) by lia.
  rewrite seq_S, map_app. cbn [map Nat.add]. do 2 f_equal. lia.
Qed.

Lemma grid_point_first (a b : R) : grid_point a b 0 = a.
Proof. unfold grid_point. lra. Qed.

Lemma grid_point_last (a b : R) : grid_point a b 99 = b.
Proof. unfold grid_point. field. Qed.

Lemma grid_point_mono (a b : R) (i j : Z) :
  (a <= b)%R -> i <= j -> (grid_point a b i <= grid_point a b j)%R.
Proof.
  intros Hab Hij. unfold grid_point.
  apply Rplus_le_compat_l, Rmult_le_compat_r; [lra|]. now apply IZR_le.
Qed.

Lemma grid_point_bounds (a b : R) (i : Z) :
  (a <= b)%R -> 0 <= i <= 99 -> (a <= grid_point a b i <= b)%R.
Proof.
  intros Hab Hi.
  pose proof (@grid_point_mono a b 0 i Hab) as H0.
  pose proof (@grid_point_mono a b i 99 Hab) as H1.
  rewrite grid_point_first in H0. rewrite grid_point_last in H1.
  split; [apply H0 | apply H1]; lia.
Qed.

(** The grid of a round: 99 computed points followed by the upper bound. *)
Lemma linspace_fin (a b : R) :
  linspace (Fin a) (Fin b) nuisance_num
  = map (fun i => Fin (grid_point a b i)) (arange 99) ++ [Fin b].
Proof.
  unfold linspace, nuisance_num.
  change (1 <? 100) with true. cbv iota.
  change (arange 100) with (arange (99 + 1)). rewrite arange_succ by lia.
  rewrite map_app. cbn [map]. rewrite removelast_last. f_equal.
  apply map_ext. intros i. unfold of_int. cbn [xsub xneg xadd xdiv].
  change (100 - 1) with 99.
  destruct (Req_dec_T (IZR 99) 0) as [E|E].
  - exfalso. apply eq_IZR in E. lia.
  - cbn [xmul xadd]. f_equal. unfold grid_point. unfold Rminus. ring.
Qed.

Lemma linspace_length (a b : R) :
  length (linspace (Fin a) (Fin b) nuisance_num) = 100%nat.
Proof.
  rewrite linspace_fin, length_app, length_map, arange_length. reflexivity.
Qed.

Lemma linspace_index (a b : R) (i : Z) :
  0 <= i <= 99 ->
  py_index (linspace (Fin a) (Fin b) nuisance_num) i
  = Some (Fin (grid_point a b i)).
Proof.
  intros Hi. rewrite py_index_nonneg by (rewrite linspace_length; lia).
  rewrite linspace_fin.
  destruct (Z.eq_dec i 99) as [->|Hne].
  - rewrite nth_error_app2 by (rewrite length_map, arange_length; lia).
    rewrite length_map, arange_length. cbn. now rewrite grid_point_last.
  - rewrite nth_error_app1 by (rewrite length_map, arange_length; lia).
    rewrite nth_error_map, arange_nth_error by lia. cbn.
    do 3 f_equal. lia.
Qed.

Lemma linspace_index_last (a b : R) :
  py_index (linspace (Fin a) (Fin b) nuisance_num) (-1) = Some (Fin b).
Proof.
  unfold py_index. rewrite linspace_length.
  change ((0 <=? -1) && (-1 <? Z.of_nat 100)) with false.
  change ((- Z.of_nat 100 <=? -1) && (-1 <? 0)) with true. cbv iota.
  change (Z.to_nat (Z.of_nat 100 + -1)) with 99%nat.
  rewrite linspace_fin.
  rewrite nth_error_app2 by (rewrite length_map, arange_length; lia).
  rewrite length_map, arange_length. reflexivity.
Qed.

Lemma linspace_In (a b : R) (x : xreal) :
  (a <= b)%R -> In x (linspace (Fin a) (Fin b) nuisance_num) ->
  exists r, x = Fin r /\ (a <= r <= b)%R.
Proof.
  intros Hab. rewrite linspace_fin, in_app_iff, in_map_iff.
  intros [(i & <- & Hi)|[<-|[]]].
  - apply arange_In in Hi. eexists; split; [reflexivity|].
    apply grid_point_bounds; auto; lia.
  - exists b. split; [reflexivity | lra].
Qed.

(** [argmax] returns an index of the array. *)
Lemma argmax_scan_range (l : list xreal) (mp : xreal) (mi i : Z) :
  let r := argmax_scan mp mi i l in
  r = mi \/ i <= r < i + Z.of_nat (length l).
Proof.
  revert mp mi i. induction l as [|x l IH]; intros mp mi i; cbn; [auto|].
  destruct (negb (xle x mp)).
  - destruct (is_nan x); [right; lia|].
    destruct (IH x i (i + 1)) as [->|H]; right; lia.
  - destruct (IH mp mi (i + 1)) as [->|H]; [auto | right; lia].
Qed.

Lemma argmax_range (l : list xreal) :
  l <> [] -> 0 <= argmax l < Z.of_nat (length l).
Proof.
  destruct l as [|x l]; [congruence|]. intros _. cbn [argmax length].
  destruct (is_nan x); [lia|].
  pose proof (argmax_scan_range l x 0 1) as H. cbv zeta in H. lia.
Qed.

End Grid.

(* ================================================================== *)
(** ** The bracket of the nuisance parameter *)

Module Bracket.

Import XReal NDArray Hypotests NDArrayFacts XRealFacts Grid.

Local Open Scope Z_scope.

Section WithMask.

Variable gammaln : Z -> R.
Variables (total_c1 total_c2 : Z) (idx : list (list bool)).

Hypothesis idx_shape :
  has_shape (length (x1_arr total_c1)) (length (x2_arr total_c2)) idx = true.

Local Abbreviation round := (grid_round gammaln total_c1 total_c2 idx).
Local Abbreviation search := (grid_search gammaln total_c1 total_c2 idx).
Local Abbreviation p_values_on a b :=
  (map (candidate_p_value (n_arr total_c1 total_c2)
          (x1_plus_x2 total_c1 total_c2) (n_minus_x1_x2 total_c1 total_c2)
          (x1_sum_x2_log_comb gammaln total_c1 total_c2) idx)
       (linspace (Fin a) (Fin b) nuisance_num)).

Lemma p_values_length (a b : R) : length (p_values_on a b) = 100%nat.
Proof. now rewrite length_map, linspace_length. Qed.

Lemma argmax_p_values_range (a b : R) : 0 <= argmax (p_values_on a b) <= 99.
Proof.
  assert (Hne : p_values_on a b <> []).
  { intros E. pose proof (p_values_length a b) as L. rewrite E in L.
    discriminate. }
  pose proof (argmax_range Hne) as H.
  rewrite p_values_length in H. lia.
Qed.

(** One round on a bracket of finite bounds. *)
Lemma grid_round_fin (st : search_state) (a b : R) :
  inf_bound st = Fin a -> sup_bound st = Fin b ->
  round st
  = Returned
      {| inf_bound := Fin (narrowed_inf a b (argmax (p_values_on a b)));
         sup_bound := Fin (narrowed_sup a b (argmax (p_values_on a b)));
         last_round := Some (p_values_on a b, argmax (p_values_on a b)) |}.
Proof.
  intros Ha Hb. unfold grid_round. rewrite Ha, Hb, idx_shape.
  cbn [negb]. cbv zeta.
  pose proof (argmax_p_values_range a b) as Hm.
  set (m := argmax (p_values_on a b)) in *.
  unfold narrowed_inf, narrowed_sup.
  change (nuisance_num - 1) with 99.
  destruct (Z.gtb_spec m 0).
  - rewrite linspace_index by lia. cbn [of_option bind].
    destruct (Z.ltb_spec m 99).
    + rewrite linspace_index by lia. reflexivity.
    + rewrite linspace_index_last. reflexivity.
  - replace (py_index (linspace (Fin a) (Fin b) nuisance_num) 0)
      with (Some (Fin a)).
    2:{ rewrite linspace_index by lia. now rewrite grid_point_first. }
    cbn [of_option bind].
    destruct (Z.ltb_spec m 99).
    + rewrite linspace_index by lia. reflexivity.
    + rewrite linspace_index_last. reflexivity.
Qed.

Lemma narrowed_bounds (a b : R) (m : Z) :
  (a <= b)%R -> 0 <= m <= 99 ->
  (a <= narrowed_inf a b m)%R
  /\ (narrowed_inf a b m <= narrowed_sup a b m)%R
  /\ (narrowed_sup a b m <= b)%R.
Proof.
  intros Hab Hm. unfold narrowed_inf, narrowed_sup.
  destruct (Z.gtb_spec m 0), (Z.ltb_spec m 99).
  - pose proof (@grid_point_bounds a b (m - 1) Hab).
    pose proof (@grid_point_bounds a b (m + 1) Hab).
    pose proof (@grid_point_mono a b (m - 1) (m + 1) Hab).
    repeat split; [apply H1 | apply H3 | apply H2]; lia.
  - pose proof (@grid_point_bounds a b (m - 1) Hab).
    repeat split; [apply H1 | apply H1 | lra]; lia.
  - pose proof (@grid_point_bounds a b (m + 1) Hab).
    repeat split; [lra | apply H1 | apply H1]; lia.
  - lra.
Qed.

Lemma grid_search_snoc (k : nat) (st : search_state) :
  search (S k) st = (st' <- search k st ;; round st').
Proof.
  revert st. induction k as [|k IH]; intros st.
  - cbn. now destruct (round st).
  - cbn [grid_search].
    destruct (round st) as [e|st1]; [reflexivity|].
    cbn [bind]. exact (IH st1).
Qed.

(** The invariant of the loop: after any number of rounds the bracket is
    a pair of finite bounds with 0 <= inf <= sup <= 1. *)
Lemma grid_search_invariant (k : nat) :
  exists st a b,
    search k initial_state = Returned st
    /\ inf_bound st = Fin a /\ sup_bound st = Fin b
    /\ (0 <= a)%R /\ (a <= b)%R /\ (b <= 1)%R.
Proof.
  induction k as [|k (st & a & b & E & Ha & Hb & H0 & Hab & H1)].
  - exists initial_state, 0%R, 1%R. cbn. repeat split; auto; lra.
  - rewrite grid_search_snoc, E. cbn [bind].
    rewrite (grid_round_fin st Ha Hb).
    pose proof (argmax_p_values_range a b) as Hm.
    destruct (narrowed_bounds Hab Hm) as (B1 & B2 & B3).
    eexists _, _, _. split; [reflexivity|]. cbn [inf_bound sup_bound].
    repeat split; auto; lra.
Qed.

(** C5: the bracket starts as [0, 1]; every round of the grid search
    takes a bracket [a, b] of finite bounds to a bracket [a', b'] with
    0 <= a <= a' <= b' <= b <= 1, where the grid of the round is the 100
    evenly spaced points a + i (b - a) / 99 (the first is a, the last is b),
    a' is the grid point just before the maximising candidate (a itself
    when that candidate is the first) and b' the grid point just after it
    (b itself when it is the last). *)
Theorem C5_bracket_narrows :
  inf_bound initial_state = Fin 0 /\ sup_bound initial_state = Fin 1
  /\ forall k : nat,
     exists (st st' : search_state) (a b a' b' : R) (m : Z),
       search k initial_state = Returned st
       /\ round st = Returned st'
       /\ search (S k) initial_state = Returned st'
       /\ inf_bound st = Fin a /\ sup_bound st = Fin b
       /\ inf_bound st' = Fin a' /\ sup_bound st' = Fin b'
       /\ (0 <= a /\ a <= a' /\ a' <= b' /\ b' <= b /\ b <= 1)%R
       /\ last_round st' = Some (p_values_on a b, m)
       /\ m = argmax (p_values_on a b) /\ 0 <= m <= 99
       /\ (forall i, 0 <= i <= 99 ->
           py_index (linspace (Fin a) (Fin b) nuisance_num) i
           = Some (Fin (a + IZR i * ((b - a) / 99))))
       /\ py_index (linspace (Fin a) (Fin b) nuisance_num) 0 = Some (Fin a)
       /\ py_index (linspace (Fin a) (Fin b) nuisance_num) 99
          = Some (Fin b)
       /\ Some (Fin a')
          = (if m >? 0
             then py_index (linspace (Fin a) (Fin b) nuisance_num) (m - 1)
             else Some (Fin a))
       /\ Some (Fin b')
          = (if m <? 99
             then py_index (linspace (Fin a) (Fin b) nuisance_num) (m + 1)
             else Some (Fin b)).
Proof.
  split; [reflexivity|]. split; [reflexivity|]. intros k.
  destruct (grid_search_invariant k)
    as (st & a & b & E & Ha & Hb & H0 & Hab & H1).
  pose proof (argmax_p_values_range a b) as Hm.
  destruct (narrowed_bounds Hab Hm) as (B1 & B2 & B3).
  pose proof (grid_round_fin st Ha Hb) as Er.
  set (m := argmax (p_values_on a b)) in *.
  eexists st, _, a, b, (narrowed_inf a b m), (narrowed_sup a b m), m.
  split; [exact E|]. split; [exact Er|].
  split; [rewrite grid_search_snoc, E; exact Er|].
  cbn [inf_bound sup_bound last_round].
  assert (G : forall i, 0 <= i <= 99 ->
              py_index (linspace (Fin a) (Fin b) nuisance_num) i
              = Some (Fin (a + IZR i * ((b - a) / 99)))).
  { intros i Hi. now rewrite linspace_index by lia. }
  assert (G0 : py_index (linspace (Fin a) (Fin b) nuisance_num) 0
               = Some (Fin a)).
  { rewrite linspace_index by lia. now rewrite grid_point_first. }
  assert (G99 : py_index (linspace (Fin a) (Fin b) nuisance_num) 99
                = Some (Fin b)).
  { rewrite linspace_index by lia. now rewrite grid_point_last. }
  assert (Ginf : Some (Fin (narrowed_inf a b m))
                 = (if m >? 0
                    then py_index (linspace (Fin a) (Fin b) nuisance_num)
                           (m - 1)
                    else Some (Fin a))).
  { unfold narrowed_inf. destruct (Z.gtb_spec m 0); [|reflexivity].
    now rewrite linspace_index by lia. }
  assert (Gsup : Some (Fin (narrowed_sup a b m))
                 = (if m <? 99
                    then py_index (linspace (Fin a) (Fin b) nuisance_num)
                           (m + 1)
                    else Some (Fin b))).
  { unfold narrowed_sup. destruct (Z.ltb_spec m 99); [|reflexivity].
    now rewrite linspace_index by lia. }
  repeat match goal with |- _ /\ _ => split end;
    solve [assumption | reflexivity | lia | lra].
Qed.

End WithMask.

End Bracket.

(* ================================================================== *)
(** ** The probability field of a candidate *)

Module Mass.

Import XReal NDArray Hypotests NDArrayFacts Int64Facts XRealFacts.

Local Open Scope Z_scope.

(** *** Sums of non-negative numbers *)

Lemma xsum_cons (x : xreal) (l : list xreal) :
  xsum (x :: l) = xadd x (xsum l).
Proof. reflexivity. Qed.

Lemma xsum_nonneg (l : list xreal) : Forall nonneg l -> nonneg (xsum l).
Proof.
  induction 1 as [|x l (r & -> & Hr) _ (t & IH & Ht)].
  - exists 0%R. split; [reflexivity | lra].
  - rewrite xsum_cons, IH. cbn. eexists; split; [reflexivity | lra].
Qed.

Lemma xsum_positive (l : list xreal) :
  Forall nonneg l -> Exists positive l -> positive (xsum l).
Proof.
  induction 1 as [|x l (r & -> & Hr) Hl IH]; intros Hex.
  - inversion Hex.
  - rewrite xsum_cons. destruct (xsum_nonneg Hl) as (t & Et & Ht).
    inversion Hex as [? ? (r' & E' & Hr')|? ? Hex']; subst.
    + inversion E'; subst. rewrite Et. cbn.
      eexists; split; [reflexivity | lra].
    + destruct (IH Hex') as (t' & Et' & Ht'). rewrite Et'. cbn.
      eexists; split; [reflexivity | lra].
Qed.

Lemma xsum_scaled (l : list xreal) (S : R) :
  S <> 0%R -> Forall nonneg l ->
  exists t, xsum l = Fin t
            /\ xsum (map (fun v => xdiv v (Fin S)) l) = Fin (t / S).
Proof.
  intros HS. induction 1 as [|x l (r & -> & Hr) _ (t & Et & IH)].
  - exists 0%R. split; [reflexivity|]. cbn. f_equal. field. exact HS.
  - exists (r + t)%R. cbn [map]. rewrite !xsum_cons, Et, IH. cbn.
    destruct (Req_dec_T S 0); [contradiction|]. cbn.
    split; [reflexivity|]. f_equal. field. exact HS.
Qed.

Lemma select_row_le (mrow : list bool) (xrow : list xreal) :
  Forall nonneg xrow ->
  exists s t,
    xsum (concat (zip (fun (m : bool) x => if m then [x] else [])
                      mrow xrow)) = Fin s
    /\ xsum xrow = Fin t /\ (0 <= s <= t)%R.
Proof.
  intros H. revert mrow.
  induction H as [|x xrow (r & -> & Hr) Hrow IH]; intros mrow.
  - exists 0%R, 0%R. destruct mrow; cbn; repeat split; auto; lra.
  - destruct mrow as [|m mrow].
    + destruct (xsum_nonneg Hrow) as (t & Et & Ht).
      exists 0%R, (r + t)%R. rewrite xsum_cons, Et. cbn.
      repeat split; auto; lra.
    + destruct (IH mrow) as (s & t & Es & Et & Hst).
      cbn [zip concat]. rewrite xsum_app, Es, xsum_cons, Et.
      destruct m; cbn.
      * exists (r + 0 + s)%R, (r + t)%R. repeat split; auto; lra.
      * exists (0 + s)%R, (r + t)%R. repeat split; auto; lra.
Qed.

Lemma select_le (idx : list (list bool)) (X : list (list xreal)) :
  Forall (Forall nonneg) X ->
  exists s t,
    xsum (select idx X) = Fin s /\ xsum (concat X) = Fin t
    /\ (0 <= s <= t)%R.
Proof.
  intros H. revert idx. unfold select.
  induction H as [|xrow X Hrow HX IH]; intros idx.
  - exists 0%R, 0%R. destruct idx; cbn; repeat split; auto; lra.
  - cbn [concat]. rewrite xsum_app.
    destruct idx as [|mrow idx].
    + destruct (select_row_le [] Hrow) as (sr & tr & _ & Etr & Htr).
      destruct (IH []) as (s & t & _ & Et & Ht).
      exists 0%R, (tr + t)%R. rewrite Etr, Et. cbn.
      repeat split; auto; lra.
    + destruct (select_row_le mrow Hrow) as (sr & tr & Esr & Etr & Hsr).
      destruct (IH idx) as (s & t & Es & Et & Hst).
      cbn [zip concat]. rewrite xsum_app, Esr, Es, Etr, Et. cbn.
      exists (sr + s)%R, (tr + t)%R. repeat split; auto; lra.
Qed.

(** Dividing a field of non-negative numbers by its positive total mass
    gives a field of non-negative numbers of total mass 1, and the mass
    it puts on any part of the sample space is a probability. *)
Lemma normalise_mass (X : list (list xreal)) :
  Forall (Forall nonneg) X -> positive (xsum (concat X)) ->
  Forall (Forall nonneg) (normalise X)
  /\ xsum (concat (normalise X)) = Fin 1.
Proof.
  intros HX (S & ES & HS). unfold normalise. rewrite ES. split.
  - unfold map2d. apply Forall_map. eapply Forall_impl; [|exact HX].
    intros row Hrow. apply Forall_map. eapply Forall_impl; [|exact Hrow].
    intros x (r & -> & Hr). cbn. destruct (Req_dec_T S 0); [lra|].
    eexists; split; [reflexivity|].
    apply Rmult_le_pos; [lra|]. left. now apply Rinv_0_lt_compat.
  - unfold map2d. rewrite <- concat_map.
    destruct (@xsum_scaled (concat X) S) as (t & Et & Es).
    + lra.
    + now apply Forall_concat.
    + rewrite Es. rewrite ES in Et. injection Et as <-.
      f_equal. field. lra.
Qed.

Lemma masked_mass_probability (idx : list (list bool))
    (X : list (list xreal)) :
  Forall (Forall nonneg) X -> positive (xsum (concat X)) ->
  probability (xsum (select idx (normalise X))).
Proof.
  intros HX HS. destruct (normalise_mass HX HS) as (Hn & E1).
  destruct (select_le idx Hn) as (s & t & Es & Et & Hst).
  rewrite E1 in Et. injection Et as <-.
  exists s. split; [exact Es | exact Hst].
Qed.

Section WithGammaln.

Variable gammaln : Z -> R.

Section Arrays.

Variables c1 c2 : Z.
Hypotheses (Hc1 : 0 < c1) (Hc2 : 0 < c2) (Hsum : c1 + c2 < 2 ^ 63).

Lemma x1_arr_eq : x1_arr c1 = arange (c1 + 1).
Proof. unfold x1_arr. now rewrite add_small by lia. Qed.

Lemma x2_arr_eq : x2_arr c2 = arange (c2 + 1).
Proof. unfold x2_arr. now rewrite add_small by lia. Qed.

Lemma n_arr_eq : n_arr c1 c2 = c1 + c2.
Proof. unfold n_arr. now rewrite add_small by lia. Qed.

Lemma x1_plus_x2_outer :
  x1_plus_x2 c1 c2 = outer Z.add (arange (c1 + 1)) (arange (c2 + 1)).
Proof.
  unfold x1_plus_x2. rewrite x1_arr_eq, x2_arr_eq.
  apply outer_ext. intros a b Ha Hb.
  apply arange_In in Ha. apply arange_In in Hb. apply add_small. lia.
Qed.

Lemma n_minus_x1_x2_outer :
  n_minus_x1_x2 c1 c2
  = outer (fun a b => c1 + c2 - a - b) (arange (c1 + 1)) (arange (c2 + 1)).
Proof.
  unfold n_minus_x1_x2. rewrite x1_arr_eq, x2_arr_eq, n_arr_eq.
  apply outer_ext. intros a b Ha Hb.
  apply arange_In in Ha. apply arange_In in Hb.
  rewrite (sub_small (c1 + c2) a) by lia. apply sub_small. lia.
Qed.

Lemma x1_sum_x2_log_comb_outer :
  x1_sum_x2_log_comb gammaln c1 c2
  = outer (fun a b => xadd (log_comb_at gammaln c1 a)
                           (log_comb_at gammaln c2 b))
          (arange (c1 + 1)) (arange (c2 + 1)).
Proof.
  unfold x1_sum_x2_log_comb. rewrite x1_arr_eq, x2_arr_eq.
  now rewrite outer_map.
Qed.

Lemma nuisance_power_x1_x2_outer (nuisance : xreal) :
  nuisance_power_x1_x2 (x1_plus_x2 c1 c2) nuisance
  = outer (fun a b => if a + b =? 0 then Fin 0
                      else xmul (log_nuisance_arr nuisance) (of_int (a + b)))
          (arange (c1 + 1)) (arange (c2 + 1)).
Proof.
  unfold nuisance_power_x1_x2. rewrite x1_plus_x2_outer.
  now rewrite !map2d_outer, set_where_outer.
Qed.

Lemma nuisance_power_n_minus_x1_x2_outer (nuisance : xreal) :
  nuisance_power_n_minus_x1_x2 (n_arr c1 c2) (x1_plus_x2 c1 c2)
    (n_minus_x1_x2 c1 c2) nuisance
  = outer (fun a b => if a + b =? c1 + c2 then Fin 0
                      else xmul (log_1_minus_nuisance_arr nuisance)
                                (of_int (c1 + c2 - a - b)))
          (arange (c1 + 1)) (arange (c2 + 1)).
Proof.
  unfold nuisance_power_n_minus_x1_x2.
  rewrite x1_plus_x2_outer, n_minus_x1_x2_outer, n_arr_eq.
  now rewrite !map2d_outer, set_where_outer.
Qed.

(** The slice of [tmp_values_arr] of a candidate, point by point. *)
Lemma tmp_values_outer (nuisance : xreal) :
  tmp_values (n_arr c1 c2) (x1_plus_x2 c1 c2) (n_minus_x1_x2 c1 c2)
             (x1_sum_x2_log_comb gammaln c1 c2) nuisance
  = outer (tmp_value_at gammaln c1 c2 nuisance)
          (arange (c1 + 1)) (arange (c2 + 1)).
Proof.
  unfold tmp_values.
  rewrite nuisance_power_x1_x2_outer, nuisance_power_n_minus_x1_x2_outer,
    x1_sum_x2_log_comb_outer.
  now rewrite !zip2_outer, map2d_outer.
Qed.

(** The log-combinations are finite numbers. *)
Lemma zip_Forall {A B C : Type} (P : A -> Prop) (Q : B -> Prop)
    (S : C -> Prop) (f : A -> B -> C) (l1 : list A) (l2 : list B) :
  (forall a b, P a -> Q b -> S (f a b)) ->
  Forall P l1 -> Forall Q l2 -> Forall S (zip f l1 l2).
Proof.
  intros Hf H1. revert l2. induction H1 as [|a l1 Ha _ IH];
    intros l2 H2; [constructor|].
  destruct H2 as [|b l2 Hb H2]; cbn; constructor; auto.
Qed.

Lemma log_combinations_finite (n : Z) :
  Forall finite (_compute_log_combinations gammaln n).
Proof.
  unfold _compute_log_combinations.
  apply zip_Forall with (P := finite) (Q := finite).
  - intros x y [r ->] [t ->]. cbn. now eexists.
  - apply Forall_map, Forall_map, Forall_forall. intros k _. cbn. now eexists.
  - apply Forall_rev, Forall_map, Forall_forall. intros k _. now eexists.
Qed.

Lemma log_combinations_length (n : Z) :
  length (_compute_log_combinations gammaln n) = Z.to_nat (Int64.add n 1).
Proof.
  unfold _compute_log_combinations.
  rewrite zip_length, length_rev, !length_map, arange_length. lia.
Qed.

Lemma log_comb_at_finite (c k : Z) :
  0 <= c -> c + 1 < 2 ^ 63 -> 0 <= k <= c ->
  finite (log_comb_at gammaln c k).
Proof.
  intros Hc Hr Hk. unfold log_comb_at.
  apply Forall_nth; [apply log_combinations_finite|].
  rewrite log_combinations_length, add_small by lia. lia.
Qed.

(** The logarithms of a candidate in [0, 1]. *)
Lemma log_nuisance_arr_cases (q : R) :
  (0 <= q)%R ->
  fin_or_ninf (log_nuisance_arr (Fin q))
  /\ ((0 < q)%R -> finite (log_nuisance_arr (Fin q))).
Proof.
  intros Hq. unfold log_nuisance_arr, xge, xle, Rleb, xlog.
  destruct (Rle_dec 0 q); [|lra].
  destruct (Rlt_dec q 0); [lra|].
  destruct (Req_dec_T q 0).
  - split; [now right | intros; lra].
  - split; [left|intros _]; now eexists.
Qed.

Lemma log_1_minus_nuisance_arr_cases (q : R) :
  (q <= 1)%R ->
  fin_or_ninf (log_1_minus_nuisance_arr (Fin q))
  /\ ((q < 1)%R -> finite (log_1_minus_nuisance_arr (Fin q))).
Proof.
  intros Hq. unfold log_1_minus_nuisance_arr, xge, xle, xsub, xneg, xadd,
    Rleb, xlog.
  destruct (Rle_dec 0 (1 + - q)); [|lra].
  destruct (Rlt_dec (1 + - q) 0); [lra|].
  destruct (Req_dec_T (1 + - q) 0).
  - split; [now right | intros; lra].
  - split; [left|intros _]; now eexists.
Qed.

(** A boundary-substituted power term: [0] on the boundary, the logarithm
    times a positive count elsewhere. *)
Lemma power_term_cases (L : xreal) (m : Z) (boundary : bool) :
  (boundary = false -> 0 < m) ->
  (fin_or_ninf L ->
   fin_or_ninf (if boundary then Fin 0 else xmul L (of_int m)))
  /\ (finite L -> finite (if boundary then Fin 0 else xmul L (of_int m))).
Proof.
  intros Hm. destruct boundary.
  - split; intros _; [left|]; now exists 0%R.
  - specialize (Hm eq_refl). apply IZR_lt in Hm. split.
    + intros [[r ->]| ->]; unfold of_int; cbn.
      * left. now eexists.
      * right. unfold inf_of_sign.
        destruct (Rlt_dec 0 (- IZR m)); [lra|].
        destruct (Rlt_dec (- IZR m) 0); [reflexivity | lra].
    + intros [r ->]. unfold of_int. cbn. now eexists.
Qed.

Lemma xadd_finite (x y : xreal) : finite x -> finite y -> finite (xadd x y).
Proof. intros [r ->] [t ->]. cbn. now eexists. Qed.

Lemma xadd_fin_or_ninf (x y : xreal) :
  fin_or_ninf x -> fin_or_ninf y -> fin_or_ninf (xadd x y).
Proof.
  intros [[r ->]| ->] [[t ->]| ->]; cbn;
    solve [left; now eexists | now right].
Qed.

Lemma xexp_nonneg (x : xreal) : fin_or_ninf x -> nonneg (xexp x).
Proof.
  intros [[r ->]| ->]; cbn.
  - eexists; split; [reflexivity|]. left. apply exp_pos.
  - exists 0%R. split; [reflexivity | lra].
Qed.

Lemma xexp_positive (x : xreal) : finite x -> positive (xexp x).
Proof.
  intros [r ->]. cbn. eexists; split; [reflexivity|]. apply exp_pos.
Qed.

Section Cells.

Variables (q : R) (x1 x2 : Z).
Hypotheses (Hq : (0 <= q <= 1)%R).
Hypotheses (Hx1 : 0 <= x1 <= c1) (Hx2 : 0 <= x2 <= c2).

Lemma log_comb_sum_finite :
  finite (xadd (log_comb_at gammaln c1 x1) (log_comb_at gammaln c2 x2)).
Proof. apply xadd_finite; apply log_comb_at_finite; lia. Qed.

(** Every entry of the probability field is a finite non-negative number. *)
Lemma tmp_value_at_nonneg : nonneg (tmp_value_at gammaln c1 c2 (Fin q) x1 x2).
Proof.
  unfold tmp_value_at. apply xexp_nonneg.
  apply xadd_fin_or_ninf; [apply xadd_fin_or_ninf|].
  - left. apply log_comb_sum_finite.
  - apply power_term_cases.
    + intros E. apply Z.eqb_neq in E. lia.
    + apply log_nuisance_arr_cases. lra.
  - apply power_term_cases.
    + intros E. apply Z.eqb_neq in E. lia.
    + apply log_1_minus_nuisance_arr_cases. lra.
Qed.

(** It is positive as soon as both power terms are finite. *)
Lemma tmp_value_at_positive :
  ((0 < q)%R \/ x1 + x2 = 0) -> ((q < 1)%R \/ x1 + x2 = c1 + c2) ->
  positive (tmp_value_at gammaln c1 c2 (Fin q) x1 x2).
Proof.
  intros H0 H1. unfold tmp_value_at. apply xexp_positive.
  apply xadd_finite; [apply xadd_finite|].
  - apply log_comb_sum_finite.
  - destruct H0 as [H0|H0].
    + apply power_term_cases.
      * intros E. apply Z.eqb_neq in E. lia.
      * apply log_nuisance_arr_cases; lra.
    + rewrite H0. cbn. now exists 0%R.
  - destruct H1 as [H1|H1].
    + apply power_term_cases.
      * intros E. apply Z.eqb_neq in E. lia.
      * apply log_1_minus_nuisance_arr_cases; lra.
    + rewrite H1, Z.eqb_refl. now exists 0%R.
Qed.

End Cells.

Lemma outer_Forall {A B C : Type} (P : C -> Prop) (f : A -> B -> C)
    (col : list A) (row : list B) :
  (forall a b, In a col -> In b row -> P (f a b)) ->
  Forall (Forall P) (outer f col row).
Proof.
  intros H. unfold outer. apply Forall_map, Forall_forall. intros a Ha.
  apply Forall_map, Forall_forall. intros b Hb. now apply H.
Qed.

Lemma outer_In_concat {A B C : Type} (f : A -> B -> C)
    (col : list A) (row : list B) (a : A) (b : B) :
  In a col -> In b row -> In (f a b) (concat (outer f col row)).
Proof.
  intros Ha Hb. apply in_concat. exists (map (f a) row). split.
  - unfold outer. apply in_map_iff. now exists a.
  - apply in_map_iff. now exists b.
Qed.

Section Candidate.

Variable q : R.
Hypothesis Hq : (0 <= q <= 1)%R.

Local Abbreviation field :=
  (outer (tmp_value_at gammaln c1 c2 (Fin q))
         (arange (c1 + 1)) (arange (c2 + 1))).

Lemma field_nonneg : Forall (Forall nonneg) field.
Proof.
  apply outer_Forall. intros a b Ha Hb.
  apply arange_In in Ha. apply arange_In in Hb.
  apply tmp_value_at_nonneg; auto; lia.
Qed.

(** The total mass of a candidate is a positive number: the point (0,0)
    carries positive mass unless the candidate is 1, and then the point
    (c1,c2) does. *)
Lemma field_total_positive : positive (xsum (concat field)).
Proof.
  apply xsum_positive.
  - apply Forall_concat, field_nonneg.
  - apply Exists_exists. destruct (Rlt_dec q 1) as [Hlt|Hge].
    + exists (tmp_value_at gammaln c1 c2 (Fin q) 0 0). split.
      * apply outer_In_concat; apply arange_In; lia.
      * apply tmp_value_at_positive; auto; lia.
    + exists (tmp_value_at gammaln c1 c2 (Fin q) c1 c2). split.
      * apply outer_In_concat; apply arange_In; lia.
      * apply tmp_value_at_positive; auto; try lia. left. lra.
Qed.

(** The p-value of a candidate in [0, 1] is a probability, whatever the
    mask. *)
Lemma candidate_p_value_probability (idx : list (list bool)) :
  probability
    (candidate_p_value (n_arr c1 c2) (x1_plus_x2 c1 c2)
       (n_minus_x1_x2 c1 c2) (x1_sum_x2_log_comb gammaln c1 c2) idx
       (Fin q)).
Proof.
  unfold candidate_p_value. rewrite tmp_values_outer.
  apply masked_mass_probability.
  - apply field_nonneg.
  - apply field_total_positive.
Qed.

End Candidate.

End Arrays.

End WithGammaln.

End Mass.

(* ================================================================== *)
(** ** The p-value of the maximiser *)

Module PValue.

Import XReal NDArray Hypotests NDArrayFacts Int64Facts XRealFacts.
Import Grid Bracket Mass.

Local Open Scope Z_scope.

Section WithMask.

Variable gammaln : Z -> R.
Variables (c1 c2 : Z) (idx : list (list bool)).

Hypotheses (Hc1 : 0 < c1) (Hc2 : 0 < c2) (Hsum : c1 + c2 < 2 ^ 63).
Hypothesis idx_shape :
  has_shape (length (x1_arr c1)) (length (x2_arr c2)) idx = true.

Local Abbreviation search := (grid_search gammaln c1 c2 idx).
Local Abbreviation p_value_of :=
  (candidate_p_value (n_arr c1 c2) (x1_plus_x2 c1 c2) (n_minus_x1_x2 c1 c2)
     (x1_sum_x2_log_comb gammaln c1 c2) idx).
Local Abbreviation p_values_on a b :=
  (map p_value_of (linspace (Fin a) (Fin b) nuisance_num)).

(** Every candidate of a bracket inside [0, 1] has a probability for
    p-value. *)
Lemma p_values_probabilities (a b : R) :
  (0 <= a)%R -> (a <= b)%R -> (b <= 1)%R ->
  Forall probability (p_values_on a b).
Proof.
  intros H0 Hab H1. apply Forall_map, Forall_forall. intros x Hx.
  destruct (linspace_In Hab Hx) as (r & -> & Hr).
  apply candidate_p_value_probability; auto. lra.
Qed.

(** The state after the last of [k + 1] rounds. *)
Lemma grid_search_last (k : nat) :
  exists st a b p,
    search (S k) initial_state = Returned st
    /\ (0 <= a)%R /\ (a <= b)%R /\ (b <= 1)%R
    /\ last_round st = Some (p_values_on a b, argmax (p_values_on a b))
    /\ py_index (p_values_on a b) (argmax (p_values_on a b)) = Some (Fin p)
    /\ (0 <= p <= 1)%R.
Proof.
  destruct (@grid_search_invariant gammaln c1 c2 idx idx_shape k)
    as (st & a & b & E & Ha & Hb & H0 & Hab & H1).
  pose proof (@argmax_p_values_range gammaln c1 c2 idx a b) as Hm.
  pose proof (@p_values_length gammaln c1 c2 idx a b) as Hlen.
  pose proof (p_values_probabilities H0 Hab H1) as Hp.
  set (pv := p_values_on a b) in *. set (m := argmax pv) in *.
  destruct (nth_error pv (Z.to_nat m)) as [x|] eqn:Ex.
  2:{ apply nth_error_None in Ex. exfalso. clearbody m pv. lia. }
  assert (Hx : probability x).
  { eapply Forall_forall; [exact Hp|]. eapply nth_error_In; eauto. }
  destruct Hx as (p & -> & Hpr).
  eexists _, a, b, p. split.
  - rewrite grid_search_snoc, E. cbn [bind].
    apply (@grid_round_fin gammaln c1 c2 idx idx_shape st a b Ha Hb).
  - assert (Hidx : 0 <= m < Z.of_nat (length pv)).
    { rewrite Hlen. clearbody m pv. lia. }
    cbn [last_round]. repeat split; auto; try lra.
    change (py_index pv m = Some (Fin p)).
    rewrite (@py_index_nonneg _ pv m Hidx). exact Ex.
Qed.

(** The maximiser returns the p-value of the maximising candidate of the
    last round, a probability. *)
Lemma maximiser_result (n_iter : Z) :
  0 < n_iter ->
  exists st pvals m q p,
    search (Z.to_nat n_iter) initial_state = Returned st
    /\ last_round st = Some (pvals, m)
    /\ m = argmax pvals
    /\ py_index pvals m = Some q
    /\ _binomial_maximisation_of_p_value_with_nuisance_param
         gammaln c1 c2 idx n_iter
       = Returned (if xgt q (Fin 1) then Fin 1 else q)
    /\ (if xgt q (Fin 1) then Fin 1 else q) = Fin p
    /\ (0 <= p <= 1)%R.
Proof.
  intros Hn.
  destruct (grid_search_last (Z.to_nat n_iter - 1))
    as (st & a & b & p & E & H0 & Hab & H1 & El & Ep & Hp).
  replace (S (Z.to_nat n_iter - 1)) with (Z.to_nat n_iter) in E by lia.
  exists st, (p_values_on a b), (argmax (p_values_on a b)), (Fin p), p.
  assert (Eclamp : (if xgt (Fin p) (Fin 1) then Fin 1 else Fin p) = Fin p).
  { unfold xgt, xlt, Rltb. destruct (Rlt_dec 1 p); [lra | reflexivity]. }
  repeat split; auto; try lra.
  unfold _binomial_maximisation_of_p_value_with_nuisance_param.
  rewrite E. cbn [bind]. rewrite El, Ep. reflexivity.
Qed.

End WithMask.

End PValue.

(* ================================================================== *)
(** ** The p-value of the test *)

Module BarnardPValue.

Import XReal NDArray Hypotests NDArrayFacts Int64Facts XRealFacts.
Import Validation StatisticField RejectionMask Grid Bracket Mass PValue.

Local Open Scope Z_scope.

Lemma mask_of_shape (alternative : string) (pooled : bool)
    (c1 c2 a b : Z) :
  0 < c1 -> 0 < c2 -> c1 + c2 < 2 ^ 63 ->
  has_shape (length (x1_arr c1)) (length (x2_arr c2))
            (mask_of alternative pooled c1 c2 a b) = true.
Proof.
  intros H1 H2 Hs.
  rewrite (@x1_arr_eq c1 c2), (@x2_arr_eq c1 c2) by lia.
  apply outer_has_shape.
Qed.

Section WithGammaln.

Variable gammaln : Z -> R.


Lemma nonneg_not_nan (x : xreal) : nonneg x -> is_nan x = false.
Proof. now intros (r & -> & _). Qed.

(** C8: in every round of the grid search (the round run from the state
    reached after any number [k] of rounds), for every candidate of the
    grid and every point (x1,x2) of the sample space: the term
    [log(nuisance) * (x1 + x2)] is replaced by exactly 0 where
    [x1 + x2 = 0] and the term [log(1 - nuisance) * (n - x1 - x2)] by
    exactly 0 where [x1 + x2 = n]; no entry of the probability field,
    before or after normalisation, is not-a-number, nor is the total mass
    of the candidate, nor its p-value.  Likewise no entry of the statistic
    field, from which the rejection mask is formed, is not-a-number. *)
Theorem C8_no_nan (pooled : bool) (c1 c2 : Z) (idx : list (list bool))
    (k : nat) :
  0 < c1 -> 0 < c2 -> c1 + c2 < 2 ^ 63 ->
  has_shape (length (x1_arr c1)) (length (x2_arr c2)) idx = true ->
  (forall x1 x2, 0 <= x1 <= c1 -> 0 <= x2 <= c2 ->
     exists T, py_index2 (wald_statistic_field pooled c1 c2) x1 x2 = Some T
               /\ is_nan T = false)
  /\ exists st lo hi,
       grid_search gammaln c1 c2 idx k initial_state = Returned st
       /\ inf_bound st = Fin lo /\ sup_bound st = Fin hi
       /\ forall nuisance,
            In nuisance (linspace (Fin lo) (Fin hi) nuisance_num) ->
            let tmp_values_arr :=
              tmp_values (n_arr c1 c2) (x1_plus_x2 c1 c2)
                (n_minus_x1_x2 c1 c2) (x1_sum_x2_log_comb gammaln c1 c2)
                nuisance in
            (forall x1 x2, 0 <= x1 <= c1 -> 0 <= x2 <= c2 ->
               (x1 + x2 = 0 ->
                py_index2 (nuisance_power_x1_x2 (x1_plus_x2 c1 c2) nuisance)
                          x1 x2 = Some (Fin 0))
               /\ (x1 + x2 = c1 + c2 ->
                   py_index2
                     (nuisance_power_n_minus_x1_x2 (n_arr c1 c2)
                        (x1_plus_x2 c1 c2) (n_minus_x1_x2 c1 c2) nuisance)
                     x1 x2 = Some (Fin 0))
               /\ (exists v, py_index2 tmp_values_arr x1 x2 = Some v
                             /\ is_nan v = false)
               /\ (exists w, py_index2 (normalise tmp_values_arr) x1 x2
                             = Some w /\ is_nan w = false))
            /\ is_nan (xsum (concat tmp_values_arr)) = false
            /\ is_nan (candidate_p_value (n_arr c1 c2) (x1_plus_x2 c1 c2)
                         (n_minus_x1_x2 c1 c2)
                         (x1_sum_x2_log_comb gammaln c1 c2) idx nuisance)
               = false.
Proof.
  intros H1 H2 Hs Hshape. split.
  - intros x1 x2 Hx1 Hx2. rewrite wald_statistic_field_outer by lia.
    rewrite py_index2_outer_arange by lia.
    eexists; split; [reflexivity|]. now apply spec_statistic_not_nan.
  - destruct (@grid_search_invariant gammaln c1 c2 idx Hshape k)
      as (st & lo & hi & E & Ha & Hb & H0 & Hab & Hhi).
    exists st, lo, hi.
    split; [exact E|]. split; [exact Ha|]. split; [exact Hb|].
    intros nuisance Hin tmp_values_arr. subst tmp_values_arr.
    destruct (linspace_In Hab Hin) as (q & -> & Hq).
    assert (Hq01 : (0 <= q <= 1)%R) by lra.
    rewrite (@tmp_values_outer gammaln c1 c2) by lia.
    destruct (@field_total_positive gammaln c1 c2 H1 H2 Hs q Hq01)
      as (S & ES & HS).
    split; [|split].
    + intros x1 x2 Hx1 Hx2. split; [|split; [|split]].
      * intros Hz.
        rewrite (@nuisance_power_x1_x2_outer c1 c2) by lia.
        rewrite py_index2_outer_arange by lia.
        now rewrite Hz.
      * intros Hz.
        rewrite (@nuisance_power_n_minus_x1_x2_outer c1 c2) by lia.
        rewrite py_index2_outer_arange by lia.
        now rewrite Hz, Z.eqb_refl.
      * rewrite py_index2_outer_arange by lia.
        eexists; split; [reflexivity|].
        apply nonneg_not_nan, tmp_value_at_nonneg; auto; lra.
      * unfold normalise. rewrite ES.
        rewrite map2d_outer, py_index2_outer_arange by lia.
        eexists; split; [reflexivity|].
        destruct (@tmp_value_at_nonneg gammaln c1 c2 H1 H2 Hs q x1 x2)
          as (v & -> & Hv); auto.
        cbn [xdiv]. destruct (Req_dec_T S 0); [lra | reflexivity].
    + now rewrite ES.
    + now destruct (@candidate_p_value_probability gammaln c1 c2 H1 H2 Hs
                      q Hq01 idx) as (p & -> & Hp).
Qed.

End WithGammaln.

End BarnardPValue.

(* ================================================================== *)
(** ** Exchanging the two columns of the table *)

Module Symmetry.

Import XReal NDArray Hypotests NDArrayFacts Int64Facts XRealFacts.
Import Validation StatisticField RejectionMask Grid Bracket Mass PValue.
Import BarnardPValue.

Local Open Scope Z_scope.

(** *** Negation in the exact arithmetic *)

Lemma xneg_zero : xneg (Fin 0) = Fin 0.
Proof. cbn. f_equal. lra. Qed.

Lemma xneg_xsub (x y : xreal) : xsub y x = xneg (xsub x y).
Proof.
  unfold xsub. destruct x, y; cbn; auto. f_equal. lra.
Qed.

Lemma inf_of_sign_opp (r : R) : inf_of_sign (- r) = xneg (inf_of_sign r).
Proof.
  unfold inf_of_sign.
  destruct (Rlt_dec 0 (- r)), (Rlt_dec 0 r), (Rlt_dec (- r) 0),
    (Rlt_dec r 0); cbn; auto; lra.
Qed.

Lemma xdiv_xneg_l (x y : xreal) : xdiv (xneg x) y = xneg (xdiv x y).
Proof.
  destruct x as [a| | |], y as [b| | |]; cbn; auto.
  - destruct (Req_dec_T b 0).
    + apply inf_of_sign_opp.
    + cbn. f_equal. unfold Rdiv. ring.
  - f_equal. lra.
  - f_equal. lra.
  - now destruct (Rlt_dec b 0).
  - now destruct (Rlt_dec b 0).
Qed.

Lemma xeq_sym (x y : xreal) : xeq x y = xeq y x.
Proof.
  destruct x, y; cbn; auto. unfold Reqb.
  destruct (Req_dec_T r r0), (Req_dec_T r0 r); auto; congruence.
Qed.

Lemma xabs_xneg (x : xreal) : xabs (xneg x) = xabs x.
Proof. destruct x; cbn; auto. now rewrite Rabs_Ropp. Qed.

Lemma xle_xneg (x y : xreal) : xle (xneg x) (xneg y) = xle y x.
Proof.
  destruct x, y; cbn; auto. unfold Rleb.
  destruct (Rle_dec (- r) (- r0)), (Rle_dec r0 r); auto; lra.
Qed.

(** *** The statistic and the rejection region *)

Lemma spec_variance_swap (pooled : bool) (c1 c2 x1 x2 : Z) :
  spec_variance pooled c2 c1 x2 x1 = spec_variance pooled c1 c2 x1 x2.
Proof.
  unfold spec_variance, spec_p1, spec_p2. destruct pooled.
  - rewrite (Z.add_comm x2 x1), (Z.add_comm c2 c1). f_equal.
    apply xadd_comm.
  - apply xadd_comm.
Qed.

Lemma spec_statistic_swap (pooled : bool) (c1 c2 x1 x2 : Z) :
  spec_statistic pooled c2 c1 x2 x1
  = xneg (spec_statistic pooled c1 c2 x1 x2).
Proof.
  unfold spec_statistic. rewrite spec_variance_swap.
  unfold spec_p1, spec_p2.
  rewrite (xeq_sym (xdiv (of_int x2) (of_int c2))).
  destruct (xeq _ _).
  - now rewrite xneg_zero.
  - rewrite <- xdiv_xneg_l. f_equal. apply xneg_xsub.
Qed.

Lemma spec_rejects_swap (alternative : string) (t t0 : xreal) :
  recognised alternative ->
  spec_rejects (swap_alternative alternative) (xneg t) (xneg t0)
  = spec_rejects alternative t t0.
Proof.
  intros [-> | [-> | ->]]; cbn; unfold xge.
  - now rewrite !xabs_xneg.
  - apply xle_xneg.
  - apply xle_xneg.
Qed.

Lemma swap_alternative_recognised (alternative : string) :
  recognised alternative -> recognised (swap_alternative alternative).
Proof.
  unfold recognised. intros [-> | [-> | ->]]; cbn; auto.
Qed.

Lemma mask_of_swap (alternative : string) (pooled : bool) (c1 c2 a b : Z) :
  recognised alternative ->
  mask_of (swap_alternative alternative) pooled c2 c1 b a
  = outer (fun x2 x1 =>
             spec_rejects alternative (spec_statistic pooled c1 c2 x1 x2)
                          (spec_statistic pooled c1 c2 a b))
          (arange (c2 + 1)) (arange (c1 + 1)).
Proof.
  intros Halt. unfold mask_of. apply outer_ext. intros x2 x1 _ _.
  rewrite !(spec_statistic_swap pooled c1 c2).
  now apply spec_rejects_swap.
Qed.

(** *** Double sums *)

Lemma xsum_concat (L : list (list xreal)) :
  xsum (concat L) = xsum (map xsum L).
Proof.
  induction L as [|l L IH]; [reflexivity|].
  cbn [concat map]. now rewrite xsum_app, xsum_cons, IH.
Qed.

Lemma xsum_map_add {A : Type} (f g : A -> xreal) (l : list A) :
  xsum (map (fun a => xadd (f a) (g a)) l)
  = xadd (xsum (map f l)) (xsum (map g l)).
Proof.
  induction l as [|a l IH]; cbn [map].
  - unfold xsum. cbn. f_equal. lra.
  - rewrite !xsum_cons, IH.
    rewrite <- !xadd_assoc. f_equal.
    rewrite !xadd_assoc. f_equal. apply xadd_comm.
Qed.

Lemma xsum_map_zero {A : Type} (l : list A) :
  xsum (map (fun _ => Fin 0) l) = Fin 0.
Proof.
  induction l as [|a l IH]; [reflexivity|].
  cbn [map]. rewrite xsum_cons, IH. cbn. f_equal. lra.
Qed.

Lemma dsum_exchange {A B : Type} (h : A -> B -> xreal)
    (col : list A) (row : list B) :
  dsum h col row = dsum (fun b a => h a b) row col.
Proof.
  unfold dsum. induction col as [|a col IH]; cbn [map].
  - now rewrite xsum_map_zero.
  - rewrite xsum_cons, IH.
    rewrite <- xsum_map_add. reflexivity.
Qed.

Lemma dsum_ext {A B : Type} (h k : A -> B -> xreal)
    (col : list A) (row : list B) :
  (forall a b, In a col -> In b row -> h a b = k a b) ->
  dsum h col row = dsum k col row.
Proof.
  intros H. unfold dsum. f_equal. apply map_ext_in. intros a Ha.
  f_equal. apply map_ext_in. intros b Hb. now apply H.
Qed.

Lemma xsum_concat_outer {A B : Type} (h : A -> B -> xreal)
    (col : list A) (row : list B) :
  xsum (concat (outer h col row)) = dsum h col row.
Proof.
  rewrite xsum_concat. unfold outer, dsum. now rewrite map_map.
Qed.

Lemma xsum_select_row {B : Type} (m : B -> bool) (g : B -> xreal)
    (row : list B) :
  xsum (concat (zip (fun (t : bool) x => if t then [x] else [])
                    (map m row) (map g row)))
  = xsum (map (fun b => if m b then g b else Fin 0) row).
Proof.
  induction row as [|b row IH]; [reflexivity|].
  cbn [map zip concat]. rewrite xsum_app, xsum_cons, IH.
  destruct (m b).
  - unfold xsum at 1. cbn [fold_right]. now rewrite xadd_0_r.
  - reflexivity.
Qed.

Lemma xsum_select_outer {A B : Type} (m : A -> B -> bool)
    (g : A -> B -> xreal) (col : list A) (row : list B) :
  xsum (select (outer m col row) (outer g col row))
  = dsum (fun a b => if m a b then g a b else Fin 0) col row.
Proof.
  unfold select, outer, dsum. rewrite zip_map_same, xsum_concat, map_map.
  f_equal. apply map_ext. intros a. apply xsum_select_row.
Qed.

(** *** The maximiser on the transposed sample space *)

Section Transposed.

Variable gammaln : Z -> R.
Variables (c1 c2 : Z) (m : Z -> Z -> bool).
Hypotheses (Hc1 : 0 < c1) (Hc2 : 0 < c2) (Hsum : c1 + c2 < 2 ^ 63).

Local Abbreviation idx :=
  (outer m (arange (c1 + 1)) (arange (c2 + 1))).
Local Abbreviation idx' :=
  (outer (fun b a => m a b) (arange (c2 + 1)) (arange (c1 + 1))).

Lemma tmp_value_at_swap (nuisance : xreal) (x1 x2 : Z) :
  tmp_value_at gammaln c2 c1 nuisance x2 x1
  = tmp_value_at gammaln c1 c2 nuisance x1 x2.
Proof.
  unfold tmp_value_at.
  rewrite (Z.add_comm x2 x1), (Z.add_comm c2 c1).
  rewrite (xadd_comm (log_comb_at gammaln c2 x2)).
  replace (c1 + c2 - x2 - x1) with (c1 + c2 - x1 - x2) by lia.
  reflexivity.
Qed.

Lemma total_mass_swap (nuisance : xreal) :
  xsum (concat (outer (tmp_value_at gammaln c2 c1 nuisance)
                      (arange (c2 + 1)) (arange (c1 + 1))))
  = xsum (concat (outer (tmp_value_at gammaln c1 c2 nuisance)
                        (arange (c1 + 1)) (arange (c2 + 1)))).
Proof.
  rewrite !xsum_concat_outer, dsum_exchange.
  apply dsum_ext. intros a b _ _. apply tmp_value_at_swap.
Qed.

Lemma candidate_p_value_swap (nuisance : xreal) :
  candidate_p_value (n_arr c2 c1) (x1_plus_x2 c2 c1) (n_minus_x1_x2 c2 c1)
    (x1_sum_x2_log_comb gammaln c2 c1) idx' nuisance
  = candidate_p_value (n_arr c1 c2) (x1_plus_x2 c1 c2) (n_minus_x1_x2 c1 c2)
      (x1_sum_x2_log_comb gammaln c1 c2) idx nuisance.
Proof.
  unfold candidate_p_value.
  rewrite (@tmp_values_outer gammaln c1 c2) by lia.
  rewrite (@tmp_values_outer gammaln c2 c1) by lia.
  unfold normalise. rewrite total_mass_swap.
  rewrite !map2d_outer, !xsum_select_outer.
  rewrite dsum_exchange. apply dsum_ext. intros a b _ _.
  now rewrite tmp_value_at_swap.
Qed.

Lemma transposed_idx_shape :
  has_shape (length (x1_arr c1)) (length (x2_arr c2)) idx = true.
Proof.
  rewrite (@x1_arr_eq c1 c2), (@x2_arr_eq c1 c2) by lia.
  apply outer_has_shape.
Qed.

Lemma transposed_idx'_shape :
  has_shape (length (x1_arr c2)) (length (x2_arr c1)) idx' = true.
Proof.
  rewrite (@x1_arr_eq c2 c1), (@x2_arr_eq c2 c1) by lia.
  apply outer_has_shape.
Qed.

Lemma grid_round_swap (st : search_state) :
  grid_round gammaln c2 c1 idx' st = grid_round gammaln c1 c2 idx st.
Proof.
  unfold grid_round.
  rewrite transposed_idx_shape, transposed_idx'_shape. cbn [negb]. cbv zeta.
  now rewrite (map_ext _ _ candidate_p_value_swap).
Qed.

Lemma grid_search_swap (k : nat) (st : search_state) :
  grid_search gammaln c2 c1 idx' k st = grid_search gammaln c1 c2 idx k st.
Proof.
  revert st. induction k as [|k IH]; intros st; [reflexivity|].
  cbn [grid_search]. rewrite grid_round_swap.
  destruct (grid_round gammaln c1 c2 idx st); [reflexivity|].
  cbn [bind]. apply IH.
Qed.

Lemma maximiser_swap (n_iter : Z) :
  _binomial_maximisation_of_p_value_with_nuisance_param
    gammaln c2 c1 idx' n_iter
  = _binomial_maximisation_of_p_value_with_nuisance_param
      gammaln c1 c2 idx n_iter.
Proof.
  unfold _binomial_maximisation_of_p_value_with_nuisance_param.
  now rewrite grid_search_swap.
Qed.

End Transposed.

Section WithGammaln.

Variable gammaln : Z -> R.

(** In exact arithmetic, on a valid table with no zero-sum column, with a
    recognised alternative and [n_iter > 0], the call on the table with its
    two columns exchanged, with "less" and "greater" exchanged and
    "two-sided" kept, returns the negated statistic and the same p-value as
    the call on the table itself.  The two calls add the same terms in
    different orders; sums of float64 values depend on the order, so the
    equality of the p-values is a fact of the exact sums only. *)
Lemma column_swap_exact (a b c d : Z) (alternative : string) (pooled : bool)
    (n_iter : Z) :
  valid_table a b c d -> 0 < a + c -> 0 < b + d ->
  recognised alternative -> 0 < n_iter ->
  exists tr s p,
    barnard_exact gammaln [[a; b]; [c; d]] alternative pooled n_iter
    = (tr, Returned {| statistic := s; pvalue := Fin p |})
    /\ barnard_exact gammaln [[b; a]; [d; c]]
         (swap_alternative alternative) pooled n_iter
       = (tr, Returned {| statistic := xneg s; pvalue := Fin p |}).
Proof.
  intros Hv H1 H2 Halt Hn. pose proof Hv as (Ha & Hb & Hc & Hd & Htot).
  assert (Hv' : valid_table b a d c) by (unfold valid_table; lia).
  rewrite (@barnard_exact_recognised gammaln a b c d) by auto.
  rewrite (@barnard_exact_recognised gammaln b a d c)
    by auto using swap_alternative_recognised.
  rewrite mask_of_swap by assumption.
  rewrite (@maximiser_swap gammaln (a + c) (b + d)
             (fun x1 x2 =>
                spec_rejects alternative
                  (spec_statistic pooled (a + c) (b + d) x1 x2)
                  (spec_statistic pooled (a + c) (b + d) a b)))
    by lia.
  rewrite (spec_statistic_swap pooled (a + c) (b + d) a b).
  destruct (@maximiser_result gammaln (a + c) (b + d)
              (mask_of alternative pooled (a + c) (b + d) a b))
    with (n_iter := n_iter)
    as (st & pvals & i & q & p & _ & _ & _ & _ & Er & Ep & Hp);
    try lia.
  { apply mask_of_shape; lia. }
  unfold mask_of in Er |- *. rewrite Er, Ep. cbn [bind].
  eexists _, _, p. split; reflexivity.
Qed.

End WithGammaln.

End Symmetry.

(* ================================================================== *)
(** ** The theorems at concrete inputs *)

Module Examples.

Import XReal NDArray Hypotests.

Local Open Scope Z_scope.

(** The table of the docstring of [barnard_exact]. *)
Lemma vaccine_table_valid : valid_table 7 12 8 3.
Proof. unfold valid_table. lia. Defined.

Lemma less_recognised : recognised "less".
Proof. right. left. reflexivity. Defined.

Lemma foo_unrecognised : ~ recognised "foo".
Proof. intros [H|[H|H]]; discriminate H. Defined.

Lemma C1_witness :
  exists T,
    py_index2 (wald_statistic_field true (Int64.add 7 8) (Int64.add 12 3))
              7 12 = Some T
    /\ is_nan T = false.
Proof.
  destruct (@StatisticField.C1_wald_statistic_field true 7 12 8 3 7 12
              vaccine_table_valid)
    as (T & E & _ & _ & _ & Hn); try lia.
  exists T. split; assumption.
Defined.


Lemma C3_witness :
  barnard_exact lgamma_int [[0; 3]; [0; 5]] "two-sided" false 3
  = ([], Returned {| statistic := NaN; pvalue := Fin 1 |}).
Proof.
  apply (@Validation.C3_zero_sum_column lgamma_int 0 3 0 5 "two-sided"
           false 3); lia.
Defined.

Lemma C4_witness :
  exists T0 mask,
    py_index2 (wald_statistic_field true (Int64.add 7 8) (Int64.add 12 3))
              7 12 = Some T0
    /\ rejection_region "less"
         (wald_statistic_field true (Int64.add 7 8) (Int64.add 12 3)) T0
       = Returned mask.
Proof.
  destruct (@RejectionMask.C4_rejection_mask lgamma_int 7 12 8 3 "less"
              true 3 vaccine_table_valid)
    as (T0 & mask & E0 & Em & _); try lia.
  - exact less_recognised.
  - exists T0, mask. split; assumption.
Defined.

Lemma C5_witness :
  exists st,
    grid_search lgamma_int 1 1 [[true; false]; [true; true]] 1
      initial_state = Returned st.
Proof.
  destruct (@Bracket.C5_bracket_narrows lgamma_int 1 1
              [[true; false]; [true; true]] eq_refl)
    as (_ & _ & H).
  destruct (H 0%nat) as (st & st' & a & b & a' & b' & m & _ & _ & E & _).
  exists st'. exact E.
Defined.

Lemma C6_witness :
  barnard_exact lgamma_int [[7; 12]; [8; 3]] "foo" true 3
  = ([WaldStatisticField; RejectionRegion],
     Raised (ValueError AlternativeUnknown)).
Proof.
  apply (@RejectionMask.C6_unrecognised_alternative lgamma_int 7 12 8 3
           "foo" true 3 vaccine_table_valid); try lia.
  exact foo_unrecognised.
Defined.

Lemma C7_witness :
  fst (barnard_exact lgamma_int [[1; 2; 3]; [4; 5; 6]] "less" true 3) = []
  /\ InvalidArgument
       (snd (barnard_exact lgamma_int [[1; 2; 3]; [4; 5; 6]] "less" true 3)).
Proof.
  apply (@Validation.C7_invalid_arguments lgamma_int
           [[1; 2; 3]; [4; 5; 6]] "less" true 3).
  right. split; [|left; reflexivity].
  repeat constructor; unfold Int64.in_range; lia.
Defined.

Lemma C8_witness :
  exists st lo hi,
    grid_search lgamma_int 1 1 [[true; false]; [true; true]] 2
      initial_state = Returned st
    /\ inf_bound st = Fin lo /\ sup_bound st = Fin hi.
Proof.
  destruct (@BarnardPValue.C8_no_nan lgamma_int true 1 1
              [[true; false]; [true; true]] 2)
    as (_ & st & lo & hi & E & Hlo & Hhi & _); try lia.
  - reflexivity.
  - exists st, lo, hi. repeat split; assumption.
Defined.

Lemma C10_witness :
  barnard_exact lgamma_int [[0; 1]; [0; 1]] "foo" true 0
  = ([], Raised (ValueError NIterNotPositive))
  /\ barnard_exact lgamma_int [[- 2 ^ 64; 0]; [1; 0]] "foo" true 3
     = ([], Raised OverflowError)
  /\ barnard_exact lgamma_int [[-1; 0]; [1; 0]] "foo" true 3
     = ([], Raised (ValueError TableNegative))
  /\ barnard_exact lgamma_int [[0; 1]; [0; 1]] "foo" true 3
     = ([], Returned {| statistic := NaN; pvalue := Fin 1 |}).
Proof.
  destruct (@Validation.C10_validation_order lgamma_int)
    as (Hn & Hov & _ & Hneg & Hdeg).
  split; [|split; [|split]].
  - apply Hn. lia.
  - apply Hov; [lia|]. unfold Int64.in_range. lia.
  - apply Hneg; unfold Int64.in_range; lia.
  - apply Hdeg; lia.
Defined.

End Examples.

(* ================================================================== *)
(** ** Further properties of the Barnard code *)

Module LogCombinations.

Import XReal NDArray Hypotests NDArrayFacts Int64Facts XRealFacts.

Local Open Scope Z_scope.

Lemma zip_nth_error {A B C : Type} (f : A -> B -> C)
    (l1 : list A) (l2 : list B) (i : nat) :
  nth_error (zip f l1 l2) i
  = match nth_error l1 i, nth_error l2 i with
    | Some a, Some b => Some (f a b)
    | _, _ => None
    end.
Proof.
  revert l2 i. induction l1 as [|a l1 IH]; intros [|b l2] [|i]; cbn; auto.
  now destruct (nth_error l1 i).
Qed.

Section WithGammaln.

Variable gammaln : Z -> R.

(** X1: for [0 <= n] (with [n + 1] an int64 value)
    [_compute_log_combinations n] has [n + 1] entries, and the entry [k] is
    [(gammaln(n+1) - gammaln(k+1)) - gammaln(n-k+1)], the logarithm of the
    binomial coefficient C(n, k): the reversed array contributes the entry
    [n - k] of [gammaln_arr], and no index wraps around. *)
Theorem X1_log_combinations (n : Z) :
  0 <= n -> n + 1 < 2 ^ 63 ->
  length (_compute_log_combinations gammaln n) = Z.to_nat (n + 1)
  /\ forall k, 0 <= k <= n ->
       py_index (_compute_log_combinations gammaln n) k
       = Some (Fin (gammaln (n + 1) - gammaln (k + 1)
                    - gammaln (n - k + 1))).
Proof.
  intros Hn Hr.
  assert (Hlen : length (_compute_log_combinations gammaln n)
                 = Z.to_nat (n + 1)).
  { unfold _compute_log_combinations.
    rewrite zip_length, length_rev, !length_map, arange_length.
    rewrite add_small by lia. lia. }
  split; [exact Hlen|].
  intros k Hk. rewrite py_index_nonneg by (rewrite Hlen; lia).
  unfold _compute_log_combinations. rewrite (add_small n 1) by lia.
  rewrite zip_nth_error, nth_error_rev, !nth_error_map, !length_map,
    arange_length.
  destruct (Nat.ltb_spec (Z.to_nat k) (Z.to_nat (n + 1))); [|lia].
  rewrite !arange_nth_error by lia. cbn.
  rewrite !add_small by lia. do 2 f_equal.
  replace (Z.of_nat (Z.to_nat k)) with k by lia.
  replace (Z.of_nat (Z.to_nat (n + 1) - S (Z.to_nat k))) with (n - k)
    by lia.
  unfold Rminus. ring.
Qed.

End WithGammaln.

End LogCombinations.

Module ArgMax.

Import XReal NDArray Hypotests NDArrayFacts XRealFacts.

Local Open Scope Z_scope.

(** *** The order of the values that are not not-a-number *)

Ltac order_cases :=
  unfold Rleb, Rltb in *;
  repeat match goal with
         | H : context [Rle_dec ?x ?y] |- _ => destruct (Rle_dec x y)
         | H : context [Rlt_dec ?x ?y] |- _ => destruct (Rlt_dec x y)
         | |- context [Rle_dec ?x ?y] => destruct (Rle_dec x y)
         | |- context [Rlt_dec ?x ?y] => destruct (Rlt_dec x y)
         end;
  try reflexivity; try discriminate; try lra.

Lemma xle_refl (x : xreal) : is_nan x = false -> xle x x = true.
Proof. destruct x; cbn; intros; order_cases. Qed.

Lemma xle_false_xlt (x y : xreal) :
  is_nan x = false -> is_nan y = false ->
  xle x y = false -> xlt y x = true.
Proof. destruct x, y; cbn; intros; order_cases. Qed.

Lemma xlt_xle (x y : xreal) : xlt x y = true -> xle x y = true.
Proof. destruct x, y; cbn; intros; order_cases. Qed.

Lemma xle_xlt_trans (x y z : xreal) :
  xle x y = true -> xlt y z = true -> xlt x z = true.
Proof. destruct x, y, z; cbn; intros; order_cases. Qed.

Lemma xlt_trans (x y z : xreal) :
  xlt x y = true -> xlt y z = true -> xlt x z = true.
Proof. destruct x, y, z; cbn; intros; order_cases. Qed.

Lemma xle_trans (x y z : xreal) :
  xle x y = true -> xle y z = true -> xle x z = true.
Proof. destruct x, y, z; cbn; intros; order_cases. Qed.

Lemma xlt_not_nan_r (x y : xreal) : xlt x y = true -> is_nan y = false.
Proof. destruct x, y; cbn; intros; order_cases. Qed.

(** *** The scan of [argmax] *)

(** Either the running maximum survives the scan, and nothing in the list
    exceeds it, or the scan stops at the first entry of the list that is
    the largest, and that entry exceeds the running maximum. *)
Lemma argmax_scan_spec (l : list xreal) (mp : xreal) (mi i : Z) :
  Forall (fun x => is_nan x = false) l -> is_nan mp = false ->
  let r := argmax_scan mp mi i l in
  (r = mi /\ forall x, In x l -> xle x mp = true)
  \/ (i <= r < i + Z.of_nat (length l)
      /\ exists v,
           nth_error l (Z.to_nat (r - i)) = Some v
           /\ xlt mp v = true
           /\ (forall x, In x l -> xle x v = true)
           /\ (forall j w, (j < Z.to_nat (r - i))%nat ->
                 nth_error l j = Some w -> xlt w v = true)).
Proof.
  intros Hl. revert mp mi i.
  induction Hl as [|x l Hx Hl IH]; intros mp mi i Hmp r.
  - left. split; [reflexivity|]. intros x [].
  - subst r. cbn [argmax_scan]. destruct (xle x mp) eqn:Ex; cbn [negb].
    + specialize (IH mp mi (i + 1) Hmp). cbv zeta in IH.
      destruct IH as [[Er Hall]|(Hr & v & Hv & Hlt & Hall & Hbefore)].
      * left. split; [exact Er|]. intros y [<-|Hy]; auto.
      * right. split; [cbn [length]; lia|]. exists v.
        replace (Z.to_nat (argmax_scan mp mi (i + 1) l - i))
          with (S (Z.to_nat (argmax_scan mp mi (i + 1) l - (i + 1))))
          by lia.
        cbn [nth_error]. repeat split; auto.
        -- intros y [<-|Hy]; auto.
           apply xlt_xle. eapply xle_xlt_trans; eauto.
        -- intros [|j] w Hj Hw; cbn in Hw.
           ++ injection Hw as <-. eapply xle_xlt_trans; eauto.
           ++ apply (Hbefore j); auto. lia.
    + rewrite Hx.
      pose proof (@xle_false_xlt x mp Hx Hmp Ex) as Hlt0.
      specialize (IH x i (i + 1) Hx). cbv zeta in IH.
      destruct IH as [[Er Hall]|(Hr & v & Hv & Hlt & Hall & Hbefore)].
      * right. rewrite Er. split; [cbn [length]; lia|]. exists x.
        replace (Z.to_nat (i - i)) with 0%nat by lia. cbn [nth_error].
        repeat split; auto.
        -- intros y [<-|Hy]; auto. now apply xle_refl.
        -- intros j w Hj. lia.
      * right. split; [cbn [length]; lia|]. exists v.
        replace (Z.to_nat (argmax_scan x i (i + 1) l - i))
          with (S (Z.to_nat (argmax_scan x i (i + 1) l - (i + 1))))
          by lia.
        cbn [nth_error]. repeat split; auto.
        -- eapply xlt_trans; eauto.
        -- intros y [<-|Hy]; auto. now apply xlt_xle.
        -- intros [|j] w Hj Hw; cbn in Hw.
           ++ now injection Hw as <-.
           ++ apply (Hbefore j); auto. lia.
Qed.

(** On a non-empty array without not-a-number, [argmax] returns the index
    of an entry that no entry exceeds, and the first such index: every
    entry before it is strictly smaller. *)
Lemma argmax_first_maximum (l : list xreal) :
  l <> [] -> Forall (fun x => is_nan x = false) l ->
  exists v,
    py_index l (argmax l) = Some v
    /\ (forall x, In x l -> xle x v = true)
    /\ (forall i w, 0 <= i < argmax l -> py_index l i = Some w ->
          xlt w v = true).
Proof.
  intros Hne Hl. destruct l as [|x l]; [congruence|].
  inversion Hl as [|? ? Hx Hl']; subst.
  pose proof (@Grid.argmax_range (x :: l) Hne) as Hrange.
  cbn [argmax] in *. rewrite Hx in *.
  destruct (@argmax_scan_spec l x 0 1 Hl' Hx)
    as [[Er Hall]|(Hr & v & Hv & Hlt & Hall & Hbefore)].
  - rewrite Er. exists x. split; [reflexivity|]. split.
    + intros y [<-|Hy]; auto. now apply xle_refl.
    + intros i w Hi. lia.
  - set (r := argmax_scan x 0 1 l) in *. exists v.
    rewrite py_index_nonneg by (cbn [length]; lia).
    replace (Z.to_nat r) with (S (Z.to_nat (r - 1))) by lia.
    cbn [nth_error]. split; [exact Hv|]. split.
    + intros y [<-|Hy]; auto. now apply xlt_xle.
    + intros i w Hi. rewrite py_index_nonneg by (cbn [length]; lia).
      destruct (Z.to_nat i) as [|j] eqn:Ei; cbn [nth_error]; intros Hw.
      * now injection Hw as <-.
      * apply (Hbefore j); auto. lia.
Qed.

End ArgMax.

Module MaximiserFacts.

Import XReal NDArray Hypotests NDArrayFacts Int64Facts XRealFacts.
Import Grid Bracket Mass PValue ArgMax.

Local Open Scope Z_scope.

Lemma grid_point_strict (a b : R) (i j : Z) :
  (a < b)%R -> i < j -> (grid_point a b i < grid_point a b j)%R.
Proof.
  intros Hab Hij. unfold grid_point.
  apply Rplus_lt_compat_l, Rmult_lt_compat_r; [lra|]. now apply IZR_lt.
Qed.

Lemma narrowed_strict (a b : R) (m : Z) :
  (a < b)%R -> 0 <= m <= 99 ->
  (narrowed_inf a b m < narrowed_sup a b m)%R.
Proof.
  intros Hab Hm. unfold narrowed_inf, narrowed_sup.
  destruct (Z.gtb_spec m 0), (Z.ltb_spec m 99).
  - apply grid_point_strict; auto; lia.
  - rewrite <- (grid_point_last a b) at 2.
    apply grid_point_strict; auto; lia.
  - rewrite <- (grid_point_first a b) at 1.
    apply grid_point_strict; auto; lia.
  - lia.
Qed.

Lemma probability_not_nan (x : xreal) : probability x -> is_nan x = false.
Proof. now intros (r & -> & _). Qed.

Section WithMask.

Variable gammaln : Z -> R.
Variables (c1 c2 : Z) (idx : list (list bool)).

Hypotheses (Hc1 : 0 < c1) (Hc2 : 0 < c2) (Hsum : c1 + c2 < 2 ^ 63).
Hypothesis idx_shape :
  has_shape (length (x1_arr c1)) (length (x2_arr c2)) idx = true.

Local Abbreviation search := (grid_search gammaln c1 c2 idx).
Local Abbreviation p_value_of :=
  (candidate_p_value (n_arr c1 c2) (x1_plus_x2 c1 c2) (n_minus_x1_x2 c1 c2)
     (x1_sum_x2_log_comb gammaln c1 c2) idx).
Local Abbreviation p_values_on a b :=
  (map p_value_of (linspace (Fin a) (Fin b) nuisance_num)).

(** The bracket never collapses: after any number of rounds
    0 <= inf < sup <= 1. *)
Lemma grid_search_invariant_strict (k : nat) :
  exists st a b,
    search k initial_state = Returned st
    /\ inf_bound st = Fin a /\ sup_bound st = Fin b
    /\ (0 <= a)%R /\ (a < b)%R /\ (b <= 1)%R.
Proof.
  induction k as [|k (st & a & b & E & Ha & Hb & H0 & Hab & H1)].
  - exists initial_state, 0%R, 1%R. cbn. repeat split; auto; lra.
  - rewrite grid_search_snoc, E. cbn [bind].
    rewrite (@grid_round_fin gammaln c1 c2 idx idx_shape st a b Ha Hb).
    pose proof (@argmax_p_values_range gammaln c1 c2 idx a b) as Hm.
    assert (Hab' : (a <= b)%R) by lra.
    destruct (narrowed_bounds Hab' Hm) as (B1 & B2 & B3).
    pose proof (narrowed_strict Hab Hm) as B4.
    eexists _, _, _. split; [reflexivity|]. cbn [inf_bound sup_bound].
    repeat split; auto; lra.
Qed.

(** The result of the maximiser in terms of the candidates of its last
    round. *)
Lemma maximiser_last_round (n_iter : Z) :
  0 < n_iter ->
  exists st a b p,
    search (Z.to_nat n_iter) initial_state = Returned st
    /\ (0 <= a)%R /\ (a < b)%R /\ (b <= 1)%R
    /\ last_round st = Some (p_values_on a b, argmax (p_values_on a b))
    /\ py_index (p_values_on a b) (argmax (p_values_on a b)) = Some (Fin p)
    /\ (0 <= p <= 1)%R
    /\ _binomial_maximisation_of_p_value_with_nuisance_param
         gammaln c1 c2 idx n_iter = Returned (Fin p)
    /\ (forall x, In x (p_values_on a b) ->
          exists r, x = Fin r /\ (0 <= r <= p)%R)
    /\ (forall i r, 0 <= i < argmax (p_values_on a b) ->
          py_index (p_values_on a b) i = Some (Fin r) -> (r < p)%R).
Proof.
  intros Hn.
  destruct (grid_search_invariant_strict (Z.to_nat n_iter - 1))
    as (st & a & b & E & Ha & Hb & H0 & Hab & H1).
  assert (Hab' : (a <= b)%R) by lra.
  pose proof (@p_values_probabilities gammaln c1 c2 idx Hc1 Hc2 Hsum a b
                H0 Hab' H1) as Hp.
  pose proof (@p_values_length gammaln c1 c2 idx a b) as Hlen.
  assert (Hne : p_values_on a b <> []).
  { intros E0. rewrite E0 in Hlen. discriminate. }
  assert (Hnan : Forall (fun x => is_nan x = false) (p_values_on a b)).
  { eapply Forall_impl; [|exact Hp]. apply probability_not_nan. }
  destruct (argmax_first_maximum Hne Hnan) as (v & Ev & Hmax & Hfirst).
  assert (Hv : probability v).
  { eapply Forall_forall; [exact Hp|].
    pose proof (@argmax_p_values_range gammaln c1 c2 idx a b) as Hm.
    rewrite py_index_nonneg in Ev by (rewrite Hlen; lia).
    eapply nth_error_In; eauto. }
  destruct Hv as (p & -> & Hpr).
  eexists _, a, b, p.
  split.
  { replace (Z.to_nat n_iter) with (S (Z.to_nat n_iter - 1)) by lia.
    rewrite grid_search_snoc, E. cbn [bind].
    apply (@grid_round_fin gammaln c1 c2 idx idx_shape st a b Ha Hb). }
  cbn [last_round].
  split; [exact H0|]. split; [exact Hab|]. split; [exact H1|].
  split; [reflexivity|]. split; [exact Ev|]. split; [exact Hpr|].
  split; [|split].
  - unfold _binomial_maximisation_of_p_value_with_nuisance_param.
    replace (Z.to_nat n_iter) with (S (Z.to_nat n_iter - 1)) by lia.
    rewrite grid_search_snoc, E. cbn [bind].
    rewrite (@grid_round_fin gammaln c1 c2 idx idx_shape st a b Ha Hb).
    cbn [bind last_round]. rewrite Ev. cbn [of_option bind].
    unfold xgt, xlt, Rltb. destruct (Rlt_dec 1 p); [lra | reflexivity].
  - intros x Hx. pose proof (Hmax x Hx) as Hle.
    assert (Hxp : probability x) by (eapply Forall_forall; eauto).
    destruct Hxp as (r & -> & Hr). exists r. split; [reflexivity|].
    cbn in Hle. apply Rleb_true in Hle. lra.
  - intros i r Hi Hir. pose proof (Hfirst i (Fin r) Hi Hir) as Hlt.
    cbn in Hlt. now apply Rltb_true in Hlt.
Qed.


End WithMask.

End MaximiserFacts.

Module BarnardFacts.

Import XReal NDArray Hypotests NDArrayFacts Int64Facts XRealFacts.
Import Validation StatisticField RejectionMask Grid Bracket Mass PValue.
Import BarnardPValue Symmetry ArgMax MaximiserFacts.

Local Open Scope Z_scope.

Lemma spec_rejects_refl (alternative : string) (t : xreal) :
  recognised alternative -> is_nan t = false ->
  spec_rejects alternative t t = true.
Proof.
  intros [-> | [-> | ->]] Ht; cbn; unfold xge; apply xle_refl; auto.
  now destruct t.
Qed.

(** The two estimated proportions are equal exactly when the counts are
    proportional. *)
Lemma proportions_xeq (c1 c2 x1 x2 : Z) :
  0 < c1 -> 0 < c2 ->
  xeq (spec_p1 c1 x1) (spec_p2 c2 x2) = true <-> x1 * c2 = x2 * c1.
Proof.
  intros H1 H2. unfold spec_p1, spec_p2.
  rewrite !xdiv_of_int by lia. cbn [xeq]. rewrite Reqb_true.
  assert (P1 : (0 < IZR c1)%R) by now apply IZR_lt.
  assert (P2 : (0 < IZR c2)%R) by now apply IZR_lt.
  split.
  - intros E. apply eq_IZR. rewrite !mult_IZR.
    apply (f_equal (fun r => (r * IZR c1 * IZR c2)%R)) in E.
    field_simplify in E; lra.
  - intros E. apply (f_equal IZR) in E. rewrite !mult_IZR in E.
    apply Rmult_eq_reg_r with (IZR c1 * IZR c2)%R.
    + field_simplify; lra.
    + apply Rmult_integral_contrapositive_currified; lra.
Qed.

Lemma proportions_lt (c1 c2 x1 x2 : Z) :
  0 < c1 -> 0 < c2 ->
  (IZR x1 / IZR c1 < IZR x2 / IZR c2)%R <-> x1 * c2 < x2 * c1.
Proof.
  intros H1 H2.
  assert (P1 : (0 < IZR c1)%R) by now apply IZR_lt.
  assert (P2 : (0 < IZR c2)%R) by now apply IZR_lt.
  assert (E : (IZR x2 / IZR c2 - IZR x1 / IZR c1
               = (IZR x2 * IZR c1 - IZR x1 * IZR c2) / (IZR c1 * IZR c2))%R).
  { field. lra. }
  assert (Pc : (0 < / (IZR c1 * IZR c2))%R).
  { apply Rinv_0_lt_compat, Rmult_lt_0_compat; lra. }
  split.
  - intros Hlt. apply lt_IZR. rewrite !mult_IZR.
    assert (Hd : (0 < (IZR x2 * IZR c1 - IZR x1 * IZR c2)
                      / (IZR c1 * IZR c2))%R) by (rewrite <- E; lra).
    unfold Rdiv in Hd.
    destruct (Rle_or_lt (IZR x2 * IZR c1 - IZR x1 * IZR c2) 0) as [Hle|Hgt];
      [|lra].
    exfalso.
    assert (((IZR x2 * IZR c1 - IZR x1 * IZR c2)
             * / (IZR c1 * IZR c2) <= 0)%R); [|lra].
    rewrite <- (Rmult_0_l (/ (IZR c1 * IZR c2))).
    apply Rmult_le_compat_r; lra.
  - intros Hlt. apply IZR_lt in Hlt. rewrite !mult_IZR in Hlt.
    assert (Hd : (0 < (IZR x2 * IZR c1 - IZR x1 * IZR c2)
                      / (IZR c1 * IZR c2))%R).
    { unfold Rdiv. apply Rmult_lt_0_compat; lra. }
    rewrite <- E in Hd. lra.
Qed.

(** The sign of the statistic at a point of the sample space is the sign
    of [x1/c1 - x2/c2]. *)
Lemma spec_statistic_sign (pooled : bool) (c1 c2 x1 x2 : Z) :
  0 < c1 -> 0 < c2 -> 0 <= x1 <= c1 -> 0 <= x2 <= c2 ->
  (spec_statistic pooled c1 c2 x1 x2 = Fin 0 <-> x1 * c2 = x2 * c1)
  /\ (xlt (Fin 0) (spec_statistic pooled c1 c2 x1 x2) = true
      <-> x2 * c1 < x1 * c2)
  /\ (xlt (spec_statistic pooled c1 c2 x1 x2) (Fin 0) = true
      <-> x1 * c2 < x2 * c1).
Proof.
  intros H1 H2 Hx1 Hx2.
  pose proof (@proportions_xeq c1 c2 x1 x2 H1 H2) as Heq.
  pose proof (@proportions_lt c1 c2 x1 x2 H1 H2) as Hlt.
  pose proof (@proportions_lt c2 c1 x2 x1 H2 H1) as Hgt.
  unfold spec_statistic in *.
  destruct (@spec_variance_nonneg pooled c1 c2 x1 x2 H1 H2 Hx1 Hx2)
    as (v & -> & Hv).
  destruct (xeq (spec_p1 c1 x1) (spec_p2 c2 x2)) eqn:E.
  - assert (Ez : x1 * c2 = x2 * c1) by now apply Heq.
    cbn [xlt]. unfold Rltb. destruct (Rlt_dec 0 0); [lra|].
    repeat split; intros; auto; try discriminate; lia.
  - assert (Ez : x1 * c2 <> x2 * c1).
    { intros Ez. apply Heq in Ez. congruence. }
    unfold spec_p1, spec_p2 in *. rewrite !xdiv_of_int in * by lia.
    cbn [xsub xneg xadd xsqrt xeq] in *. apply Reqb_false in E.
    destruct (Rlt_dec v 0); [lra|]. cbn [xdiv].
    pose proof (sqrt_pos v) as Hs.
    set (p1 := (IZR x1 / IZR c1)%R) in *.
    set (p2 := (IZR x2 / IZR c2)%R) in *.
    destruct (Req_dec_T (sqrt v) 0) as [Es|Es].
    + unfold inf_of_sign.
      destruct (Rlt_dec 0 (p1 + - p2)), (Rlt_dec (p1 + - p2) 0);
        cbn [xlt]; try (exfalso; lra).
      * repeat split; intros; auto; try discriminate; try lia.
        -- apply Hgt. lra.
        -- exfalso. assert (p1 < p2)%R by now apply Hlt. lra.
      * repeat split; intros; auto; try discriminate; try lia.
        -- exfalso. assert (p2 < p1)%R by now apply Hgt. lra.
        -- apply Hlt. lra.
    + assert (Hsp : (0 < / sqrt v)%R) by (apply Rinv_0_lt_compat; lra).
      cbn [xlt]. unfold Rltb, Rdiv.
      split; [|split].
      * split; [|intros; lia]. intros Ef. exfalso. injection Ef as Ef.
        apply Rmult_integral in Ef. lra.
      * destruct (Rlt_dec 0 ((p1 + - p2) * / sqrt v)) as [Hp|Hp].
        -- split; [|reflexivity]. intros _. apply Hgt.
           destruct (Rle_or_lt (p1 + - p2) 0) as [Hle|]; [|lra].
           exfalso.
           assert (((p1 + - p2) * / sqrt v <= 0 * / sqrt v)%R)
             by (apply Rmult_le_compat_r; lra). lra.
        -- split; [discriminate|]. intros Hz. exfalso. apply Hp.
           apply Rmult_lt_0_compat; [|lra].
           assert (p2 < p1)%R by now apply Hgt. lra.
      * destruct (Rlt_dec ((p1 + - p2) * / sqrt v) 0) as [Hp|Hp].
        -- split; [|reflexivity]. intros _. apply Hlt.
           destruct (Rle_or_lt 0 (p1 + - p2)) as [Hle|]; [|lra].
           exfalso.
           assert ((0 * / sqrt v <= (p1 + - p2) * / sqrt v)%R)
             by (apply Rmult_le_compat_r; lra). lra.
        -- split; [discriminate|]. intros Hz. exfalso. apply Hp.
           assert (p1 < p2)%R by now apply Hlt.
           assert ((0 < (p2 + - p1) * / sqrt v)%R)
             by (apply Rmult_lt_0_compat; lra).
           lra.
Qed.

Section WithGammaln.

Variable gammaln : Z -> R.

Section Candidates.

Variables (c1 c2 : Z) (m : Z -> Z -> bool).
Hypotheses (Hc1 : 0 < c1) (Hc2 : 0 < c2) (Hsum : c1 + c2 < 2 ^ 63).

Local Abbreviation idx := (outer m (arange (c1 + 1)) (arange (c2 + 1))).
Local Abbreviation p_value_of :=
  (candidate_p_value (n_arr c1 c2) (x1_plus_x2 c1 c2) (n_minus_x1_x2 c1 c2)
     (x1_sum_x2_log_comb gammaln c1 c2) idx).

(** On the mask that is true everywhere a candidate of [0, 1] has the
    p-value 1: the total mass of the normalised field. *)
Lemma candidate_p_value_full_mask (q : R) :
  (forall a b, 0 <= a <= c1 -> 0 <= b <= c2 -> m a b = true) ->
  (0 <= q <= 1)%R -> p_value_of (Fin q) = Fin 1.
Proof.
  intros Hm Hq. unfold candidate_p_value.
  rewrite (@tmp_values_outer gammaln c1 c2) by lia.
  pose proof (@field_nonneg gammaln c1 c2 Hc1 Hc2 Hsum q Hq) as Hnn.
  pose proof (@field_total_positive gammaln c1 c2 Hc1 Hc2 Hsum q Hq) as Hpos.
  destruct (normalise_mass Hnn Hpos) as (_ & <-).
  unfold normalise.
  rewrite !map2d_outer, xsum_select_outer, !xsum_concat_outer.
  apply dsum_ext. intros a b Ha Hb.
  apply arange_In in Ha. apply arange_In in Hb.
  now rewrite Hm by lia.
Qed.

End Candidates.

(** The rejection mask of a call, and the statistic it is formed with. *)
Lemma rejection_region_mask_of (a b c d : Z) (alternative : string)
    (pooled : bool) :
  valid_table a b c d -> 0 < a + c -> 0 < b + d ->
  recognised alternative ->
  let field :=
    wald_statistic_field pooled (Int64.add a c) (Int64.add b d) in
  field = outer (spec_statistic pooled (a + c) (b + d))
                (arange (a + c + 1)) (arange (b + d + 1))
  /\ py_index2 field a b = Some (spec_statistic pooled (a + c) (b + d) a b)
  /\ rejection_region alternative field
       (spec_statistic pooled (a + c) (b + d) a b)
     = Returned (mask_of alternative pooled (a + c) (b + d) a b).
Proof.
  intros (Ha & Hb & Hc & Hd & Htot) H1 H2 Halt field.
  assert (Ef : field = outer (spec_statistic pooled (a + c) (b + d))
                         (arange (a + c + 1)) (arange (b + d + 1))).
  { unfold field. rewrite !add_small by lia.
    now rewrite wald_statistic_field_outer by lia. }
  split; [exact Ef|]. split.
  - rewrite Ef. now rewrite py_index2_outer_arange by lia.
  - rewrite rejection_region_recognised by assumption.
    rewrite Ef, map2d_outer. reflexivity.
Qed.

(** X3: on a valid table with no zero-sum column and with a recognised
    alternative, the observed table belongs to its own rejection region:
    the statistic at the observed point is not not-a-number, and the
    rejection mask formed with it is true at the observed point. *)
Theorem X3_observed_in_rejection_region (a b c d : Z)
    (alternative : string) (pooled : bool) :
  valid_table a b c d -> 0 < a + c -> 0 < b + d ->
  recognised alternative ->
  let field :=
    wald_statistic_field pooled (Int64.add a c) (Int64.add b d) in
  exists (T0 : xreal) (mask : list (list bool)),
    py_index2 field a b = Some T0
    /\ is_nan T0 = false
    /\ rejection_region alternative field T0 = Returned mask
    /\ py_index2 mask a b = Some true.
Proof.
  intros Hv H1 H2 Halt field.
  destruct (rejection_region_mask_of pooled Hv H1 H2 Halt)
    as (_ & E0 & Em).
  pose proof Hv as (Ha & Hb & Hc & Hd & Htot).
  assert (Hnan : is_nan (spec_statistic pooled (a + c) (b + d) a b) = false)
    by (apply spec_statistic_not_nan; lia).
  exists (spec_statistic pooled (a + c) (b + d) a b),
         (mask_of alternative pooled (a + c) (b + d) a b).
  split; [exact E0|]. split; [exact Hnan|]. split; [exact Em|].
  unfold mask_of. rewrite py_index2_outer_arange by lia.
  f_equal. now apply spec_rejects_refl.
Qed.

(** X4: on a valid table with no zero-sum column whose two columns have
    the same proportion, [a (b + d) = b (a + c)], the two-sided test
    returns the statistic 0 and the p-value exactly 1, for every [pooled]
    and [n_iter > 0]. *)
Theorem X4_two_sided_equal_proportions (a b c d : Z) (pooled : bool)
    (n_iter : Z) :
  valid_table a b c d -> 0 < a + c -> 0 < b + d -> 0 < n_iter ->
  a * (b + d) = b * (a + c) ->
  barnard_exact gammaln [[a; b]; [c; d]] "two-sided" pooled n_iter
  = ([WaldStatisticField; RejectionRegion; NuisanceMaximizer],
     Returned {| statistic := Fin 0; pvalue := Fin 1 |}).
Proof.
  intros Hv H1 H2 Hn Heq. pose proof Hv as (Ha & Hb & Hc & Hd & Htot).
  assert (Halt : recognised "two-sided") by (left; reflexivity).
  rewrite barnard_exact_recognised by auto.
  assert (E0 : spec_statistic pooled (a + c) (b + d) a b = Fin 0).
  { unfold spec_statistic.
    now rewrite (proj2 (@proportions_xeq (a + c) (b + d) a b H1 H2) Heq). }
  rewrite E0.
  assert (Hall : forall x1 x2, 0 <= x1 <= a + c -> 0 <= x2 <= b + d ->
            spec_rejects "two-sided"
              (spec_statistic pooled (a + c) (b + d) x1 x2) (Fin 0) = true).
  { intros x1 x2 Hx1 Hx2.
    pose proof (@spec_statistic_not_nan pooled (a + c) (b + d) x1 x2
                  H1 H2 Hx1 Hx2) as Hnan.
    destruct (spec_statistic pooled (a + c) (b + d) x1 x2);
      cbn in *; try reflexivity; try discriminate.
    unfold Rleb. destruct (Rle_dec (Rabs 0) (Rabs r)); [reflexivity|].
    exfalso. rewrite Rabs_R0 in *. pose proof (Rabs_pos r). lra. }
  assert (Hshape : has_shape (length (x1_arr (a + c)))
                     (length (x2_arr (b + d)))
                     (mask_of "two-sided" pooled (a + c) (b + d) a b)
                   = true) by (apply mask_of_shape; lia).
  assert (Hs3 : a + c + (b + d) < 2 ^ 63) by lia.
  destruct (@maximiser_last_round gammaln (a + c) (b + d)
              (mask_of "two-sided" pooled (a + c) (b + d) a b)
              H1 H2 Hs3 Hshape n_iter Hn)
    as (st & lo & hi & p & _ & H0 & Hlh & Hhi & _ & Ep & Hp & Er & _ & _).
  rewrite Er. cbn [bind]. do 3 f_equal.
  pose proof (@argmax_p_values_range gammaln (a + c) (b + d)
                (mask_of "two-sided" pooled (a + c) (b + d) a b) lo hi)
    as Hm.
  rewrite py_index_nonneg in Ep
    by (rewrite length_map, linspace_length; lia).
  apply nth_error_In, in_map_iff in Ep.
  destruct Ep as (x & Ex & Hx).
  assert (Hlh' : (lo <= hi)%R) by lra.
  destruct (linspace_In Hlh' Hx) as (q & -> & Hq).
  unfold mask_of in Ex. rewrite E0 in Ex.
  assert (Hq01 : (0 <= q <= 1)%R) by lra.
  rewrite (@candidate_p_value_full_mask (a + c) (b + d) _
             H1 H2 Hs3 q Hall Hq01) in Ex.
  now injection Ex as <-.
Qed.

(** X5: on a valid table with no zero-sum column the statistic returned by
    [barnard_exact] has the sign of [a/(a+c) - b/(b+d)]: it is 0 exactly
    when [a (b + d) = b (a + c)], greater than 0 exactly when
    [a (b + d) > b (a + c)] and smaller than 0 exactly when
    [a (b + d) < b (a + c)]. *)
Theorem X5_statistic_sign (a b c d : Z) (alternative : string)
    (pooled : bool) (n_iter : Z) :
  valid_table a b c d -> 0 < a + c -> 0 < b + d ->
  recognised alternative -> 0 < n_iter ->
  exists tr s p,
    barnard_exact gammaln [[a; b]; [c; d]] alternative pooled n_iter
    = (tr, Returned {| statistic := s; pvalue := p |})
    /\ (s = Fin 0 <-> a * (b + d) = b * (a + c))
    /\ (xlt (Fin 0) s = true <-> b * (a + c) < a * (b + d))
    /\ (xlt s (Fin 0) = true <-> a * (b + d) < b * (a + c)).
Proof.
  intros Hv H1 H2 Halt Hn. pose proof Hv as (Ha & Hb & Hc & Hd & Htot).
  rewrite barnard_exact_recognised by auto.
  assert (Hshape : has_shape (length (x1_arr (a + c)))
                     (length (x2_arr (b + d)))
                     (mask_of alternative pooled (a + c) (b + d) a b)
                   = true) by (apply mask_of_shape; lia).
  assert (Hs3 : a + c + (b + d) < 2 ^ 63) by lia.
  destruct (@maximiser_last_round gammaln (a + c) (b + d)
              (mask_of alternative pooled (a + c) (b + d) a b)
              H1 H2 Hs3 Hshape n_iter Hn)
    as (st & lo & hi & p & _ & _ & _ & _ & _ & _ & _ & Er & _ & _).
  rewrite Er. cbn [bind]. eexists _, _, _. split; [reflexivity|].
  apply spec_statistic_sign; lia.
Qed.

(** X22: on a valid table with no zero-sum column, with a recognised
    alternative and [n_iter > 0], the call on the table with its two
    columns exchanged, with "less" and "greater" exchanged and "two-sided"
    kept, runs the same components and returns the negated statistic; its
    rejection mask is the mask of the call on the table itself with the
    two axes exchanged. *)
Theorem X22_column_swap_statistic (a b c d : Z) (alternative : string)
    (pooled : bool) (n_iter : Z) :
  valid_table a b c d -> 0 < a + c -> 0 < b + d ->
  recognised alternative -> 0 < n_iter ->
  exists s mask mask' p p',
    barnard_exact gammaln [[a; b]; [c; d]] alternative pooled n_iter
    = ([WaldStatisticField; RejectionRegion; NuisanceMaximizer],
       Returned {| statistic := s; pvalue := p |})
    /\ barnard_exact gammaln [[b; a]; [d; c]]
         (swap_alternative alternative) pooled n_iter
       = ([WaldStatisticField; RejectionRegion; NuisanceMaximizer],
          Returned {| statistic := xneg s; pvalue := p' |})
    /\ rejection_region alternative
         (wald_statistic_field pooled (Int64.add a c) (Int64.add b d)) s
       = Returned mask
    /\ rejection_region (swap_alternative alternative)
         (wald_statistic_field pooled (Int64.add b d) (Int64.add a c))
         (xneg s)
       = Returned mask'
    /\ (forall x1 x2, 0 <= x1 <= a + c -> 0 <= x2 <= b + d ->
          py_index2 mask' x2 x1 = py_index2 mask x1 x2).
Proof.
  intros Hv H1 H2 Halt Hn. pose proof Hv as (Ha & Hb & Hc & Hd & Htot).
  assert (Hv' : valid_table b a d c) by (unfold valid_table; lia).
  pose proof (swap_alternative_recognised Halt) as Halt'.
  destruct (rejection_region_mask_of pooled Hv H1 H2 Halt) as (_ & _ & Em).
  destruct (rejection_region_mask_of pooled Hv' H2 H1 Halt')
    as (_ & _ & Em').
  rewrite (spec_statistic_swap pooled (a + c) (b + d) a b) in Em'.
  destruct (@maximiser_result gammaln (a + c) (b + d)
              (mask_of alternative pooled (a + c) (b + d) a b))
    with (n_iter := n_iter)
    as (st & pvals & i & q & p & _ & _ & _ & _ & Er & Ep & _);
    try lia.
  { apply mask_of_shape; lia. }
  destruct (@maximiser_result gammaln (b + d) (a + c)
              (mask_of (swap_alternative alternative) pooled
                 (b + d) (a + c) b a))
    with (n_iter := n_iter)
    as (st' & pvals' & i' & q' & p' & _ & _ & _ & _ & Er' & Ep' & _);
    try lia.
  { apply mask_of_shape; lia. }
  exists (spec_statistic pooled (a + c) (b + d) a b),
         (mask_of alternative pooled (a + c) (b + d) a b),
         (mask_of (swap_alternative alternative) pooled
            (b + d) (a + c) b a),
         (Fin p), (Fin p').
  split; [|split; [|split; [exact Em | split; [exact Em'|]]]].
  - rewrite barnard_exact_recognised by auto.
    rewrite Er, Ep. reflexivity.
  - rewrite (@barnard_exact_recognised gammaln b a d c) by auto.
    rewrite Er', Ep'. cbn [bind].
    now rewrite (spec_statistic_swap pooled (a + c) (b + d) a b).
  - intros x1 x2 Hx1 Hx2. rewrite mask_of_swap by assumption.
    unfold mask_of. now rewrite !py_index2_outer_arange by lia.
Qed.

End WithGammaln.

End BarnardFacts.

(* ================================================================== *)
(** ** Facts about Somers' D *)

Module SomersDFacts.

Import XReal NDArray Int64Facts XRealFacts SomersD.

Local Open Scope Z_scope.

(** *** int64 arithmetic is arithmetic modulo 2^64 *)

Lemma wrap64_shift (z k : Z) : Int64.wrap64 (z + 2 ^ 64 * k) = Int64.wrap64 z.
Proof.
  unfold Int64.wrap64.
  replace (z + 2 ^ 64 * k + 2 ^ 63) with (z + 2 ^ 63 + k * 2 ^ 64) by ring.
  now rewrite Z_mod_plus_full.
Qed.

Lemma wrap64_decompose (z : Z) :
  exists k, Int64.wrap64 z = z + 2 ^ 64 * k.
Proof.
  exists (- ((z + 2 ^ 63) / 2 ^ 64)). unfold Int64.wrap64.
  rewrite Z.mod_eq by lia. ring.
Qed.

Lemma wrap64_add_l (a b : Z) :
  Int64.wrap64 (Int64.wrap64 a + b) = Int64.wrap64 (a + b).
Proof.
  destruct (wrap64_decompose a) as (k & ->).
  replace (a + 2 ^ 64 * k + b) with (a + b + 2 ^ 64 * k) by ring.
  apply wrap64_shift.
Qed.

Lemma wrap64_add_r (a b : Z) :
  Int64.wrap64 (a + Int64.wrap64 b) = Int64.wrap64 (a + b).
Proof. rewrite Z.add_comm, wrap64_add_l. f_equal. ring. Qed.

Lemma wrap64_sub_l (a b : Z) :
  Int64.wrap64 (Int64.wrap64 a - b) = Int64.wrap64 (a - b).
Proof. unfold Z.sub. apply wrap64_add_l. Qed.

Lemma wrap64_sub_r (a b : Z) :
  Int64.wrap64 (a - Int64.wrap64 b) = Int64.wrap64 (a - b).
Proof.
  destruct (wrap64_decompose b) as (k & ->).
  replace (a - (b + 2 ^ 64 * k)) with (a - b + 2 ^ 64 * (- k)) by ring.
  apply wrap64_shift.
Qed.

Lemma wrap64_mul_l (a b : Z) :
  Int64.wrap64 (Int64.wrap64 a * b) = Int64.wrap64 (a * b).
Proof.
  destruct (wrap64_decompose a) as (k & ->).
  replace ((a + 2 ^ 64 * k) * b) with (a * b + 2 ^ 64 * (k * b)) by ring.
  apply wrap64_shift.
Qed.

Lemma wrap64_mul_r (a b : Z) :
  Int64.wrap64 (a * Int64.wrap64 b) = Int64.wrap64 (a * b).
Proof. rewrite Z.mul_comm, wrap64_mul_l. f_equal. ring. Qed.

Lemma add_wrap (a b : Z) :
  Int64.add (Int64.wrap64 a) (Int64.wrap64 b) = Int64.wrap64 (a + b).
Proof. unfold Int64.add. now rewrite wrap64_add_l, wrap64_add_r. Qed.

Lemma sub_wrap (a b : Z) :
  Int64.sub (Int64.wrap64 a) (Int64.wrap64 b) = Int64.wrap64 (a - b).
Proof. unfold Int64.sub. now rewrite wrap64_sub_l, wrap64_sub_r. Qed.

Lemma mul_wrap (a b : Z) :
  int64_mul (Int64.wrap64 a) (Int64.wrap64 b) = Int64.wrap64 (a * b).
Proof. unfold int64_mul. now rewrite wrap64_mul_l, wrap64_mul_r. Qed.

(** *** The sums of the code are the sums over the integers, wrapped *)

Lemma Zsum_nil : Zsum [] = 0.
Proof. reflexivity. Qed.

Lemma Zsum_cons (x : Z) (l : list Z) : Zsum (x :: l) = x + Zsum l.
Proof. reflexivity. Qed.

Lemma fold_add_wrap {A : Type} (f g : A -> Z) (l : list A) (acc : Z) :
  (forall x, In x l -> f x = Int64.wrap64 (g x)) ->
  fold_left (fun count x => Int64.add count (f x)) l (Int64.wrap64 acc)
  = Int64.wrap64 (acc + Zsum (map g l)).
Proof.
  revert acc. induction l as [|x l IH]; intros acc H; cbn [fold_left map].
  - rewrite Zsum_nil. f_equal. ring.
  - rewrite Zsum_cons, (H x) by now left. rewrite add_wrap, IH.
    + f_equal. ring.
    + intros y Hy. apply H. now right.
Qed.

Lemma sum1_wrap (l : list Z) : sum1 l = Int64.wrap64 (Zsum l).
Proof.
  unfold sum1. change 0 with (Int64.wrap64 0) at 1.
  transitivity (fold_left (fun count x => Int64.add count (Int64.wrap64 x))
                  l (Int64.wrap64 0)).
  - generalize (Int64.wrap64 0). induction l as [|x l IH]; intros acc;
      cbn [fold_left]; [reflexivity|].
    rewrite <- IH. f_equal. unfold Int64.add. now rewrite wrap64_add_r.
  - rewrite (fold_add_wrap (fun x => Int64.wrap64 x) (fun x => x)) by auto.
    now rewrite map_id.
Qed.

Lemma Zsum_app (l1 l2 : list Z) : Zsum (l1 ++ l2) = Zsum l1 + Zsum l2.
Proof.
  induction l1 as [|x l1 IH]; cbn [app].
  - rewrite Zsum_nil. ring.
  - rewrite !Zsum_cons, IH. ring.
Qed.

Lemma Zsum_concat (A : list (list Z)) : Zsum (concat A) = total A.
Proof.
  unfold total. induction A as [|r A IH]; [reflexivity|].
  cbn [concat map]. now rewrite Zsum_app, IH, Zsum_cons.
Qed.

Lemma sum2_wrap (A : list (list Z)) : sum2 A = Int64.wrap64 (total A).
Proof. unfold sum2. now rewrite sum1_wrap, Zsum_concat. Qed.

Lemma Aij_wrap (A : list (list Z)) (i j : nat) :
  _Aij A i j = Int64.wrap64 (Aij_Z A i j).
Proof. unfold _Aij, Aij_Z. now rewrite !sum2_wrap, add_wrap. Qed.

Lemma Dij_wrap (A : list (list Z)) (i j : nat) :
  _Dij A i j = Int64.wrap64 (Dij_Z A i j).
Proof. unfold _Dij, Dij_Z. now rewrite !sum2_wrap, add_wrap. Qed.

Lemma count_rows_wrap (n : nat) (body bodyZ : nat -> nat -> Z)
    (rows : list nat) (acc : Z) :
  (forall i j, body i j = Int64.wrap64 (bodyZ i j)) ->
  fold_left
    (fun count i =>
       fold_left (fun count j => Int64.add count (body i j)) (seq 0 n) count)
    rows (Int64.wrap64 acc)
  = Int64.wrap64
      (acc + Zsum (map (fun i => Zsum (map (bodyZ i) (seq 0 n))) rows)).
Proof.
  intros H. revert acc.
  induction rows as [|i rows IH]; intros acc; cbn [fold_left map].
  - rewrite Zsum_nil. f_equal. ring.
  - rewrite (fold_add_wrap (body i) (bodyZ i)) by auto.
    rewrite IH, Zsum_cons. f_equal. ring.
Qed.

Lemma count_loop_wrap (m n : nat) (body bodyZ : nat -> nat -> Z) :
  (forall i j, body i j = Int64.wrap64 (bodyZ i j)) ->
  count_loop m n body = Int64.wrap64 (dsumZ m n bodyZ).
Proof.
  intros H. unfold count_loop, dsumZ.
  change (fold_left
            (fun count i =>
               fold_left (fun count j => Int64.add count (body i j))
                         (seq 0 n) count)
            (seq 0 m) (Int64.wrap64 0)
          = Int64.wrap64
              (Zsum (map (fun i => Zsum (map (bodyZ i) (seq 0 n)))
                         (seq 0 m)))).
  rewrite (count_rows_wrap n body bodyZ (seq 0 m) 0 H). f_equal.
Qed.

Lemma item_wrap (A : list (list Z)) (i j : nat) :
  Forall (Forall (fun v => - 2 ^ 63 <= v < 2 ^ 63)) A ->
  item A i j = Int64.wrap64 (item A i j).
Proof.
  intros H. symmetry. apply wrap64_small. unfold item.
  destruct (nth_in_or_default i A []) as [Hi | ->].
  - rewrite Forall_forall in H. specialize (H _ Hi).
    destruct (nth_in_or_default j (nth i A []) 0) as [Hj | ->].
    + rewrite Forall_forall in H. now apply H.
    + lia.
  - destruct j; cbn; lia.
Qed.

Lemma P_wrap (A : list (list Z)) :
  Forall (Forall (fun v => - 2 ^ 63 <= v < 2 ^ 63)) A ->
  _P A = Int64.wrap64 (P_Z A).
Proof.
  intros H. unfold _P, P_Z. apply count_loop_wrap. intros i j.
  rewrite (item_wrap i j H) at 1. now rewrite Aij_wrap, mul_wrap.
Qed.

Lemma Q_wrap (A : list (list Z)) :
  Forall (Forall (fun v => - 2 ^ 63 <= v < 2 ^ 63)) A ->
  _Q A = Int64.wrap64 (Q_Z A).
Proof.
  intros H. unfold _Q, Q_Z. apply count_loop_wrap. intros i j.
  rewrite (item_wrap i j H) at 1. now rewrite Dij_wrap, mul_wrap.
Qed.

Lemma sum1_map_wrap {A : Type} (f g : A -> Z) (l : list A) :
  (forall x, f x = Int64.wrap64 (g x)) ->
  sum1 (map f l) = Int64.wrap64 (Zsum (map g l)).
Proof.
  intros H. unfold sum1.
  assert (G : forall acc,
             fold_left Int64.add (map f l) (Int64.wrap64 acc)
             = Int64.wrap64 (acc + Zsum (map g l))).
  { induction l as [|x l IH]; intros acc; cbn [map fold_left].
    - rewrite Zsum_nil. f_equal. ring.
    - rewrite Zsum_cons, H, add_wrap, IH. f_equal. ring. }
  exact (G 0).
Qed.

Lemma sum_of_squares_row_sums_wrap (A : list (list Z)) :
  sum_of_squares (row_sums A) = Int64.wrap64 (Sri2_Z A).
Proof.
  unfold sum_of_squares, row_sums, Sri2_Z. rewrite map_map.
  apply sum1_map_wrap. intros r. now rewrite sum1_wrap, mul_wrap.
Qed.

(** *** Sums over the integers *)

Lemma Zsum_nonneg (l : list Z) : Forall (fun v => 0 <= v) l -> 0 <= Zsum l.
Proof.
  induction 1 as [|x l Hx _ IH]; [rewrite Zsum_nil | rewrite Zsum_cons]; lia.
Qed.

Lemma Zsum_map_le {A : Type} (f g : A -> Z) (l : list A) :
  (forall x, In x l -> f x <= g x) -> Zsum (map f l) <= Zsum (map g l).
Proof.
  induction l as [|x l IH]; intros H; cbn [map]; [lia|].
  rewrite !Zsum_cons. specialize (H x (or_introl eq_refl)) as Hx.
  assert (Zsum (map f l) <= Zsum (map g l)); [|lia].
  apply IH. intros y Hy. apply H. now right.
Qed.

Lemma Zsum_map_nonneg {A : Type} (f : A -> Z) (l : list A) :
  (forall x, In x l -> 0 <= f x) -> 0 <= Zsum (map f l).
Proof.
  intros H. apply Zsum_nonneg, Forall_map, Forall_forall. exact H.
Qed.

Lemma Zsum_map_add {A : Type} (f g : A -> Z) (l : list A) :
  Zsum (map (fun x => f x + g x) l) = Zsum (map f l) + Zsum (map g l).
Proof.
  induction l as [|x l IH]; cbn [map]; [reflexivity|].
  rewrite !Zsum_cons, IH. ring.
Qed.

Lemma Zsum_map_mul_r {A : Type} (c : Z) (f : A -> Z) (l : list A) :
  Zsum (map (fun x => f x * c) l) = Zsum (map f l) * c.
Proof.
  induction l as [|x l IH]; cbn [map].
  - rewrite Zsum_nil. ring.
  - rewrite !Zsum_cons, IH. ring.
Qed.

Lemma Zsum_map_ext_in {A : Type} (f g : A -> Z) (l : list A) :
  (forall x, In x l -> f x = g x) -> Zsum (map f l) = Zsum (map g l).
Proof. intros H. f_equal. now apply map_ext_in. Qed.

(** A list is the list of its entries. *)
Lemma map_nth_seq {A : Type} (l : list A) (d : A) :
  map (fun j => nth j l d) (seq 0 (length l)) = l.
Proof.
  induction l as [|x l IH]; [reflexivity|].
  cbn [length seq map nth]. f_equal.
  rewrite <- seq_shift, map_map. exact IH.
Qed.

(** *** The blocks around an entry *)

Lemma Zsum_split (r : list Z) (j : nat) :
  Zsum r = Zsum (firstn j r) + nth j r 0 + Zsum (skipn (S j) r).
Proof.
  revert r. induction j as [|j IH]; intros [|x r]; cbn [firstn nth skipn];
    rewrite ?Zsum_cons, ?Zsum_nil; try ring.
  rewrite (IH r) at 1. cbn [skipn]. ring.
Qed.

Lemma total_nil : total [] = 0.
Proof. reflexivity. Qed.

Lemma total_cons (r : list Z) (A : list (list Z)) :
  total (r :: A) = Zsum r + total A.
Proof. reflexivity. Qed.

Lemma total_split_col (R : list (list Z)) (j : nat) :
  total R
  = total (map (firstn j) R) + Zsum (map (fun r => nth j r 0) R)
    + total (map (skipn (S j)) R).
Proof.
  induction R as [|r R IH]; cbn [map].
  - rewrite !total_nil, Zsum_nil. ring.
  - rewrite !total_cons, Zsum_cons, IH, (Zsum_split r j). ring.
Qed.

Lemma total_split_row (A : list (list Z)) (i : nat) :
  total A
  = total (firstn i A) + Zsum (nth i A []) + total (skipn (S i) A).
Proof.
  unfold total. rewrite (Zsum_split (map Zsum A) i).
  rewrite firstn_map, skipn_map.
  change 0 with (Zsum []) at 1. now rewrite map_nth.
Qed.

Section Counts.

Variables (m n : nat) (A : list (list Z)).
Hypothesis HA : count_table m n A.

Lemma rows_nonneg : Forall (Forall (fun v => 0 <= v)) A.
Proof.
  destruct HA as (_ & H). eapply Forall_impl; [|exact H].
  now intros r (_ & Hr).
Qed.

Lemma Forall_firstn {B : Type} (P : B -> Prop) (k : nat) (l : list B) :
  Forall P l -> Forall P (firstn k l).
Proof.
  intros H. apply Forall_forall. intros x Hx.
  rewrite Forall_forall in H. apply H.
  rewrite <- (firstn_skipn k l). apply in_or_app. now left.
Qed.

Lemma Forall_skipn {B : Type} (P : B -> Prop) (k : nat) (l : list B) :
  Forall P l -> Forall P (skipn k l).
Proof.
  intros H. apply Forall_forall. intros x Hx.
  rewrite Forall_forall in H. apply H.
  rewrite <- (firstn_skipn k l). apply in_or_app. now right.
Qed.

Lemma total_nonneg (R : list (list Z)) :
  Forall (Forall (fun v => 0 <= v)) R -> 0 <= total R.
Proof.
  intros H. unfold total. apply Zsum_map_nonneg. intros r Hr.
  apply Zsum_nonneg. rewrite Forall_forall in H. now apply H.
Qed.

Lemma block_nonneg (R : list (list Z)) (f : list Z -> list Z) :
  (forall r, Forall (fun v => 0 <= v) r -> Forall (fun v => 0 <= v) (f r)) ->
  Forall (Forall (fun v => 0 <= v)) R -> 0 <= total (map f R).
Proof.
  intros Hf H. apply total_nonneg, Forall_map.
  eapply Forall_impl; [|exact H]. exact Hf.
Qed.

Lemma column_nonneg (R : list (list Z)) (j : nat) :
  Forall (Forall (fun v => 0 <= v)) R ->
  0 <= Zsum (map (fun r => nth j r 0) R).
Proof.
  intros H. apply Zsum_map_nonneg. intros r Hr.
  rewrite Forall_forall in H. specialize (H r Hr).
  destruct (nth_in_or_default j r 0) as [Hj | ->]; [|lia].
  rewrite Forall_forall in H. now apply H.
Qed.

Lemma Aij_Z_nonneg (i j : nat) : 0 <= Aij_Z A i j.
Proof.
  pose proof rows_nonneg as H. unfold Aij_Z.
  assert (0 <= total (map (firstn j) (firstn i A))).
  { apply block_nonneg; [intros; now apply Forall_firstn|].
    now apply Forall_firstn. }
  assert (0 <= total (map (skipn (S j)) (skipn (S i) A))).
  { apply block_nonneg; [intros; now apply Forall_skipn|].
    now apply Forall_skipn. }
  lia.
Qed.

Lemma Dij_Z_nonneg (i j : nat) : 0 <= Dij_Z A i j.
Proof.
  pose proof rows_nonneg as H. unfold Dij_Z.
  assert (0 <= total (map (firstn j) (skipn (S i) A))).
  { apply block_nonneg; [intros; now apply Forall_firstn|].
    now apply Forall_skipn. }
  assert (0 <= total (map (skipn (S j)) (firstn i A))).
  { apply block_nonneg; [intros; now apply Forall_skipn|].
    now apply Forall_firstn. }
  lia.
Qed.

(** The pairs formed with the entry (i, j): the concordant ones, the
    discordant ones and those tied on the row never exceed the total. *)
Lemma cell_bound (i j : nat) :
  Aij_Z A i j + Dij_Z A i j + Zsum (nth i A []) <= total A.
Proof.
  pose proof rows_nonneg as H.
  rewrite (total_split_row A i).
  rewrite (total_split_col (firstn i A) j),
    (total_split_col (skipn (S i) A) j).
  pose proof (@column_nonneg (firstn i A) j (Forall_firstn i H)).
  pose proof (@column_nonneg (skipn (S i) A) j (Forall_skipn (S i) H)).
  unfold Aij_Z, Dij_Z. lia.
Qed.

Lemma item_nonneg (i j : nat) : 0 <= item A i j.
Proof.
  pose proof rows_nonneg as H. unfold item.
  destruct (nth_in_or_default i A []) as [Hi | ->].
  - rewrite Forall_forall in H. specialize (H _ Hi).
    destruct (nth_in_or_default j (nth i A []) 0) as [Hj | ->]; [|lia].
    rewrite Forall_forall in H. now apply H.
  - destruct j; cbn; lia.
Qed.

Lemma row_length (i : nat) : (i < m)%nat -> length (nth i A []) = n.
Proof.
  destruct HA as (Hm & H). intros Hi. rewrite Forall_forall in H.
  apply H, nth_In. lia.
Qed.

Lemma ncols_eq : (0 < m)%nat -> ncols A = n.
Proof.
  intros Hm. unfold ncols. rewrite <- (row_length Hm).
  now destruct A.
Qed.

Lemma nrows_eq : nrows A = m.
Proof. now destruct HA. Qed.

Lemma row_sum_items (i : nat) :
  (i < m)%nat -> Zsum (map (item A i) (seq 0 n)) = Zsum (nth i A []).
Proof.
  intros Hi. unfold item. rewrite <- (row_length Hi) at 1.
  now rewrite map_nth_seq.
Qed.

Lemma total_rows : total A = Zsum (map (fun i => Zsum (nth i A [])) (seq 0 m)).
Proof.
  unfold total. rewrite <- nrows_eq. unfold nrows.
  rewrite <- (map_nth_seq A []) at 1. now rewrite map_map.
Qed.

Lemma Sri2_rows :
  Sri2_Z A
  = Zsum (map (fun i => Zsum (nth i A []) * Zsum (nth i A [])) (seq 0 m)).
Proof.
  unfold Sri2_Z. rewrite <- nrows_eq. unfold nrows.
  rewrite <- (map_nth_seq A []) at 1. now rewrite map_map.
Qed.

Lemma P_Z_nonneg : 0 <= P_Z A.
Proof.
  unfold P_Z, dsumZ. apply Zsum_map_nonneg. intros i _.
  apply Zsum_map_nonneg. intros j _.
  apply Z.mul_nonneg_nonneg; [apply item_nonneg | apply Aij_Z_nonneg].
Qed.

Lemma Q_Z_nonneg : 0 <= Q_Z A.
Proof.
  unfold Q_Z, dsumZ. apply Zsum_map_nonneg. intros i _.
  apply Zsum_map_nonneg. intros j _.
  apply Z.mul_nonneg_nonneg; [apply item_nonneg | apply Dij_Z_nonneg].
Qed.

Lemma Sri2_Z_nonneg : 0 <= Sri2_Z A.
Proof.
  unfold Sri2_Z. apply Zsum_map_nonneg. intros r _. apply Z.square_nonneg.
Qed.

(** Every ordered pair of observations is concordant, discordant or tied:
    the concordant pairs, the discordant pairs and the pairs tied on the
    row variable never exceed the square of the number of observations. *)
Lemma pair_count_bound : P_Z A + Q_Z A + Sri2_Z A <= total A * total A.
Proof.
  destruct (Nat.eq_dec m 0) as [Hm0|Hm0].
  - destruct HA as (Hlen & _). destruct A; [|cbn in Hlen; lia].
    cbn. lia.
  - assert (Hm : (0 < m)%nat) by lia.
    unfold P_Z, Q_Z, dsumZ. rewrite nrows_eq, (ncols_eq Hm), Sri2_rows.
    rewrite <- !Zsum_map_add.
    rewrite total_rows at 1. rewrite <- Zsum_map_mul_r.
    apply Zsum_map_le. intros i Hi. apply in_seq in Hi.
    assert (Eri : Zsum (map (item A i) (seq 0 n)) = Zsum (nth i A []))
      by (apply row_sum_items; lia).
    set (ri := Zsum (nth i A [])) in *. set (N := total A).
    replace (ri * ri)
      with (Zsum (map (fun j => item A i j * ri) (seq 0 n)))
      by (now rewrite Zsum_map_mul_r, Eri).
    replace (ri * N)
      with (Zsum (map (fun j => item A i j * N) (seq 0 n)))
      by (now rewrite Zsum_map_mul_r, Eri).
    rewrite <- !Zsum_map_add. apply Zsum_map_le. intros j _.
    pose proof (item_nonneg i j) as Ha.
    pose proof (cell_bound i j) as Hc. fold ri N in Hc.
    rewrite <- !Z.mul_add_distr_l.
    now apply Z.mul_le_mono_nonneg_l.
Qed.

Lemma Zsum_In_le (l : list Z) (v : Z) :
  Forall (fun x => 0 <= x) l -> In v l -> v <= Zsum l.
Proof.
  induction 1 as [|x l Hx Hl IH]; intros Hv; [destruct Hv|].
  destruct Hv as [<- | Hv]; rewrite Zsum_cons.
  - pose proof (Zsum_nonneg Hl). lia.
  - specialize (IH Hv). lia.
Qed.

Lemma entries_in_range :
  total A < 2 ^ 63 ->
  Forall (Forall (fun v => - 2 ^ 63 <= v < 2 ^ 63)) A.
Proof.
  intros HN. pose proof rows_nonneg as H.
  apply Forall_forall. intros r Hr. apply Forall_forall. intros v Hv.
  rewrite Forall_forall in H. pose proof (H r Hr) as Hrn.
  pose proof (@Zsum_In_le r v Hrn Hv) as H1.
  assert (H2 : Zsum r <= total A).
  { unfold total. apply Zsum_In_le.
    - apply Forall_map, Forall_forall. intros r' Hr'.
      apply Zsum_nonneg. now apply H.
    - now apply in_map. }
  rewrite Forall_forall in Hrn. specialize (Hrn v Hv). lia.
Qed.

(** The integer quantities of [_somers_d], free of wrap-around when the
    square of the number of observations is an int64 value. *)
Lemma somers_quantities :
  total A * total A < 2 ^ 63 ->
  sum2 A = total A
  /\ int64_mul (sum2 A) (sum2 A) = total A * total A
  /\ _P A = P_Z A /\ _Q A = Q_Z A
  /\ sum_of_squares (row_sums A) = Sri2_Z A
  /\ Int64.sub (_P A) (_Q A) = P_Z A - Q_Z A
  /\ Int64.sub (int64_mul (sum2 A) (sum2 A)) (sum_of_squares (row_sums A))
     = total A * total A - Sri2_Z A.
Proof.
  intros HN2.
  pose proof (total_nonneg rows_nonneg) as HN0.
  pose proof P_Z_nonneg as HP. pose proof Q_Z_nonneg as HQ.
  pose proof Sri2_Z_nonneg as HS. pose proof pair_count_bound as HB.
  assert (HN : total A < 2 ^ 63) by nia.
  pose proof (entries_in_range HN) as Hr.
  rewrite (P_wrap Hr), (Q_wrap Hr), sum_of_squares_row_sums_wrap, sum2_wrap.
  rewrite mul_wrap, !sub_wrap.
  rewrite !wrap64_small by lia.
  repeat split; reflexivity.
Qed.

End Counts.

Lemma ratio_in_unit_ball (x D : Z) :
  0 < D -> - D <= x <= D -> (-1 <= IZR x / IZR D <= 1)%R.
Proof.
  intros HD Hx.
  assert (PD : (0 < IZR D)%R) by now apply IZR_lt.
  assert (H1 : (IZR (- D) <= IZR x)%R) by (apply IZR_le; lia).
  assert (H2 : (IZR x <= IZR D)%R) by (apply IZR_le; lia).
  rewrite opp_IZR in H1.
  assert (Pi : (0 < / IZR D)%R) by now apply Rinv_0_lt_compat.
  unfold Rdiv. split.
  - apply Rmult_le_reg_r with (IZR D); [lra|].
    rewrite Rmult_assoc, Rinv_l by lra. lra.
  - apply Rmult_le_reg_r with (IZR D); [lra|].
    rewrite Rmult_assoc, Rinv_l by lra. lra.
Qed.

(** X6: on a table of non-negative counts whose number of observations
    [N] has [N^2 < 2^63], the counts [_P] and [_Q] of concordant and
    discordant pairs do not wrap around, are non-negative, and together
    with the pairs tied on the row variable, [sum_i r_i^2], they are at
    most [N^2]. *)
Theorem X6_pair_counts (m n : nat) (A : list (list Z)) :
  count_table m n A -> total A * total A < 2 ^ 63 ->
  _P A = P_Z A /\ _Q A = Q_Z A
  /\ 0 <= _P A /\ 0 <= _Q A
  /\ _P A + _Q A + sum_of_squares (row_sums A) <= sum2 A * sum2 A.
Proof.
  intros HA HN.
  destruct (somers_quantities HA HN) as (EN & _ & EP & EQ & ES & _ & _).
  rewrite EP, EQ, ES, EN.
  pose proof (P_Z_nonneg HA). pose proof (Q_Z_nonneg HA).
  pose proof (pair_count_bound HA).
  repeat split; auto.
Qed.

Section WithNormSf.

Variable norm_sf : xreal -> xreal.

Lemma somers_d_statistic (m n : nat) (A : list (list Z)) :
  count_table m n A -> (2 <= m)%nat -> (2 <= n)%nat ->
  total A * total A < 2 ^ 63 ->
  fst (_somers_d norm_sf A)
  = xdiv (of_int (P_Z A - Q_Z A))
         (of_int (total A * total A - Sri2_Z A)).
Proof.
  intros HA Hm Hn HN. unfold _somers_d.
  rewrite (nrows_eq HA), (@ncols_eq m n A HA) by lia.
  destruct (Nat.leb_spec m 1); [lia|].
  destruct (Nat.leb_spec n 1); [lia|]. cbn [orb]. cbv zeta.
  destruct (somers_quantities HA HN) as (_ & _ & _ & _ & _ & E1 & E2).
  rewrite E1, E2. now destruct (xeq _ _).
Qed.

(** X7: on a table of non-negative counts with at least two rows and two
    columns (and [N^2 < 2^63]) the statistic of [_somers_d] is a number of
    [-1, 1], namely [(P - Q) / (N^2 - sum_i r_i^2)], unless every pair of
    observations is tied on the row variable ([N^2 = sum_i r_i^2], all the
    observations in one row), where it is not-a-number. *)
Theorem X7_somers_d_range (m n : nat) (A : list (list Z)) :
  count_table m n A -> (2 <= m)%nat -> (2 <= n)%nat ->
  total A * total A < 2 ^ 63 ->
  (Sri2_Z A = total A * total A -> fst (_somers_d norm_sf A) = NaN)
  /\ (Sri2_Z A <> total A * total A ->
      exists r,
        fst (_somers_d norm_sf A) = Fin r
        /\ r = (IZR (P_Z A - Q_Z A)
                / IZR (total A * total A - Sri2_Z A))%R
        /\ (-1 <= r <= 1)%R).
Proof.
  intros HA Hm Hn HN. rewrite (somers_d_statistic HA Hm Hn HN).
  pose proof (P_Z_nonneg HA) as HP. pose proof (Q_Z_nonneg HA) as HQ.
  pose proof (pair_count_bound HA) as HB. split.
  - intros E. replace (P_Z A - Q_Z A) with 0 by lia.
    replace (total A * total A - Sri2_Z A) with 0 by lia.
    unfold of_int, xdiv, inf_of_sign.
    destruct (Req_dec_T 0 0); [|lra].
    destruct (Rlt_dec 0 0); [lra|reflexivity].
  - intros Hne. rewrite xdiv_of_int by lia.
    eexists; split; [reflexivity|]. split; [reflexivity|].
    apply ratio_in_unit_ball; lia.
Qed.

Lemma two_by_two_counts (a b c d : Z) :
  P_Z [[a; b]; [c; d]] = 2 * (a * d)
  /\ Q_Z [[a; b]; [c; d]] = 2 * (b * c)
  /\ Sri2_Z [[a; b]; [c; d]] = (a + b) * (a + b) + (c + d) * (c + d)
  /\ total [[a; b]; [c; d]] = a + b + c + d.
Proof.
  unfold P_Z, Q_Z, Sri2_Z, total, dsumZ, Aij_Z, Dij_Z, total, item, Zsum.
  cbn -[Z.mul Z.add]. repeat split; ring.
Qed.

Lemma two_by_two_table (a b c d : Z) :
  0 <= a -> 0 <= b -> 0 <= c -> 0 <= d ->
  count_table 2 2 [[a; b]; [c; d]].
Proof.
  intros. split; [reflexivity|]. repeat constructor; assumption.
Qed.

(** X8: on a 2x2 table [[a, b], [c, d]] of non-negative counts with two
    non-empty rows (and [N^2 < 2^63]) the statistic of [_somers_d] is the
    difference of the proportions of the first column in the two rows,
    [a/(a+b) - c/(c+d)]. *)
Theorem X8_somers_d_2x2 (a b c d : Z) :
  0 <= a -> 0 <= b -> 0 <= c -> 0 <= d ->
  (a + b + c + d) * (a + b + c + d) < 2 ^ 63 ->
  0 < a + b -> 0 < c + d ->
  fst (_somers_d norm_sf [[a; b]; [c; d]])
  = Fin (IZR a / IZR (a + b) - IZR c / IZR (c + d)).
Proof.
  intros Ha Hb Hc Hd HN H1 H2.
  pose proof (two_by_two_table Ha Hb Hc Hd) as HA.
  destruct (two_by_two_counts a b c d) as (EP & EQ & ES & ET).
  rewrite (@somers_d_statistic 2 2 _ HA) by (rewrite ?ET; lia).
  rewrite EP, EQ, ES, ET.
  replace ((a + b + c + d) * (a + b + c + d)
           - ((a + b) * (a + b) + (c + d) * (c + d)))
    with (2 * ((a + b) * (c + d))) by ring.
  assert (P1 : (0 < IZR (a + b))%R) by now apply IZR_lt.
  assert (P2 : (0 < IZR (c + d))%R) by now apply IZR_lt.
  rewrite xdiv_of_int by nia. f_equal.
  rewrite minus_IZR, !mult_IZR. rewrite plus_IZR in P1, P2.
  rewrite !plus_IZR. field. lra.
Qed.

Variable crosstab : list Z -> list Z -> list (list Z).

Lemma no_negative_element (m n : nat) (x : list (list Z)) :
  count_table m n x -> existsb (existsb (fun v => v <? 0)) x = false.
Proof.
  intros HA. pose proof (rows_nonneg HA) as H.
  apply not_true_is_false. intros E.
  apply existsb_exists in E. destruct E as (r & Hr & E).
  apply existsb_exists in E. destruct E as (v & Hv & E).
  rewrite Forall_forall in H. specialize (H r Hr).
  rewrite Forall_forall in H. specialize (H v Hv).
  apply Z.ltb_lt in E. lia.
Qed.

Lemma rows_square_le (x : list (list Z)) :
  Forall (Forall (fun v => 0 <= v)) x ->
  0 <= Sri2_Z x <= total x * total x.
Proof.
  unfold Sri2_Z.
  induction 1 as [|r x Hr Hx IH]; cbn [map];
    [rewrite Zsum_nil, total_nil; lia|].
  rewrite Zsum_cons, total_cons.
  pose proof (Zsum_nonneg Hr) as H0.
  pose proof (total_nonneg Hx) as H1.
  pose proof (Z.square_nonneg (Zsum r)) as H2.
  assert (H3 : 0 <= Zsum r * total x) by (apply Z.mul_nonneg_nonneg; lia).
  lia.
Qed.

Lemma rows_all_empty (x : list (list Z)) :
  Forall (Forall (fun v => 0 <= v)) x ->
  filter (fun r => negb (Zsum r =? 0)%Z) x = [] <-> total x = 0.
Proof.
  induction 1 as [|r x Hr Hx IH]; [now split|].
  cbn [filter]. rewrite total_cons.
  pose proof (Zsum_nonneg Hr) as H0.
  pose proof (total_nonneg Hx) as H1.
  destruct (Z.eqb_spec (Zsum r) 0) as [E|E]; cbn [negb].
  - rewrite IH. lia.
  - split; [discriminate | lia].
Qed.

(** All the pairs of observations are tied on the row variable exactly
    when at most one row holds an observation. *)
Lemma single_row_iff (x : list (list Z)) :
  Forall (Forall (fun v => 0 <= v)) x ->
  Sri2_Z x = total x * total x
  <-> (length (filter (fun r => negb (Zsum r =? 0)%Z) x) <= 1)%nat.
Proof.
  induction 1 as [|r x Hr Hx IH]; [cbn; split; [lia | reflexivity]|].
  pose proof (Zsum_nonneg Hr) as H0.
  pose proof (total_nonneg Hx) as H1.
  pose proof (rows_square_le Hx) as H2.
  pose proof (rows_all_empty Hx) as H3.
  assert (ES : Sri2_Z (r :: x) = Zsum r * Zsum r + Sri2_Z x) by reflexivity.
  rewrite ES, total_cons. cbn [filter].
  destruct (Z.eqb_spec (Zsum r) 0) as [E|E]; cbn [negb].
  - rewrite E, <- IH. lia.
  - cbn [length]. split.
    + intros Heq. assert (Ht : total x = 0) by nia.
      apply H3 in Ht. rewrite Ht. cbn. lia.
    + intros Hlen.
      assert (Hnil : filter (fun r0 => negb (Zsum r0 =? 0)%Z) x = [])
        by (destruct (filter _ x); [reflexivity | cbn in Hlen; lia]).
      apply H3 in Hnil. rewrite Hnil in *. lia.
Qed.

(** X9: [somersd] on a table of non-negative counts with at least two rows
    and two columns ([N^2 < 2^63]) that has at least two non-zero elements:
    the table passes the checks, the result carries the table itself, and
    its statistic is not-a-number exactly when at most one row holds an
    observation (all the pairs are then tied on the row variable, which the
    checks do not exclude); otherwise it is a number of [-1, 1]. *)
Theorem X9_somersd_table (m n : nat) (x : list (list Z)) :
  count_table m n x -> (2 <= m)%nat -> (2 <= n)%nat ->
  total x * total x < 2 ^ 63 ->
  (2 <= length (filter (fun v => negb (v =? 0)%Z) (concat x)))%nat ->
  exists d p,
    somersd norm_sf crosstab (Table x)
    = inr {| statistic := d; pvalue := p; table := x |}
    /\ (d = NaN
        <-> (length (filter (fun r => negb (Zsum r =? 0)%Z) x) <= 1)%nat)
    /\ (d <> NaN -> exists r, d = Fin r /\ (-1 <= r <= 1)%R).
Proof.
  intros HA Hm Hn HN Hnz.
  pose proof (somers_d_statistic HA Hm Hn HN) as Ed.
  unfold somersd. rewrite (no_negative_element HA).
  destruct (Nat.ltb_spec
              (length (filter (fun v => negb (v =? 0)) (concat x))) 2);
    [lia|].
  destruct (_somers_d norm_sf x) as [d p]. cbn [fst] in Ed.
  exists d, p. split; [reflexivity|].
  pose proof (P_Z_nonneg HA) as HP. pose proof (Q_Z_nonneg HA) as HQ.
  pose proof (pair_count_bound HA) as HB.
  pose proof (single_row_iff (rows_nonneg HA)) as Hrow.
  destruct (Z.eq_dec (Sri2_Z x) (total x * total x)) as [E|E].
  - assert (Enan : d = NaN).
    { rewrite Ed. replace (P_Z x - Q_Z x) with 0 by lia.
      replace (total x * total x - Sri2_Z x) with 0 by lia.
      unfold of_int, xdiv, inf_of_sign.
      destruct (Req_dec_T 0 0); [|lra].
      destruct (Rlt_dec 0 0); [lra|reflexivity]. }
    split; [|congruence].
    split; [intros _; now apply Hrow | intros _; exact Enan].
  - rewrite xdiv_of_int in Ed by lia.
    split.
    + split; [intros Hd; congruence|].
      intros Hlen. apply Hrow in Hlen. contradiction.
    + intros _. eexists. split; [exact Ed|].
      apply ratio_in_unit_ball; lia.
Qed.

End WithNormSf.

(** *** The pairs tied on the column variable *)

Lemma Zsum_map_zero {B : Type} (l : list B) : Zsum (map (fun _ => 0) l) = 0.
Proof.
  induction l as [|x l IH]; cbn [map]; [reflexivity|].
  rewrite Zsum_cons, IH. ring.
Qed.

Lemma Zsum_exchange {B C : Type} (f : B -> C -> Z)
    (l1 : list B) (l2 : list C) :
  Zsum (map (fun a => Zsum (map (f a) l2)) l1)
  = Zsum (map (fun b => Zsum (map (fun a => f a b) l1)) l2).
Proof.
  induction l1 as [|a l1 IH]; cbn [map].
  - now rewrite Zsum_nil, Zsum_map_zero.
  - rewrite Zsum_cons, IH, <- Zsum_map_add.
    apply Zsum_map_ext_in. intros b _. now rewrite Zsum_cons.
Qed.

Lemma sum_of_squares_col_sums_wrap (A : list (list Z)) :
  sum_of_squares (col_sums A) = Int64.wrap64 (Scj2_Z A).
Proof.
  unfold sum_of_squares, col_sums, Scj2_Z, col_Z. rewrite map_map.
  apply sum1_map_wrap. intros j. now rewrite sum1_wrap, mul_wrap.
Qed.

Section Columns.

Variables (m n : nat) (A : list (list Z)).
Hypothesis HA : count_table m n A.

Lemma col_items (j : nat) :
  Zsum (map (fun i => item A i j) (seq 0 m)) = col_Z A j.
Proof.
  unfold col_Z, item. rewrite <- (nrows_eq HA). unfold nrows.
  rewrite <- (map_nth_seq A []) at 2. now rewrite map_map.
Qed.

Lemma Scj2_Z_nonneg : 0 <= Scj2_Z A.
Proof.
  unfold Scj2_Z. apply Zsum_map_nonneg. intros j _. apply Z.square_nonneg.
Qed.

Lemma item_le_row (i j : nat) : item A i j <= Zsum (nth i A []).
Proof.
  pose proof (rows_nonneg HA) as H. unfold item.
  assert (Hr : Forall (fun v => 0 <= v) (nth i A [])).
  { destruct (nth_in_or_default i A []) as [Hi | ->]; [|constructor].
    rewrite Forall_forall in H. now apply H. }
  destruct (nth_in_or_default j (nth i A []) 0) as [Hj | ->].
  - now apply Zsum_In_le.
  - now apply Zsum_nonneg.
Qed.

Lemma col_split (i j : nat) :
  col_Z A j
  = Zsum (map (fun r => nth j r 0) (firstn i A)) + item A i j
    + Zsum (map (fun r => nth j r 0) (skipn (S i) A)).
Proof.
  unfold col_Z. rewrite (Zsum_split (map (fun r => nth j r 0) A) i).
  rewrite firstn_map, skipn_map. f_equal. f_equal.
  unfold item.
  assert (E0 : nth j (@nil Z) 0 = 0) by now destruct j.
  rewrite <- E0 at 1.
  exact (map_nth (fun r => nth j r 0) A [] i).
Qed.

(** The pairs formed with the entry (i, j): the concordant ones, the
    discordant ones and those tied on the column never exceed the
    total. *)
Lemma cell_bound_col (i j : nat) :
  Aij_Z A i j + Dij_Z A i j + col_Z A j <= total A.
Proof.
  pose proof (rows_nonneg HA) as H.
  rewrite (total_split_row A i).
  rewrite (total_split_col (firstn i A) j),
    (total_split_col (skipn (S i) A) j).
  rewrite (col_split i j).
  pose proof (item_le_row i j).
  unfold Aij_Z, Dij_Z. lia.
Qed.

Lemma pair_count_bound_col :
  P_Z A + Q_Z A + Scj2_Z A <= total A * total A.
Proof.
  destruct (Nat.eq_dec m 0) as [Hm0|Hm0].
  - destruct HA as (Hlen & _). destruct A; [|cbn in Hlen; lia].
    cbn. lia.
  - assert (Hm : (0 < m)%nat) by lia.
    assert (ES : Scj2_Z A
                 = dsumZ m n (fun i j => item A i j * col_Z A j)).
    { unfold Scj2_Z, dsumZ. rewrite (ncols_eq HA Hm), Zsum_exchange.
      apply Zsum_map_ext_in. intros j _.
      now rewrite Zsum_map_mul_r, col_items. }
    rewrite ES. unfold P_Z, Q_Z, dsumZ.
    rewrite (nrows_eq HA), (ncols_eq HA Hm).
    rewrite <- !Zsum_map_add.
    rewrite (total_rows HA) at 1. rewrite <- Zsum_map_mul_r.
    apply Zsum_map_le. intros i Hi. apply in_seq in Hi.
    assert (Eri : Zsum (map (item A i) (seq 0 n)) = Zsum (nth i A []))
      by (apply (row_sum_items HA); lia).
    set (N := total A).
    replace (Zsum (nth i A []) * N)
      with (Zsum (map (fun j => item A i j * N) (seq 0 n)))
      by (now rewrite Zsum_map_mul_r, Eri).
    rewrite <- !Zsum_map_add. apply Zsum_map_le. intros j _.
    pose proof (item_nonneg HA i j) as Ha.
    pose proof (cell_bound_col i j) as Hc. fold N in Hc.
    rewrite <- !Z.mul_add_distr_l.
    now apply Z.mul_le_mono_nonneg_l.
Qed.

(** The square of the difference of the concordant and discordant pairs
    is at most the product of the pairs untied on the rows and the pairs
    untied on the columns. *)
Lemma tau_denominator_bound :
  (P_Z A - Q_Z A) * (P_Z A - Q_Z A)
  <= (total A * total A - Sri2_Z A) * (total A * total A - Scj2_Z A).
Proof.
  pose proof (P_Z_nonneg HA). pose proof (Q_Z_nonneg HA).
  pose proof (pair_count_bound HA). pose proof pair_count_bound_col.
  set (U := total A * total A - Sri2_Z A) in *.
  set (V := total A * total A - Scj2_Z A) in *.
  set (X := P_Z A - Q_Z A).
  assert (HU : Z.abs X <= U) by (subst X U; lia).
  assert (HV : Z.abs X <= V) by (subst X V; lia).
  rewrite <- Z.abs_square.
  apply Z.mul_le_mono_nonneg; lia.
Qed.

End Columns.

Lemma Rratio_in_unit_ball (x s : R) :
  (0 < s -> - s <= x <= s -> -1 <= x / s <= 1)%R.
Proof.
  intros Hs Hx.
  assert (Pi : (0 < / s)%R) by now apply Rinv_0_lt_compat.
  unfold Rdiv. split.
  - apply Rmult_le_reg_r with s; [lra|].
    rewrite Rmult_assoc, Rinv_l by lra. lra.
  - apply Rmult_le_reg_r with s; [lra|].
    rewrite Rmult_assoc, Rinv_l by lra. lra.
Qed.

Lemma sqrt_dominates (x D : Z) :
  x * x <= D -> (- sqrt (IZR D) <= IZR x <= sqrt (IZR D))%R.
Proof.
  intros H. apply IZR_le in H. rewrite mult_IZR in H.
  apply sqrt_le_1_alt in H.
  change (IZR x * IZR x)%R with (Rsqr (IZR x)) in H.
  rewrite sqrt_Rsqr_abs in H.
  unfold Rabs in H. destruct (Rcase_abs (IZR x)); lra.
Qed.

Section TauB.

Variable norm_sf : xreal -> xreal.

Lemma tau_b_statistic (m n : nat) (A : list (list Z)) :
  count_table m n A -> (2 <= m)%nat -> (2 <= n)%nat ->
  (total A * total A) * (total A * total A) < 2 ^ 63 ->
  fst (_tau_b norm_sf A)
  = xdiv (of_int (P_Z A - Q_Z A))
         (xpow_half
            (of_int ((total A * total A - Sri2_Z A)
                     * (total A * total A - Scj2_Z A)))).
Proof.
  intros HA Hm Hn HN4. unfold _tau_b.
  rewrite (nrows_eq HA), (@ncols_eq m n A HA) by lia.
  destruct (Nat.eqb_spec m 1); [lia|].
  destruct (Nat.eqb_spec n 1); [lia|]. cbn [orb]. cbv zeta.
  pose proof (total_nonneg (rows_nonneg HA)) as HN0.
  pose proof (P_Z_nonneg HA) as HP. pose proof (Q_Z_nonneg HA) as HQ.
  pose proof (Sri2_Z_nonneg A) as HS. pose proof (Scj2_Z_nonneg A) as HC.
  pose proof (pair_count_bound HA) as HB.
  pose proof (pair_count_bound_col HA) as HBc.
  assert (HN : total A * total A < 2 ^ 63) by nia.
  destruct (somers_quantities HA HN) as (_ & E0 & _ & _ & E3 & E1 & E2).
  rewrite E1, E2, E0, sum_of_squares_col_sums_wrap.
  rewrite (wrap64_small (z := Scj2_Z A)) by lia.
  set (U := total A * total A - Sri2_Z A) in *.
  set (V := total A * total A - Scj2_Z A) in *.
  change (Int64.sub (total A * total A) (Scj2_Z A))
    with (Int64.wrap64 V).
  assert (HU : 0 <= U <= total A * total A) by (subst U; lia).
  assert (HV : 0 <= V <= total A * total A) by (subst V; lia).
  rewrite (wrap64_small (z := V)) by lia.
  assert (HUV : 0 <= U * V < 2 ^ 63).
  { split; [apply Z.mul_nonneg_nonneg; lia|].
    apply Z.le_lt_trans with ((total A * total A) * (total A * total A));
      [|exact HN4].
    apply Z.mul_le_mono_nonneg; lia. }
  assert (EM : int64_mul U V = U * V)
    by (unfold int64_mul; apply wrap64_small; lia).
  rewrite EM. now destruct (xeq _ _).
Qed.

(** X10: on a table of non-negative counts with at least two rows and two
    columns (and [N^4 < 2^63]) the statistic of [_tau_b] is a number of
    [-1, 1], namely [(P - Q) / sqrt ((N^2 - sum_i r_i^2) (N^2 - sum_j c_j^2))],
    unless that product is zero (all the observations in one row or in one
    column), where it is not-a-number. *)
Theorem X10_tau_b_range (m n : nat) (A : list (list Z)) :
  count_table m n A -> (2 <= m)%nat -> (2 <= n)%nat ->
  (total A * total A) * (total A * total A) < 2 ^ 63 ->
  let den := (total A * total A - Sri2_Z A)
             * (total A * total A - Scj2_Z A) in
  (den = 0 -> fst (_tau_b norm_sf A) = NaN)
  /\ (den <> 0 ->
      exists r,
        fst (_tau_b norm_sf A) = Fin r
        /\ r = (IZR (P_Z A - Q_Z A) / sqrt (IZR den))%R
        /\ (-1 <= r <= 1)%R).
Proof.
  intros HA Hm Hn HN4 den. rewrite (tau_b_statistic HA Hm Hn HN4).
  fold den. pose proof (tau_denominator_bound HA) as HB. fold den in HB.
  assert (Hden : 0 <= den).
  { apply Z.le_trans with ((P_Z A - Q_Z A) * (P_Z A - Q_Z A)); [|exact HB].
    apply Z.square_nonneg. }
  clearbody den. split.
  - intros E. rewrite E in *.
    assert (E0 : P_Z A - Q_Z A = 0) by nia.
    rewrite E0. unfold of_int, xpow_half.
    destruct (Rlt_dec 0 0); [lra|]. rewrite sqrt_0.
    unfold xdiv, inf_of_sign.
    destruct (Req_dec_T 0 0); [|lra].
    destruct (Rlt_dec 0 0); [lra|reflexivity].
  - intros Hne.
    assert (Pd : (0 < IZR den)%R) by (apply IZR_lt; lia).
    pose proof (sqrt_lt_R0 _ Pd) as Ps.
    unfold of_int, xpow_half.
    destruct (Rlt_dec (IZR den) 0); [lra|]. unfold xdiv.
    destruct (Req_dec_T (sqrt (IZR den)) 0); [lra|].
    eexists; split; [reflexivity|]. split; [reflexivity|].
    apply Rratio_in_unit_ball; [exact Ps|].
    now apply sqrt_dominates.
Qed.

Lemma two_by_two_columns (a b c d : Z) :
  Scj2_Z [[a; b]; [c; d]] = (a + c) * (a + c) + (b + d) * (b + d).
Proof.
  unfold Scj2_Z, col_Z, ncols, Zsum. cbn -[Z.mul Z.add]. ring.
Qed.

(** X11: on a 2x2 table of counts [[a, b], [c, d]] whose four margins are
    positive (and [N^4 < 2^63]) the statistic of [_tau_b] is the phi
    coefficient [(a d - b c) / sqrt ((a + b) (c + d) (a + c) (b + d))]. *)
Theorem X11_tau_b_2x2 (a b c d : Z) :
  0 <= a -> 0 <= b -> 0 <= c -> 0 <= d ->
  ((a + b + c + d) * (a + b + c + d))
  * ((a + b + c + d) * (a + b + c + d)) < 2 ^ 63 ->
  0 < a + b -> 0 < c + d -> 0 < a + c -> 0 < b + d ->
  fst (_tau_b norm_sf [[a; b]; [c; d]])
  = Fin (IZR (a * d - b * c)
         / sqrt (IZR ((a + b) * (c + d) * ((a + c) * (b + d))))).
Proof.
  intros Ha Hb Hc Hd HN4 Hr1 Hr2 Hc1 Hc2.
  pose proof (two_by_two_table Ha Hb Hc Hd) as HA.
  destruct (two_by_two_counts a b c d) as (EP & EQ & ES & EN).
  pose proof (two_by_two_columns a b c d) as EC.
  rewrite (@tau_b_statistic 2 2 _ HA) by (rewrite ?EN; auto).
  rewrite EP, EQ, ES, EC, EN.
  set (K := (a + b) * (c + d) * ((a + c) * (b + d))).
  assert (HK : 0 < K) by (subst K; repeat apply Z.mul_pos_pos; lia).
  replace (((a + b + c + d) * (a + b + c + d)
            - ((a + b) * (a + b) + (c + d) * (c + d)))
           * ((a + b + c + d) * (a + b + c + d)
              - ((a + c) * (a + c) + (b + d) * (b + d))))
    with (2 * 2 * K) by (subst K; ring).
  replace (2 * (a * d) - 2 * (b * c)) with (2 * (a * d - b * c)) by ring.
  clearbody K.
  assert (PK : (0 < IZR K)%R) by now apply IZR_lt.
  pose proof (sqrt_lt_R0 _ PK) as Ps.
  unfold of_int, xpow_half. rewrite !mult_IZR.
  destruct (Rlt_dec (2 * 2 * IZR K) 0); [lra|].
  rewrite sqrt_mult by lra.
  replace (sqrt (2 * 2)) with 2%R
    by (symmetry; change (2 * 2)%R with (Rsqr 2); apply sqrt_Rsqr; lra).
  unfold xdiv.
  destruct (Req_dec_T (2 * sqrt (IZR K)) 0); [lra|].
  f_equal. field. lra.
Qed.

End TauB.

(** *** The variance term of the p-values *)

Lemma a_ij_Aij_Dij2_wrap (A : list (list Z)) :
  Forall (Forall (fun v => - 2 ^ 63 <= v < 2 ^ 63)) A ->
  _a_ij_Aij_Dij2 A = Int64.wrap64 (V_Z A).
Proof.
  intros H. unfold _a_ij_Aij_Dij2, V_Z. apply count_loop_wrap. intros i j.
  cbv zeta. rewrite (item_wrap i j H) at 1.
  now rewrite Aij_wrap, Dij_wrap, sub_wrap, !mul_wrap.
Qed.

Lemma weighted_square_nonneg (l : list (Z * Z)) (c : Z) :
  Forall (fun p => 0 <= fst p) l ->
  0 <= Zsum (map (fun p => fst p * (snd p * snd p)) l)
       - 2 * c * Zsum (map (fun p => fst p * snd p) l)
       + c * c * Zsum (map fst l).
Proof.
  induction 1 as [|[w d] l Hw _ IH]; cbn [map].
  - rewrite !Zsum_nil. lia.
  - rewrite !Zsum_cons. cbn [fst snd] in *.
    assert (0 <= w * ((d - c) * (d - c)))
      by (apply Z.mul_nonneg_nonneg; [lia | apply Z.square_nonneg]).
    lia.
Qed.

(** The inequality of Cauchy and Schwarz for non-negative weights. *)
Lemma weighted_cauchy_schwarz (l : list (Z * Z)) :
  Forall (fun p => 0 <= fst p) l ->
  Zsum (map (fun p => fst p * snd p) l)
  * Zsum (map (fun p => fst p * snd p) l)
  <= Zsum (map fst l) * Zsum (map (fun p => fst p * (snd p * snd p)) l).
Proof.
  induction 1 as [|[w d] l Hw Hl IH]; cbn [map].
  - rewrite !Zsum_nil. lia.
  - rewrite !Zsum_cons. cbn [fst snd] in *.
    pose proof (weighted_square_nonneg d Hl) as Hd.
    set (S2 := Zsum (map (fun p => fst p * (snd p * snd p)) l)) in *.
    set (S1 := Zsum (map (fun p => fst p * snd p) l)) in *.
    set (S0 := Zsum (map fst l)) in *.
    clearbody S2 S1 S0.
    assert (0 <= w * (S2 - 2 * d * S1 + d * d * S0))
      by (apply Z.mul_nonneg_nonneg; lia).
    lia.
Qed.

Lemma dsumZ_cells {B : Type} (h : nat -> nat -> B) (g : B -> Z)
    (m n : nat) :
  dsumZ m n (fun i j => g (h i j))
  = Zsum (map g (concat (map (fun i => map (h i) (seq 0 n)) (seq 0 m)))).
Proof.
  unfold dsumZ. rewrite concat_map, Zsum_concat. unfold total.
  rewrite !map_map. f_equal. apply map_ext. intros i. now rewrite map_map.
Qed.

Section Variance.

Variables (m n : nat) (A : list (list Z)).
Hypothesis HA : count_table m n A.
Hypothesis Hm : (0 < m)%nat.

(** The cells of the table: the count and the difference of the numbers of
    observations concordant and discordant with it. *)
Local Abbreviation cell :=
  (fun i j => (item A i j, Aij_Z A i j - Dij_Z A i j)).
Local Abbreviation cells :=
  (concat (map (fun i => map (cell i) (seq 0 n)) (seq 0 m))).

Lemma cells_spec (p : Z * Z) :
  In p cells -> 0 <= fst p /\ - total A <= snd p <= total A.
Proof.
  intros Hp. apply in_concat in Hp. destruct Hp as (r & Hr & Hp).
  apply in_map_iff in Hr. destruct Hr as (i & <- & _).
  apply in_map_iff in Hp. destruct Hp as (j & <- & _). cbn [fst snd].
  pose proof (item_nonneg HA i j). pose proof (item_le_row HA i j).
  pose proof (Aij_Z_nonneg HA i j). pose proof (Dij_Z_nonneg HA i j).
  pose proof (cell_bound HA i j). lia.
Qed.

Lemma total_cells : total A = Zsum (map fst cells).
Proof.
  rewrite <- (dsumZ_cells cell fst). cbn [fst]. unfold dsumZ.
  rewrite (total_rows HA). apply Zsum_map_ext_in. intros i Hi.
  apply in_seq in Hi. symmetry. apply (row_sum_items HA). lia.
Qed.

Lemma V_cells :
  V_Z A = Zsum (map (fun p => fst p * (snd p * snd p)) cells).
Proof.
  rewrite <- (dsumZ_cells cell (fun p => fst p * (snd p * snd p))).
  unfold V_Z. now rewrite (nrows_eq HA), (ncols_eq HA Hm).
Qed.

Lemma difference_cells :
  P_Z A - Q_Z A = Zsum (map (fun p => fst p * snd p) cells).
Proof.
  rewrite <- (dsumZ_cells cell (fun p => fst p * snd p)). cbn [fst snd].
  unfold P_Z, Q_Z, dsumZ. rewrite (nrows_eq HA), (ncols_eq HA Hm).
  apply Z.sub_move_r. rewrite <- Zsum_map_add.
  apply Zsum_map_ext_in. intros i _. rewrite <- Zsum_map_add.
  apply Zsum_map_ext_in. intros j _. ring.
Qed.

Lemma cells_nonneg : Forall (fun p => 0 <= fst p) cells.
Proof. apply Forall_forall. intros p Hp. now apply cells_spec. Qed.

Lemma V_Z_bounds : 0 <= V_Z A <= total A * (total A * total A).
Proof.
  rewrite V_cells. split.
  - apply Zsum_map_nonneg. intros p Hp. apply cells_spec in Hp.
    apply Z.mul_nonneg_nonneg; [lia | apply Z.square_nonneg].
  - rewrite total_cells at 1. rewrite <- Zsum_map_mul_r.
    apply Zsum_map_le. intros p Hp. apply cells_spec in Hp.
    apply Z.mul_le_mono_nonneg_l; [lia|].
    rewrite <- (Z.abs_square (snd p)).
    apply Z.mul_le_mono_nonneg; lia.
Qed.

Lemma difference_squared : 
  (P_Z A - Q_Z A) * (P_Z A - Q_Z A) <= total A * V_Z A.
Proof.
  rewrite difference_cells, V_cells, total_cells.
  apply weighted_cauchy_schwarz, cells_nonneg.
Qed.

End Variance.

(** X18: on a table of non-negative counts with [N^4 < 2^63] the int64
    loop of [_a_ij_Aij_Dij2] does not wrap around and its result is not
    negative; the square [(PA - QA)**2] does not wrap around either, and
    it is at most [NA * _a_ij_Aij_Dij2(A)] (the inequality of Cauchy and
    Schwarz): as a ratio of integers, the term
    [_a_ij_Aij_Dij2(A) - (PA - QA)**2 / NA] of [_somers_d] and [_tau_b] is
    not negative. *)
Theorem X18_variance_term (m n : nat) (A : list (list Z)) :
  count_table m n A ->
  (total A * total A) * (total A * total A) < 2 ^ 63 ->
  _a_ij_Aij_Dij2 A = V_Z A
  /\ 0 <= _a_ij_Aij_Dij2 A
  /\ int64_mul (Int64.sub (_P A) (_Q A)) (Int64.sub (_P A) (_Q A))
     = (_P A - _Q A) * (_P A - _Q A)
  /\ (_P A - _Q A) * (_P A - _Q A) <= sum2 A * _a_ij_Aij_Dij2 A.
Proof.
  intros HA HN4.
  pose proof (total_nonneg (rows_nonneg HA)) as HN0.
  assert (HN2 : total A * total A < 2 ^ 63) by nia.
  assert (HN : total A < 2 ^ 63) by nia.
  destruct (somers_quantities HA HN2) as (EN & _ & EP & EQ & _ & EX & _).
  rewrite (a_ij_Aij_Dij2_wrap (entries_in_range HA HN)), EN, EX, EP, EQ.
  assert (HV : 0 <= V_Z A <= total A * (total A * total A)
               /\ (P_Z A - Q_Z A) * (P_Z A - Q_Z A) <= total A * V_Z A).
  { destruct (Nat.eq_dec m 0) as [Hm0|Hm0].
    - destruct HA as (Hlen & _). destruct A; [|cbn in Hlen; lia].
      cbn. lia.
    - split; [apply (V_Z_bounds HA) | apply (difference_squared HA)]; lia. }
  destruct HV as (HV & HX).
  pose proof (Z.square_nonneg (P_Z A - Q_Z A)) as HX0.
  set (N := total A) in *. set (V := V_Z A) in *.
  set (X := P_Z A - Q_Z A) in *. clearbody N V X.
  assert (HN3 : N * (N * N) <= (N * N) * (N * N)) by nia.
  assert (HNV : N * V <= (N * N) * (N * N)) by nia.
  unfold int64_mul. rewrite !wrap64_small by lia.
  repeat split; lia.
Qed.

(** *** Reversing the order of the categories *)

Lemma Zsum_rev (l : list Z) : Zsum (rev l) = Zsum l.
Proof.
  induction l as [|x l IH]; cbn [rev]; [reflexivity|].
  rewrite Zsum_app, !Zsum_cons, Zsum_nil, IH. ring.
Qed.

Lemma total_rev (R : list (list Z)) : total (rev R) = total R.
Proof. unfold total. now rewrite map_rev, Zsum_rev. Qed.

Lemma total_map_rev (R : list (list Z)) : total (map (@rev Z) R) = total R.
Proof.
  unfold total. rewrite map_map. apply Zsum_map_ext_in.
  intros r _. apply Zsum_rev.
Qed.

Lemma Zsum_seq_reflect (g : nat -> Z) (n : nat) :
  Zsum (map (fun j => g (n - 1 - j)%nat) (seq 0 n)) = Zsum (map g (seq 0 n)).
Proof.
  induction n as [|n IH]; [reflexivity|].
  rewrite seq_S at 2. rewrite map_app, Zsum_app. cbn [map seq plus].
  rewrite <- seq_shift, map_map, !Zsum_cons, Zsum_nil, <- IH.
  replace (S n - 1 - 0)%nat with n by lia.
  assert (E : Zsum (map (fun j => g (S n - 1 - S j)%nat) (seq 0 n))
              = Zsum (map (fun j => g (n - 1 - j)%nat) (seq 0 n))).
  { apply Zsum_map_ext_in. intros j _. f_equal. lia. }
  rewrite E. ring.
Qed.

Lemma dsumZ_ext_in (m n : nat) (f g : nat -> nat -> Z) :
  (forall i j, (i < m)%nat -> (j < n)%nat -> f i j = g i j) ->
  dsumZ m n f = dsumZ m n g.
Proof.
  intros H. unfold dsumZ. apply Zsum_map_ext_in. intros i Hi.
  apply Zsum_map_ext_in. intros j Hj.
  apply in_seq in Hi. apply in_seq in Hj. apply H; lia.
Qed.

Lemma dsumZ_reflect_cols (m n : nat) (f : nat -> nat -> Z) :
  dsumZ m n (fun i j => f i (n - 1 - j)%nat) = dsumZ m n f.
Proof.
  unfold dsumZ. apply Zsum_map_ext_in. intros i _.
  apply (Zsum_seq_reflect (f i)).
Qed.

Lemma dsumZ_reflect_rows (m n : nat) (f : nat -> nat -> Z) :
  dsumZ m n (fun i j => f (m - 1 - i)%nat j) = dsumZ m n f.
Proof.
  unfold dsumZ.
  apply (Zsum_seq_reflect (fun i => Zsum (map (f i) (seq 0 n)))).
Qed.

Lemma blocks_map_rev (n : nat) (R : list (list Z)) (j : nat) :
  Forall (fun r => length r = n) R ->
  total (map (firstn j) (map (@rev Z) R)) = total (map (skipn (n - j)) R)
  /\ total (map (skipn j) (map (@rev Z) R)) = total (map (firstn (n - j)) R).
Proof.
  intros H. unfold total. rewrite !map_map. split.
  - apply Zsum_map_ext_in. intros r Hr. rewrite Forall_forall in H.
    now rewrite firstn_rev, Zsum_rev, (H r Hr).
  - apply Zsum_map_ext_in. intros r Hr. rewrite Forall_forall in H.
    now rewrite skipn_rev, Zsum_rev, (H r Hr).
Qed.

Lemma blocks_rev (f : list Z -> list Z) (R : list (list Z)) (i : nat) :
  total (map f (firstn i (rev R)))
  = total (map f (skipn (length R - i) R))
  /\ total (map f (skipn i (rev R)))
     = total (map f (firstn (length R - i) R)).
Proof.
  rewrite firstn_rev, skipn_rev, !map_rev, !total_rev. now split.
Qed.

Section Reversal.

Variables (m n : nat) (A : list (list Z)).
Hypothesis HA : count_table m n A.

Lemma rows_uniform : Forall (fun r => length r = n) A.
Proof.
  destruct HA as (_ & H). eapply Forall_impl; [|exact H].
  now intros r (Hr & _).
Qed.

Lemma count_table_map_rev : count_table m n (map (@rev Z) A).
Proof.
  destruct HA as (Hlen & H). split; [now rewrite length_map|].
  apply Forall_map. eapply Forall_impl; [|exact H].
  intros r (Hr & Hp). split; [now rewrite length_rev | now apply Forall_rev].
Qed.

Lemma count_table_rev : count_table m n (rev A).
Proof.
  destruct HA as (Hlen & H). split; [now rewrite length_rev|].
  now apply Forall_rev.
Qed.

(** Columns. *)

Lemma item_map_rev (i j : nat) :
  (i < m)%nat -> (j < n)%nat ->
  item (map (@rev Z) A) i j = item A i (n - 1 - j).
Proof.
  intros Hi Hj. unfold item.
  rewrite (map_nth (@rev Z) A [] i : nth i (map (@rev Z) A) [] = rev (nth i A [])).
  rewrite rev_nth by (rewrite (row_length HA Hi); lia).
  rewrite (row_length HA Hi). f_equal. lia.
Qed.

Lemma Aij_Dij_map_rev (i j : nat) :
  (j < n)%nat ->
  Aij_Z (map (@rev Z) A) i j = Dij_Z A i (n - 1 - j)
  /\ Dij_Z (map (@rev Z) A) i j = Aij_Z A i (n - 1 - j).
Proof.
  intros Hj. unfold Aij_Z, Dij_Z. rewrite firstn_map, skipn_map.
  pose proof rows_uniform as H.
  destruct (blocks_map_rev j (Forall_firstn i H)) as (E1 & _).
  destruct (blocks_map_rev (S j) (Forall_firstn i H)) as (_ & E2).
  destruct (blocks_map_rev j (Forall_skipn (S i) H)) as (E3 & _).
  destruct (blocks_map_rev (S j) (Forall_skipn (S i) H)) as (_ & E4).
  rewrite E1, E2, E3, E4.
  replace (S (n - 1 - j)) with (n - j)%nat by lia.
  replace (n - S j)%nat with (n - 1 - j)%nat by lia.
  split; ring.
Qed.

Lemma shape_map_rev :
  nrows (map (@rev Z) A) = nrows A /\ ncols (map (@rev Z) A) = ncols A.
Proof.
  unfold nrows, ncols. rewrite length_map. split; [reflexivity|].
  destruct A as [|r R]; [reflexivity|]. cbn. apply length_rev.
Qed.

Lemma counts_map_rev :
  P_Z (map (@rev Z) A) = Q_Z A /\ Q_Z (map (@rev Z) A) = P_Z A
  /\ V_Z (map (@rev Z) A) = V_Z A.
Proof.
  destruct shape_map_rev as (Er & Ec). unfold P_Z, Q_Z, V_Z.
  rewrite Er, Ec, (nrows_eq HA). set (k := ncols A).
  destruct (Nat.eq_dec m 0) as [Hm0|Hm0].
  { subst m. unfold dsumZ. cbn. repeat split; reflexivity. }
  assert (Ek : k = n) by (apply (ncols_eq HA); lia). rewrite Ek.
  repeat split.
  - rewrite <- (dsumZ_reflect_cols m n
                  (fun i j => item A i j * Dij_Z A i j)).
    apply dsumZ_ext_in. intros i j Hi Hj.
    destruct (Aij_Dij_map_rev i Hj) as (E1 & _).
    now rewrite (item_map_rev Hi Hj), E1.
  - rewrite <- (dsumZ_reflect_cols m n
                  (fun i j => item A i j * Aij_Z A i j)).
    apply dsumZ_ext_in. intros i j Hi Hj.
    destruct (Aij_Dij_map_rev i Hj) as (_ & E2).
    now rewrite (item_map_rev Hi Hj), E2.
  - rewrite <- (dsumZ_reflect_cols m n
                  (fun i j =>
                     item A i j
                     * ((Aij_Z A i j - Dij_Z A i j)
                        * (Aij_Z A i j - Dij_Z A i j)))).
    apply dsumZ_ext_in. intros i j Hi Hj.
    destruct (Aij_Dij_map_rev i Hj) as (E1 & E2).
    rewrite (item_map_rev Hi Hj), E1, E2. ring.
Qed.

Lemma Sri2_map_rev : Sri2_Z (map (@rev Z) A) = Sri2_Z A.
Proof.
  unfold Sri2_Z. rewrite map_map. apply Zsum_map_ext_in.
  intros r _. now rewrite Zsum_rev.
Qed.

Lemma Scj2_map_rev : Scj2_Z (map (@rev Z) A) = Scj2_Z A.
Proof.
  destruct shape_map_rev as (_ & Ec). unfold Scj2_Z. rewrite Ec.
  destruct (Nat.eq_dec m 0) as [Hm0|Hm0].
  { destruct HA as (Hlen & _). destruct A; [reflexivity|].
    cbn in Hlen. lia. }
  rewrite (ncols_eq HA) by lia.
  rewrite <- (Zsum_seq_reflect (fun j => col_Z A j * col_Z A j) n).
  apply Zsum_map_ext_in. intros j Hj. apply in_seq in Hj.
  assert (E : col_Z (map (@rev Z) A) j = col_Z A (n - 1 - j)).
  { unfold col_Z. rewrite map_map. apply Zsum_map_ext_in. intros r Hr.
    pose proof rows_uniform as H. rewrite Forall_forall in H.
    rewrite rev_nth by (rewrite (H r Hr); lia).
    rewrite (H r Hr). f_equal. lia. }
  now rewrite E.
Qed.

(** Rows. *)

Lemma item_rev (i j : nat) :
  (i < m)%nat -> item (rev A) i j = item A (m - 1 - i) j.
Proof.
  intros Hi. unfold item. pose proof (nrows_eq HA) as Hlen.
  unfold nrows in Hlen.
  rewrite rev_nth by lia. rewrite Hlen. do 2 f_equal. lia.
Qed.

Lemma Aij_Dij_rev (i j : nat) :
  (i < m)%nat ->
  Aij_Z (rev A) i j = Dij_Z A (m - 1 - i) j
  /\ Dij_Z (rev A) i j = Aij_Z A (m - 1 - i) j.
Proof.
  intros Hi. unfold Aij_Z, Dij_Z. pose proof (nrows_eq HA) as Hlen.
  unfold nrows in Hlen.
  destruct (blocks_rev (firstn j) A i) as (E1 & _).
  destruct (blocks_rev (skipn (S j)) A (S i)) as (_ & E2).
  destruct (blocks_rev (firstn j) A (S i)) as (_ & E3).
  destruct (blocks_rev (skipn (S j)) A i) as (E4 & _).
  rewrite E1, E2, E3, E4, Hlen.
  replace (S (m - 1 - i)) with (m - i)%nat by lia.
  replace (m - S i)%nat with (m - 1 - i)%nat by lia.
  split; ring.
Qed.

Lemma shape_rev : nrows (rev A) = nrows A /\ ncols (rev A) = ncols A.
Proof.
  split; [apply length_rev|].
  destruct (Nat.eq_dec m 0) as [Hm0|Hm0].
  - destruct HA as (Hlen & _). destruct A; [reflexivity|].
    cbn in Hlen. lia.
  - rewrite (ncols_eq count_table_rev), (ncols_eq HA) by lia. reflexivity.
Qed.

Lemma counts_rev :
  P_Z (rev A) = Q_Z A /\ Q_Z (rev A) = P_Z A /\ V_Z (rev A) = V_Z A.
Proof.
  destruct shape_rev as (Er & Ec). unfold P_Z, Q_Z, V_Z.
  rewrite Er, Ec, (nrows_eq HA). set (k := ncols A).
  repeat split.
  - rewrite <- (dsumZ_reflect_rows m k
                  (fun i j => item A i j * Dij_Z A i j)).
    apply dsumZ_ext_in. intros i j Hi Hj.
    destruct (Aij_Dij_rev j Hi) as (E1 & _).
    now rewrite (item_rev j Hi), E1.
  - rewrite <- (dsumZ_reflect_rows m k
                  (fun i j => item A i j * Aij_Z A i j)).
    apply dsumZ_ext_in. intros i j Hi Hj.
    destruct (Aij_Dij_rev j Hi) as (_ & E2).
    now rewrite (item_rev j Hi), E2.
  - rewrite <- (dsumZ_reflect_rows m k
                  (fun i j =>
                     item A i j
                     * ((Aij_Z A i j - Dij_Z A i j)
                        * (Aij_Z A i j - Dij_Z A i j)))).
    apply dsumZ_ext_in. intros i j Hi Hj.
    destruct (Aij_Dij_rev j Hi) as (E1 & E2).
    rewrite (item_rev j Hi), E1, E2. ring.
Qed.

Lemma Sri2_rev : Sri2_Z (rev A) = Sri2_Z A.
Proof. unfold Sri2_Z. now rewrite map_rev, Zsum_rev. Qed.

Lemma Scj2_rev : Scj2_Z (rev A) = Scj2_Z A.
Proof.
  destruct shape_rev as (_ & Ec). unfold Scj2_Z. rewrite Ec.
  apply Zsum_map_ext_in. intros j _.
  assert (E : col_Z (rev A) j = col_Z A j)
    by (unfold col_Z; now rewrite map_rev, Zsum_rev).
  now rewrite E.
Qed.

End Reversal.

Lemma of_int_opp (z : Z) : of_int (- z) = xneg (of_int z).
Proof. unfold of_int. cbn [xneg]. now rewrite opp_IZR. Qed.

Section Mirror.

Variable norm_sf : xreal -> xreal.

Variables (m n : nat) (A B : list (list Z)).
Hypothesis HA : count_table m n A.
Hypothesis HB : count_table m n B.
Hypothesis HN : total A * total A < 2 ^ 63.
Hypothesis Hrows : nrows B = nrows A.
Hypothesis Hcols : ncols B = ncols A.
Hypothesis EN : total B = total A.
Hypothesis ES : Sri2_Z B = Sri2_Z A.
Hypothesis EC : Scj2_Z B = Scj2_Z A.
Hypothesis EP : P_Z B = Q_Z A.
Hypothesis EQ : Q_Z B = P_Z A.
Hypothesis EV : V_Z B = V_Z A.

Lemma mirror_values :
  sum2 B = sum2 A
  /\ int64_mul (sum2 B) (sum2 B) = int64_mul (sum2 A) (sum2 A)
  /\ sum_of_squares (row_sums B) = sum_of_squares (row_sums A)
  /\ sum_of_squares (col_sums B) = sum_of_squares (col_sums A)
  /\ _a_ij_Aij_Dij2 B = _a_ij_Aij_Dij2 A
  /\ Int64.sub (_P B) (_Q B) = - Int64.sub (_P A) (_Q A).
Proof.
  assert (HNB : total B * total B < 2 ^ 63) by (now rewrite EN).
  pose proof (total_nonneg (rows_nonneg HA)) as HN0.
  assert (HN1 : total A < 2 ^ 63) by nia.
  assert (HN1B : total B < 2 ^ 63) by (now rewrite EN).
  destruct (somers_quantities HA HN) as (A1 & A2 & _ & _ & A3 & A4 & _).
  destruct (somers_quantities HB HNB) as (B1 & B2 & _ & _ & B3 & B4 & _).
  rewrite A2, B2, A1, A3, A4, B1, B3, B4, !sum_of_squares_col_sums_wrap.
  rewrite (a_ij_Aij_Dij2_wrap (entries_in_range HA HN1)).
  rewrite (a_ij_Aij_Dij2_wrap (entries_in_range HB HN1B)).
  rewrite EN, ES, EC, EP, EQ, EV. repeat split; ring.
Qed.

Lemma somers_d_mirror :
  _somers_d norm_sf B
  = (xneg (fst (_somers_d norm_sf A)), snd (_somers_d norm_sf A)).
Proof.
  destruct mirror_values as (E1 & _ & E3 & _ & E5 & E6).
  unfold _somers_d. rewrite Hrows, Hcols.
  destruct ((nrows A <=? 1)%nat || (ncols A <=? 1)%nat); [reflexivity|].
  cbv zeta. rewrite E1, E3, E5, E6.
  replace (int64_mul (- Int64.sub (_P A) (_Q A))
                     (- Int64.sub (_P A) (_Q A)))
    with (int64_mul (Int64.sub (_P A) (_Q A)) (Int64.sub (_P A) (_Q A)))
    by (unfold int64_mul; f_equal; ring).
  rewrite of_int_opp, !Symmetry.xdiv_xneg_l.
  destruct (xeq _ (Fin 0)); cbn [fst snd]; [reflexivity|].
  now rewrite Symmetry.xabs_xneg.
Qed.

Lemma tau_b_mirror :
  _tau_b norm_sf B
  = (xneg (fst (_tau_b norm_sf A)), snd (_tau_b norm_sf A)).
Proof.
  destruct mirror_values as (E1 & _ & E3 & E4 & E5 & E6).
  unfold _tau_b. rewrite Hrows, Hcols.
  destruct ((nrows A =? 1)%nat || (ncols A =? 1)%nat); [reflexivity|].
  cbv zeta. rewrite E1, E3, E4, E5, E6.
  replace (int64_mul (- Int64.sub (_P A) (_Q A))
                     (- Int64.sub (_P A) (_Q A)))
    with (int64_mul (Int64.sub (_P A) (_Q A)) (Int64.sub (_P A) (_Q A)))
    by (unfold int64_mul; f_equal; ring).
  rewrite of_int_opp, !Symmetry.xdiv_xneg_l.
  destruct (xeq _ (Fin 0)); cbn [fst snd]; [reflexivity|].
  now rewrite Symmetry.xabs_xneg.
Qed.

End Mirror.

(** X20: on a table of non-negative counts with [N^2 < 2^63], reversing the
    order of the columns, or the order of the rows, changes the sign of the
    statistic of [_somers_d] and leaves its p-value as it is. *)
Theorem X20_somers_d_reversal (norm_sf : xreal -> xreal) (m n : nat)
    (A : list (list Z)) :
  count_table m n A -> total A * total A < 2 ^ 63 ->
  _somers_d norm_sf (map (@rev Z) A)
  = (xneg (fst (_somers_d norm_sf A)), snd (_somers_d norm_sf A))
  /\ _somers_d norm_sf (rev A)
     = (xneg (fst (_somers_d norm_sf A)), snd (_somers_d norm_sf A)).
Proof.
  intros HA HN. split.
  - destruct (shape_map_rev HA) as (Er & Ec).
    destruct (counts_map_rev HA) as (EP & EQ & EV).
    apply (somers_d_mirror norm_sf HA (count_table_map_rev HA) HN Er Ec
             (total_map_rev A) (Sri2_map_rev A) (Scj2_map_rev HA)
             EP EQ EV).
  - destruct (shape_rev HA) as (Er & Ec).
    destruct (counts_rev HA) as (EP & EQ & EV).
    apply (somers_d_mirror norm_sf HA (count_table_rev HA) HN Er Ec
             (total_rev A) (Sri2_rev A) (Scj2_rev HA) EP EQ EV).
Qed.

(** X21: the same for [_tau_b]. *)
Theorem X21_tau_b_reversal (norm_sf : xreal -> xreal) (m n : nat)
    (A : list (list Z)) :
  count_table m n A -> total A * total A < 2 ^ 63 ->
  _tau_b norm_sf (map (@rev Z) A)
  = (xneg (fst (_tau_b norm_sf A)), snd (_tau_b norm_sf A))
  /\ _tau_b norm_sf (rev A)
     = (xneg (fst (_tau_b norm_sf A)), snd (_tau_b norm_sf A)).
Proof.
  intros HA HN. split.
  - destruct (shape_map_rev HA) as (Er & Ec).
    destruct (counts_map_rev HA) as (EP & EQ & EV).
    apply (tau_b_mirror norm_sf HA (count_table_map_rev HA) HN Er Ec
             (total_map_rev A) (Sri2_map_rev A) (Scj2_map_rev HA)
             EP EQ EV).
  - destruct (shape_rev HA) as (Er & Ec).
    destruct (counts_rev HA) as (EP & EQ & EV).
    apply (tau_b_mirror norm_sf HA (count_table_rev HA) HN Er Ec
             (total_rev A) (Sri2_rev A) (Scj2_rev HA) EP EQ EV).
Qed.

End SomersDFacts.

(* ================================================================== *)
(** ** The Cramer-von Mises test *)

Module CramerVonMisesFacts.

Import XReal NDArray XRealFacts CramerVonMises.

Local Open Scope Z_scope.

(** *** [np.sort] does not depend on the order of its argument *)

Ltac order_dec :=
  repeat match goal with
         | H : context [Rle_dec ?a ?b] |- _ => destruct (Rle_dec a b)
         | |- context [Rle_dec ?a ?b] => destruct (Rle_dec a b)
         end;
  try discriminate; try reflexivity; try lra; try (f_equal; lra).

Lemma sort_le_total (x y : xreal) :
  sort_le x y = false -> sort_le y x = true.
Proof. destruct x, y; cbn; unfold Rleb; intros H; order_dec. Qed.

Lemma sort_le_antisym (x y : xreal) :
  sort_le x y = true -> sort_le y x = true -> x = y.
Proof. destruct x, y; cbn; unfold Rleb; intros H1 H2; order_dec. Qed.

Lemma sort_le_trans (x y z : xreal) :
  sort_le x y = true -> sort_le y z = true -> sort_le x z = true.
Proof.
  destruct x, y, z; cbn; unfold Rleb; intros H1 H2; order_dec.
Qed.

Ltac order_saturate :=
  repeat match goal with
         | H : sort_le ?a ?b = false |- _ =>
             lazymatch goal with
             | _ : sort_le b a = true |- _ => fail
             | _ => pose proof (sort_le_total _ _ H)
             end
         end;
  repeat match goal with
         | H1 : sort_le ?a ?b = true, H2 : sort_le ?b ?c = true |- _ =>
             lazymatch goal with
             | _ : sort_le a c = true |- _ => fail
             | _ => pose proof (sort_le_trans _ _ _ H1 H2)
             end
         end;
  try congruence;
  repeat match goal with
         | H1 : sort_le ?a ?b = true, H2 : sort_le ?b ?a = true |- _ =>
             tryif constr_eq a b then fail
             else (pose proof (sort_le_antisym _ _ H1 H2); subst)
         end.

Lemma insert_comm (x y : xreal) (l : list xreal) :
  insert x (insert y l) = insert y (insert x l).
Proof.
  induction l as [|z l IH]; cbn [insert].
  - destruct (sort_le x y) eqn:Exy, (sort_le y x) eqn:Eyx;
      cbn [insert]; rewrite ?Exy, ?Eyx; try reflexivity;
      order_saturate; reflexivity.
  - destruct (sort_le y z) eqn:Eyz, (sort_le x z) eqn:Exz; cbn [insert];
      destruct (sort_le x y) eqn:Exy, (sort_le y x) eqn:Eyx;
      rewrite ?Eyz, ?Exz; cbn [insert]; rewrite ?Eyz, ?Exz;
      try reflexivity; try (now rewrite IH);
      order_saturate; try reflexivity; now rewrite IH.
Qed.

Lemma np_sort_permutation (l l' : list xreal) :
  Permutation l l' -> np_sort l = np_sort l'.
Proof.
  unfold np_sort. induction 1; cbn [fold_right].
  - reflexivity.
  - now f_equal.
  - apply insert_comm.
  - congruence.
Qed.

(** *** Sums of squares *)

Lemma xsub_nan_r (x : xreal) : xsub x NaN = NaN.
Proof. now destruct x. Qed.

Lemma xadd_nan_r (x : xreal) : xadd x NaN = NaN.
Proof. now destruct x. Qed.

Lemma xsum_nan (l : list xreal) : In NaN l -> xsum l = NaN.
Proof.
  unfold xsum. induction l as [|x l IH]; cbn [fold_right]; intros Hin.
  - destruct Hin.
  - destruct Hin as [-> | Hin]; [reflexivity|].
    rewrite (IH Hin). apply xadd_nan_r.
Qed.

Lemma zip_xsub_nan (u c : list xreal) :
  length c = length u -> In NaN c -> In NaN (zip xsub u c).
Proof.
  revert c. induction u as [|x u IH]; intros [|y c] Hlen Hin;
    try discriminate Hlen; try (now destruct Hin).
  cbn [zip]. destruct Hin as [-> | Hin].
  - left. apply xsub_nan_r.
  - right. apply IH; [now injection Hlen | exact Hin].
Qed.

Lemma zip_xsub_finite (u c : list xreal) :
  Forall Hypotests.finite u -> Forall Hypotests.finite c ->
  Forall Hypotests.finite (zip xsub u c).
Proof.
  intros Hu. revert c. induction Hu as [|x u [a ->] _ IH];
    intros c Hc; [constructor|].
  destruct Hc as [|y c [b ->] Hc]; cbn [zip]; constructor.
  - cbn. now eexists.
  - now apply IH.
Qed.

Lemma xsum_squares (l : list xreal) :
  Forall Hypotests.finite l ->
  exists t, xsum (map (fun x => xmul x x) l) = Fin t /\ (0 <= t)%R.
Proof.
  unfold xsum.
  induction 1 as [|x l [a ->] _ (t & IH & Ht)]; cbn [map fold_right].
  - exists 0%R. split; [reflexivity | lra].
  - rewrite IH. cbn. eexists. split; [reflexivity|]. nra.
Qed.

(** *** The support of the statistic *)

Lemma support_not_empty (n : Z) :
  0 < n -> (0 < 1 / IZR (12 * n) < IZR n / 3)%R.
Proof.
  intros Hn. assert (H1 : (1 <= IZR n)%R) by (apply IZR_le; lia).
  rewrite mult_IZR. unfold Rdiv. rewrite Rmult_1_l.
  assert (Hp : (0 < 12 * IZR n)%R) by lra.
  pose proof (Rinv_0_lt_compat _ Hp) as Hi.
  assert (Hle : (/ (12 * IZR n) <= / 12)%R)
    by (apply Rinv_le_contravar; lra).
  lra.
Qed.

(** [max(0, v)] of Python. *)
Lemma py_max_nonneg (v : xreal) :
  xle (Fin 0) (if xgt v (Fin 0) then v else Fin 0) = true.
Proof.
  destruct v; cbn; unfold Rltb, Rleb;
    repeat match goal with
           | |- context [Rlt_dec ?a ?b] => destruct (Rlt_dec a b); cbn
           | |- context [Rle_dec ?a ?b] => destruct (Rle_dec a b); cbn
           end; try reflexivity; lra.
Qed.

Lemma py_max_one :
  (if xgt (xsub (Fin 1) (Fin 0)) (Fin 0)
   then xsub (Fin 1) (Fin 0) else Fin 0) = Fin 1.
Proof.
  cbn. unfold Rltb. destruct (Rlt_dec 0 (1 + - 0)); [|lra].
  f_equal. lra.
Qed.

Lemma py_max_null :
  (if xgt (xsub (Fin 1) (Fin 1)) (Fin 0)
   then xsub (Fin 1) (Fin 1) else Fin 0) = Fin 0.
Proof. cbn. unfold Rltb. destruct (Rlt_dec 0 (1 + - (1))); [lra|reflexivity]. Qed.

Section WithSeries.

Variables _cdf_cvm_inf _psi1_mod : xreal -> xreal.

Local Abbreviation cdf_cvm := (_cdf_cvm _cdf_cvm_inf _psi1_mod).

Lemma cdf_cvm_support (x : xreal) (n : Z) :
  0 < n ->
  exists y,
    cdf_cvm x (Some n) = inr y
    /\ (is_nan x = true \/ xle x (Fin (1 / IZR (12 * n))) = true ->
        y = Fin 0)
    /\ (xge x (Fin (IZR n / 3)) = true -> y = Fin 1).
Proof.
  intros Hn. pose proof (support_not_empty Hn) as Hs.
  unfold _cdf_cvm. destruct (Z.eqb_spec n 0) as [E|_]; [lia|].
  eexists. split; [reflexivity|]. split.
  - intros [Hx | Hx].
    + destruct x; try discriminate Hx. reflexivity.
    + destruct x; try discriminate Hx; cbn in *; unfold Rltb, Rleb in *;
        repeat match goal with
               | |- context [Rlt_dec ?a ?b] => destruct (Rlt_dec a b); cbn
               | |- context [Rle_dec ?a ?b] => destruct (Rle_dec a b); cbn
               | H : context [Rle_dec ?a ?b] |- _ => destruct (Rle_dec a b)
               end; try reflexivity; try discriminate; lra.
  - intros Hx. now rewrite Hx.
Qed.

(** X16: for a sample size [n > 0], [_cdf_cvm] is [0] at and below
    [1/(12 n)] and at not-a-number, [1] at and above [n/3], and strictly
    between the two the combination
    [_cdf_cvm_inf(x) (1 + 1/(12 n)) + _psi1_mod(x) / n] of the two series:
    outside the support of the statistic the series play no part. *)
Theorem X16_cdf_cvm_outside_support (x : xreal) (n : Z) :
  0 < n ->
  exists y,
    _cdf_cvm _cdf_cvm_inf _psi1_mod x (Some n) = inr y
    /\ (is_nan x = true \/ xle x (Fin (1 / IZR (12 * n))) = true ->
        y = Fin 0)
    /\ (xge x (Fin (IZR n / 3)) = true -> y = Fin 1)
    /\ (xlt (Fin (1 / IZR (12 * n))) x = true ->
        xlt x (Fin (IZR n / 3)) = true ->
        y = xadd (xmul (_cdf_cvm_inf x) (Fin (1 + 1 / IZR (12 * n))))
                 (xdiv (_psi1_mod x) (of_int n))).
Proof.
  intros Hn.
  destruct (@cdf_cvm_support x n Hn) as (y & Ey & H0 & H1).
  exists y. repeat split; try assumption.
  intros Hlo Hhi. unfold _cdf_cvm in Ey.
  destruct (Z.eqb_spec n 0) as [E|_]; [lia|].
  rewrite Hlo, Hhi in Ey. cbn [andb] in Ey.
  assert (Hge : xge x (Fin (IZR n / 3)) = false).
  { unfold xge. destruct x; try discriminate Hhi; cbn in *;
      [|reflexivity].
    apply Rltb_true in Hhi. apply Rleb_false. exact Hhi. }
  rewrite Hge in Ey. congruence.
Qed.

Variable cdf : list xreal -> list xreal.

Local Abbreviation cvm := (cramervonmises _cdf_cvm_inf _psi1_mod cdf).

(** The plotting positions [(2 i - 1) / (2 n)], as the code computes
    them. *)
Local Abbreviation positions len :=
  (map (fun k =>
          xdiv (of_int (Int64.sub (SomersD.int64_mul 2 k) 1))
               (of_int (2 * Z.of_nat len)))
       (arange_from 1 (Z.of_nat len + 1))).

Local Abbreviation statistic_of rvs len :=
  (xadd (Fin (1 / IZR (12 * Z.of_nat len)))
        (xsum (map (fun x => xmul x x)
                   (zip xsub (positions len)
                        (cdf (np_sort (data rvs))))))).

Lemma positions_length (len : nat) : length (positions len) = len.
Proof.
  unfold arange_from. rewrite !length_map, NDArrayFacts.arange_length. lia.
Qed.

Lemma positions_finite (len : nat) :
  (0 < len)%nat -> Forall Hypotests.finite (positions len).
Proof.
  intros Hlen. apply Forall_forall. intros x Hx.
  apply in_map_iff in Hx. destruct Hx as (k & <- & _).
  rewrite xdiv_of_int by lia. now eexists.
Qed.

Lemma cramervonmises_one_dimensional (rvs : ndarray) (len : nat) :
  shape rvs = [len] -> (2 <= len)%nat ->
  length (cdf (np_sort (data rvs))) = len ->
  exists y,
    cdf_cvm (statistic_of rvs len) (Some (Z.of_nat len)) = inr y
    /\ cvm rvs
       = inr {| statistic := statistic_of rvs len;
                pvalue := if xgt (xsub (Fin 1) y) (Fin 0)
                          then xsub (Fin 1) y else Fin 0 |}.
Proof.
  intros Hs Hlen Hc.
  destruct (@cdf_cvm_support (statistic_of rvs len) (Z.of_nat len))
    as (y & Ey & _); [lia|].
  exists y. split; [exact Ey|].
  unfold cramervonmises, size, ndim. rewrite Hs. cbn [fold_right length].
  destruct (Nat.leb_spec (len * 1) 1); [lia|].
  cbn [Nat.ltb Nat.leb]. cbv zeta.
  unfold broadcast_sub. rewrite Hc, positions_length, Nat.eqb_refl.
  now rewrite Ey.
Qed.

(** X13: on a one-dimensional sample of at least two observations, with a
    [cdf] that returns one value for each of them, [cramervonmises] returns
    a result whose p-value is never negative and never not-a-number,
    whatever the two series return; it is [1] when the statistic is
    not-a-number and [0] when the statistic is at least [n/3]. *)
Theorem X13_cramervonmises_pvalue (rvs : ndarray) (len : nat) :
  shape rvs = [len] -> (2 <= len)%nat ->
  length (cdf (np_sort (data rvs))) = len ->
  exists w p,
    cramervonmises _cdf_cvm_inf _psi1_mod cdf rvs
    = inr {| statistic := w; pvalue := p |}
    /\ xle (Fin 0) p = true
    /\ (is_nan w = true -> p = Fin 1)
    /\ (xge w (Fin (IZR (Z.of_nat len) / 3)) = true -> p = Fin 0).
Proof.
  intros Hs Hlen Hc.
  destruct (cramervonmises_one_dimensional rvs Hs Hlen Hc) as (y & Ey & E).
  destruct (@cdf_cvm_support (statistic_of rvs len) (Z.of_nat len))
    as (y' & Ey' & H0 & H1); [lia|].
  assert (y' = y) by congruence. subst y'.
  eexists _, _. split; [exact E|]. split; [apply py_max_nonneg|]. split.
  - intros Hn. rewrite (H0 (or_introl Hn)). apply py_max_one.
  - intros Hge. rewrite (H1 Hge). apply py_max_null.
Qed.

(** X14: when moreover every value of the [cdf] is finite, the statistic
    is a number that is at least [1/(12 n)], and the p-value is [1] when
    it is equal to [1/(12 n)]. *)
Theorem X14_cramervonmises_statistic (rvs : ndarray) (len : nat) :
  shape rvs = [len] -> (2 <= len)%nat ->
  length (cdf (np_sort (data rvs))) = len ->
  Forall Hypotests.finite (cdf (np_sort (data rvs))) ->
  exists r p,
    cramervonmises _cdf_cvm_inf _psi1_mod cdf rvs
    = inr {| statistic := Fin r; pvalue := p |}
    /\ (1 / IZR (12 * Z.of_nat len) <= r)%R
    /\ (r = (1 / IZR (12 * Z.of_nat len))%R -> p = Fin 1).
Proof.
  intros Hs Hlen Hc Hf.
  destruct (cramervonmises_one_dimensional rvs Hs Hlen Hc) as (y & Ey & E).
  destruct (@cdf_cvm_support (statistic_of rvs len) (Z.of_nat len))
    as (y' & Ey' & H0 & _); [lia|].
  assert (y' = y) by congruence. subst y'.
  assert (Hp : (0 < len)%nat) by lia.
  destruct (xsum_squares
              (zip_xsub_finite (positions_finite Hp) Hf))
    as (t & Et & Ht).
  rewrite Et in E, H0. cbn [xadd] in E, H0.
  eexists _, _. split; [exact E|]. split; [lra|].
  intros Er. rewrite H0; [apply py_max_one|].
  right. cbn [xle]. apply Rleb_true. lra.
Qed.

(** X15: when some value of the [cdf] is not-a-number, the statistic is
    not-a-number and the p-value is [1]. *)
Theorem X15_cramervonmises_nan (rvs : ndarray) (len : nat) :
  shape rvs = [len] -> (2 <= len)%nat ->
  length (cdf (np_sort (data rvs))) = len ->
  In NaN (cdf (np_sort (data rvs))) ->
  cramervonmises _cdf_cvm_inf _psi1_mod cdf rvs
  = inr {| statistic := NaN; pvalue := Fin 1 |}.
Proof.
  intros Hs Hlen Hc Hn.
  destruct (cramervonmises_one_dimensional rvs Hs Hlen Hc) as (y & Ey & E).
  destruct (@cdf_cvm_support (statistic_of rvs len) (Z.of_nat len))
    as (y' & Ey' & H0 & _); [lia|].
  assert (y' = y) by congruence. subst y'.
  assert (Ew : statistic_of rvs len = NaN).
  { rewrite (@xsum_nan (map (fun x => xmul x x) _)); [reflexivity|].
    apply in_map_iff. exists NaN. split; [reflexivity|].
    apply zip_xsub_nan; [|exact Hn].
    now rewrite Hc, positions_length. }
  rewrite Ew in E, H0. rewrite E, H0 by (now left).
  now rewrite py_max_one.
Qed.

(** X17: the result of [cramervonmises] does not depend on the order of
    the observations. *)
Theorem X17_cramervonmises_permutation (rvs rvs' : ndarray) :
  shape rvs = shape rvs' -> Permutation (data rvs) (data rvs') ->
  cramervonmises _cdf_cvm_inf _psi1_mod cdf rvs
  = cramervonmises _cdf_cvm_inf _psi1_mod cdf rvs'.
Proof.
  intros Hs Hp. unfold cramervonmises, size, ndim.
  rewrite Hs, (np_sort_permutation Hp). reflexivity.
Qed.

End WithSeries.

End CramerVonMisesFacts.

(* ================================================================== *)
(** ** The further properties at concrete inputs *)

Module MoreExamples.

Import XReal NDArray Hypotests.

Local Open Scope Z_scope.

Local Abbreviation vaccine := [[7; 12]; [8; 3]].

(** A survival function that is constant, and a cross-tabulation that is
    empty: the properties below of Somers' D and Kendall's tau do not
    depend on the two library functions. *)
Local Abbreviation sf0 := (fun _ : xreal => Fin 0).
Local Abbreviation crosstab0 := (fun _ _ : list Z => @nil (list Z)).

Lemma vaccine_counts : SomersD.count_table 2 2 vaccine.
Proof. split; [reflexivity|]. repeat constructor; lia. Defined.

Lemma X1_witness :
  length (_compute_log_combinations lgamma_int 3) = Z.to_nat (3 + 1)
  /\ forall k, 0 <= k <= 3 ->
       py_index (_compute_log_combinations lgamma_int 3) k
       = Some (Fin (lgamma_int (3 + 1) - lgamma_int (k + 1)
                    - lgamma_int (3 - k + 1))).
Proof. apply (@LogCombinations.X1_log_combinations lgamma_int 3); lia. Defined.


Lemma X3_witness :
  exists (T0 : xreal) (mask : list (list bool)),
    py_index2 (wald_statistic_field true (Int64.add 7 8) (Int64.add 12 3))
              7 12 = Some T0
    /\ is_nan T0 = false
    /\ rejection_region "less"
         (wald_statistic_field true (Int64.add 7 8) (Int64.add 12 3)) T0
       = Returned mask
    /\ py_index2 mask 7 12 = Some true.
Proof.
  apply (@BarnardFacts.X3_observed_in_rejection_region 7 12 8 3 "less" true
           Examples.vaccine_table_valid); try lia.
  exact Examples.less_recognised.
Defined.

Lemma X4_witness :
  barnard_exact lgamma_int [[2; 4]; [1; 2]] "two-sided" true 3
  = ([WaldStatisticField; RejectionRegion; NuisanceMaximizer],
     Returned {| statistic := Fin 0; pvalue := Fin 1 |}).
Proof.
  apply (@BarnardFacts.X4_two_sided_equal_proportions lgamma_int 2 4 1 2
           true 3); unfold valid_table; lia.
Defined.

Lemma X5_witness :
  exists tr s p,
    barnard_exact lgamma_int vaccine "less" true 3
    = (tr, Returned {| statistic := s; pvalue := p |})
    /\ (s = Fin 0 <-> 7 * (12 + 3) = 12 * (7 + 8))
    /\ (xlt (Fin 0) s = true <-> 12 * (7 + 8) < 7 * (12 + 3))
    /\ (xlt s (Fin 0) = true <-> 7 * (12 + 3) < 12 * (7 + 8)).
Proof.
  apply (@BarnardFacts.X5_statistic_sign lgamma_int 7 12 8 3 "less" true 3
           Examples.vaccine_table_valid); try lia.
  exact Examples.less_recognised.
Defined.

Lemma X22_witness :
  exists s mask mask' p p',
    barnard_exact lgamma_int vaccine "less" true 3
    = ([WaldStatisticField; RejectionRegion; NuisanceMaximizer],
       Returned {| statistic := s; pvalue := p |})
    /\ barnard_exact lgamma_int [[12; 7]; [3; 8]]
         (swap_alternative "less") true 3
       = ([WaldStatisticField; RejectionRegion; NuisanceMaximizer],
          Returned {| statistic := xneg s; pvalue := p' |})
    /\ rejection_region "less"
         (wald_statistic_field true (Int64.add 7 8) (Int64.add 12 3)) s
       = Returned mask
    /\ rejection_region (swap_alternative "less")
         (wald_statistic_field true (Int64.add 12 3) (Int64.add 7 8))
         (xneg s)
       = Returned mask'
    /\ (forall x1 x2, 0 <= x1 <= 7 + 8 -> 0 <= x2 <= 12 + 3 ->
          py_index2 mask' x2 x1 = py_index2 mask x1 x2).
Proof.
  apply (@BarnardFacts.X22_column_swap_statistic lgamma_int 7 12 8 3
           "less" true 3 Examples.vaccine_table_valid); try lia.
  exact Examples.less_recognised.
Defined.

Lemma X6_witness :
  SomersD._P vaccine = SomersD.P_Z vaccine
  /\ SomersD._Q vaccine = SomersD.Q_Z vaccine
  /\ 0 <= SomersD._P vaccine /\ 0 <= SomersD._Q vaccine
  /\ SomersD._P vaccine + SomersD._Q vaccine
     + SomersD.sum_of_squares (SomersD.row_sums vaccine)
     <= SomersD.sum2 vaccine * SomersD.sum2 vaccine.
Proof.
  apply (@SomersDFacts.X6_pair_counts 2 2 vaccine vaccine_counts).
  vm_compute. reflexivity.
Defined.

Lemma X7_witness :
  (SomersD.Sri2_Z vaccine = SomersD.total vaccine * SomersD.total vaccine ->
   fst (SomersD._somers_d sf0 vaccine) = NaN)
  /\ (SomersD.Sri2_Z vaccine
      <> SomersD.total vaccine * SomersD.total vaccine ->
      exists r,
        fst (SomersD._somers_d sf0 vaccine) = Fin r
        /\ r = (IZR (SomersD.P_Z vaccine - SomersD.Q_Z vaccine)
                / IZR (SomersD.total vaccine * SomersD.total vaccine
                       - SomersD.Sri2_Z vaccine))%R
        /\ (-1 <= r <= 1)%R).
Proof.
  apply (@SomersDFacts.X7_somers_d_range sf0 2 2 vaccine vaccine_counts);
    try lia.
  vm_compute. reflexivity.
Defined.

Lemma X8_witness :
  fst (SomersD._somers_d sf0 vaccine)
  = Fin (IZR 7 / IZR (7 + 12) - IZR 8 / IZR (8 + 3)).
Proof. apply (@SomersDFacts.X8_somers_d_2x2 sf0 7 12 8 3); lia. Defined.

Lemma X9_witness :
  exists d p,
    SomersD.somersd sf0 crosstab0 (SomersD.Table vaccine)
    = inr {| SomersD.statistic := d; SomersD.pvalue := p;
             SomersD.table := vaccine |}
    /\ (d = NaN
        <-> (length (filter (fun r => negb (SomersD.Zsum r =? 0)%Z) vaccine)
             <= 1)%nat)
    /\ (d <> NaN -> exists r, d = Fin r /\ (-1 <= r <= 1)%R).
Proof.
  apply (@SomersDFacts.X9_somersd_table sf0 crosstab0 2 2 vaccine
           vaccine_counts); try lia.
  - vm_compute. reflexivity.
  - cbn. lia.
Defined.

Lemma X10_witness :
  let den := (SomersD.total vaccine * SomersD.total vaccine
              - SomersD.Sri2_Z vaccine)
             * (SomersD.total vaccine * SomersD.total vaccine
                - SomersD.Scj2_Z vaccine) in
  (den = 0 -> fst (SomersD._tau_b sf0 vaccine) = NaN)
  /\ (den <> 0 ->
      exists r,
        fst (SomersD._tau_b sf0 vaccine) = Fin r
        /\ r = (IZR (SomersD.P_Z vaccine - SomersD.Q_Z vaccine)
                / sqrt (IZR den))%R
        /\ (-1 <= r <= 1)%R).
Proof.
  apply (@SomersDFacts.X10_tau_b_range sf0 2 2 vaccine vaccine_counts);
    try lia.
  vm_compute. reflexivity.
Defined.

Lemma X11_witness :
  fst (SomersD._tau_b sf0 vaccine)
  = Fin (IZR (7 * 3 - 12 * 8)
         / sqrt (IZR ((7 + 12) * (8 + 3) * ((7 + 8) * (12 + 3))))).
Proof. apply (@SomersDFacts.X11_tau_b_2x2 sf0 7 12 8 3); lia. Defined.

Lemma X18_witness :
  SomersD._a_ij_Aij_Dij2 vaccine = SomersD.V_Z vaccine
  /\ 0 <= SomersD._a_ij_Aij_Dij2 vaccine
  /\ SomersD.int64_mul
       (Int64.sub (SomersD._P vaccine) (SomersD._Q vaccine))
       (Int64.sub (SomersD._P vaccine) (SomersD._Q vaccine))
     = (SomersD._P vaccine - SomersD._Q vaccine)
       * (SomersD._P vaccine - SomersD._Q vaccine)
  /\ (SomersD._P vaccine - SomersD._Q vaccine)
     * (SomersD._P vaccine - SomersD._Q vaccine)
     <= SomersD.sum2 vaccine * SomersD._a_ij_Aij_Dij2 vaccine.
Proof.
  apply (@SomersDFacts.X18_variance_term 2 2 vaccine vaccine_counts).
  vm_compute. reflexivity.
Defined.

Lemma X20_witness :
  SomersD._somers_d sf0 (map (@rev Z) vaccine)
  = (xneg (fst (SomersD._somers_d sf0 vaccine)),
     snd (SomersD._somers_d sf0 vaccine))
  /\ SomersD._somers_d sf0 (rev vaccine)
     = (xneg (fst (SomersD._somers_d sf0 vaccine)),
        snd (SomersD._somers_d sf0 vaccine)).
Proof.
  apply (@SomersDFacts.X20_somers_d_reversal sf0 2 2 vaccine
           vaccine_counts).
  vm_compute. reflexivity.
Defined.

Lemma X21_witness :
  SomersD._tau_b sf0 (map (@rev Z) vaccine)
  = (xneg (fst (SomersD._tau_b sf0 vaccine)),
     snd (SomersD._tau_b sf0 vaccine))
  /\ SomersD._tau_b sf0 (rev vaccine)
     = (xneg (fst (SomersD._tau_b sf0 vaccine)),
        snd (SomersD._tau_b sf0 vaccine)).
Proof.
  apply (@SomersDFacts.X21_tau_b_reversal sf0 2 2 vaccine vaccine_counts).
  vm_compute. reflexivity.
Defined.

(** A one-dimensional sample of two observations, in two orders. *)
Local Abbreviation two_obs :=
  {| CramerVonMises.shape := [2%nat];
     CramerVonMises.data := [Fin 1; Fin 0] |}.
Local Abbreviation two_obs' :=
  {| CramerVonMises.shape := [2%nat];
     CramerVonMises.data := [Fin 0; Fin 1] |}.
Local Abbreviation series0 := (fun _ : xreal => Fin 0).
Local Abbreviation cdf_quartiles :=
  (fun _ : list xreal => [Fin (1 / 4); Fin (3 / 4)]).
Local Abbreviation cdf_nan := (fun _ : list xreal => [NaN; Fin 0]).

Lemma X13_witness :
  exists w p,
    CramerVonMises.cramervonmises series0 series0 cdf_quartiles two_obs
    = inr {| CramerVonMises.statistic := w; CramerVonMises.pvalue := p |}
    /\ xle (Fin 0) p = true
    /\ (is_nan w = true -> p = Fin 1)
    /\ (xge w (Fin (IZR (Z.of_nat 2) / 3)) = true -> p = Fin 0).
Proof.
  apply (@CramerVonMisesFacts.X13_cramervonmises_pvalue
           series0 series0 cdf_quartiles two_obs 2%nat);
    [reflexivity | lia | reflexivity].
Defined.

Lemma X14_witness :
  exists r p,
    CramerVonMises.cramervonmises series0 series0 cdf_quartiles two_obs
    = inr {| CramerVonMises.statistic := Fin r;
             CramerVonMises.pvalue := p |}
    /\ (1 / IZR (12 * Z.of_nat 2) <= r)%R
    /\ (r = (1 / IZR (12 * Z.of_nat 2))%R -> p = Fin 1).
Proof.
  apply (@CramerVonMisesFacts.X14_cramervonmises_statistic
           series0 series0 cdf_quartiles two_obs 2%nat);
    [reflexivity | lia | reflexivity |].
  repeat constructor; eexists; reflexivity.
Defined.

Lemma X15_witness :
  CramerVonMises.cramervonmises series0 series0 cdf_nan two_obs
  = inr {| CramerVonMises.statistic := NaN;
           CramerVonMises.pvalue := Fin 1 |}.
Proof.
  apply (@CramerVonMisesFacts.X15_cramervonmises_nan
           series0 series0 cdf_nan two_obs 2%nat);
    [reflexivity | lia | reflexivity |].
  left. reflexivity.
Defined.

Lemma X16_witness :
  exists y,
    CramerVonMises._cdf_cvm series0 series0 NaN (Some 2) = inr y
    /\ (is_nan NaN = true \/ xle NaN (Fin (1 / IZR (12 * 2))) = true ->
        y = Fin 0)
    /\ (xge NaN (Fin (IZR 2 / 3)) = true -> y = Fin 1)
    /\ (xlt (Fin (1 / IZR (12 * 2))) NaN = true ->
        xlt NaN (Fin (IZR 2 / 3)) = true ->
        y = xadd (xmul (series0 NaN) (Fin (1 + 1 / IZR (12 * 2))))
                 (xdiv (series0 NaN) (of_int 2))).
Proof.
  apply (@CramerVonMisesFacts.X16_cdf_cvm_outside_support
           series0 series0 NaN 2).
  lia.
Defined.

Lemma X17_witness :
  CramerVonMises.cramervonmises series0 series0 cdf_quartiles two_obs
  = CramerVonMises.cramervonmises series0 series0 cdf_quartiles two_obs'.
Proof.
  apply (@CramerVonMisesFacts.X17_cramervonmises_permutation
           series0 series0 cdf_quartiles two_obs two_obs').
  - reflexivity.
  - apply perm_swap.
Defined.

End MoreExamples.
